(** * DataJoint relational operands: operator trees and their SQL compilation

    A shallow embedding of [datajoint/relational_operand.py].  Relation nodes
    are Python objects: they live in a store, their [_restrictions] attribute
    points to a list object that several nodes may share, and the alias
    counter of [Subquery] is a class attribute.  The embedding therefore
    threads one explicit state (object store, alias counter) through every
    operation, and keeps Python exceptions as ordinary results. *)

From Stdlib Require Import ZArith NArith String Ascii List Lia.
From Stdlib Require HexString DecimalString.
From stdpp Require Import base option list strings.

Local Open Scope string_scope.
Local Open Scope list_scope.
Set Warnings "-register-all".

(** ** Python exceptions and results *)

Inductive exn :=
| DataJointError (msg : string)
| AssertionError (msg : string)
| KeyError (key : string)
| TypeError (msg : string)
| IndexError (msg : string).

Inductive outcome (A : Type) :=
| Ret (a : A)
| Raise (e : exn).
Arguments Ret {A} a.
Arguments Raise {A} e.

Definition outcome_bind {A B} (o : outcome A) (f : A -> outcome B) : outcome B :=
  match o with
  | Ret a => f a
  | Raise e => Raise e
  end.

(** ** Headings

    Modelled from the spec: the [Heading] class (attribute metadata) is not
    part of the sources at hand.  The data model of the specification gives it
    an ordered sequence of attributes, each with a name, a primary-key flag
    and a blob flag, together with the [computed] flag. *)

Record Attribute := {
  name : string;
  in_key : bool;
  is_blob : bool
}.

Record Heading := {
  attributes : list Attribute;
  computed : bool
}.

Definition names (hd : Heading) : list string := map name (attributes hd).

Definition primary_key_of (hd : Heading) : list string :=
  map name (List.filter in_key (attributes hd)).

Definition blobs (hd : Heading) : list string :=
  map name (List.filter is_blob (attributes hd)).

(** [heading[name]]: the attribute called [nm], if any. *)
Definition heading_getitem (hd : Heading) (nm : string) : option Attribute :=
  find (fun a => String.eqb (name a) nm) (attributes hd).

(** [name in heading]. *)
Definition heading_contains (hd : Heading) (nm : string) : bool :=
  existsb (String.eqb nm) (names hd).

(** ** Python values

    Restrictions are dynamically typed.  [VRel] is a reference to a relation
    node of the store; [VNot] is an instance of the class [Not]; [VVoid] and
    [VArray] stand for [numpy.void] and [numpy.ndarray]. *)

Abbreviation loc := nat.
Abbreviation conn := nat.

Inductive value :=
| VNone
| VInt (z : Z)
| VStr (s : string)
| VDict (items : list (string * value))
| VList (elems : list value)
| VVoid (fields : list (string * value))
| VArray (elems : list value)
| VNot (restriction : value)
| VRel (self : loc).

Definition row := list (string * value).

(** ** The object store *)

Inductive shape :=
| Base (connection : conn) (from_clause : string) (heading : Heading)
| Join (_arg1 _arg2 : loc) (_left : bool)
| Projection (_arg : loc) (_attributes : list string)
             (_renamed_attributes : list (string * string))
| Subquery (_arg : loc).

Record node := {
  shape_of : shape;
  _restrictions : option loc
}.

Record heap := {
  nodes : list node;
  lists : list (list value)
}.

(** The interpreter state: the store, the class attribute
    [Subquery.__counter], and the history of the aliases minted so far (a
    ghost field: no operation reads it). *)
Record state := {
  st_heap : heap;
  counter : N;
  minted : list string
}.

(** ** Collaborators that are not defined in this module

    The heading algebra, the blob codec, the database connection, the regular
    expression of [Projection.__init__] and Python's [repr]/[str]. *)

Class Externals := {
  heading_join : Heading -> Heading -> bool -> outcome Heading;
  heading_project :
    Heading -> list string -> list (string * string) -> outcome Heading;
  heading_resolve : Heading -> outcome Heading;
  heading_set_primary_key : Heading -> list string -> outcome unit;
  heading_as_sql : Heading -> string;
  py_repr : value -> string;
  py_str : value -> string;
  unpack : value -> value;
  query : conn -> string -> bool -> outcome (list row);
  alias_parser_match : string -> option (string * string)
}.

(** ** The state-and-exception monad

    [None] is reserved for what Python would not finish either: recursion
    deeper than the allowed depth, or a reference outside the store. *)

Definition M (A : Type) : Type := state -> option (outcome A * state).

Definition ret {A} (a : A) : M A := fun s => Some (Ret a, s).

Definition bind {A B} (m : M A) (f : A -> M B) : M B :=
  fun s =>
    match m s with
    | Some (Ret a, s') => f a s'
    | Some (Raise e, s') => Some (Raise e, s')
    | None => None
    end.

Definition raise {A} (e : exn) : M A := fun s => Some (Raise e, s).

Definition stuck {A} : M A := fun _ => None.

#[global] Instance M_ret : MRet M := @ret.
#[global] Instance M_bind : MBind M := fun A B f m => bind m f.

(** A read of the store that may raise or be stuck. *)
Definition reading {A} (f : heap -> option (outcome A)) : M A :=
  fun s =>
    match f (st_heap s) with
    | Some o => Some (o, s)
    | None => None
    end.

Definition lift_outcome {A} (o : outcome A) : M A := fun s => Some (o, s).

Definition with_heap (h : heap) (s : state) : state :=
  {| st_heap := h; counter := counter s; minted := minted s |}.

Definition read_node (self : loc) : M node :=
  reading (fun h => Ret <$> nodes h !! self).

Definition read_list (p : loc) : M (list value) :=
  reading (fun h => Ret <$> lists h !! p).

Definition alloc_node (nd : node) : M loc :=
  fun s =>
    let h := st_heap s in
    Some (Ret (length (nodes h)),
          with_heap {| nodes := nodes h ++ [nd]; lists := lists h |} s).

Definition alloc_list (l : list value) : M loc :=
  fun s =>
    let h := st_heap s in
    Some (Ret (length (lists h)),
          with_heap {| nodes := nodes h; lists := lists h ++ [l] |} s).

Definition write_node (self : loc) (nd : node) : M unit :=
  fun s =>
    let h := st_heap s in
    match nodes h !! self with
    | Some _ =>
        Some (Ret tt,
              with_heap {| nodes := <[self := nd]> (nodes h);
                           lists := lists h |} s)
    | None => None
    end.

Definition write_list (p : loc) (l : list value) : M unit :=
  fun s =>
    let h := st_heap s in
    match lists h !! p with
    | Some _ =>
        Some (Ret tt,
              with_heap {| nodes := nodes h;
                           lists := <[p := l]> (lists h) |} s)
    | None => None
    end.

(** ** Reading objects *)

(** The contents of [self.restrictions]: the property answers [[]] when the
    attribute [_restrictions] is still the class default [None]. *)
Definition restrictions_of (h : heap) (self : loc) : option (list value) :=
  nd ← nodes h !! self;
  match _restrictions nd with
  | None => Some []
  | Some p => lists h !! p
  end.

Section Operand.
Context `{E : Externals}.

(** [self.connection], resolved through the children; [n] bounds the depth of
    the recursion. *)
Fixpoint connection (n : nat) (h : heap) (self : loc) : option conn :=
  match n with
  | O => None
  | S n' =>
      nd ← nodes h !! self;
      match shape_of nd with
      | Base c _ _ => Some c
      | Join a1 _ _ => connection n' h a1
      | Projection a _ _ => connection n' h a
      | Subquery a => connection n' h a
      end
  end.

(** [self.heading]: every access recomputes it from the children. *)
Fixpoint heading (n : nat) (h : heap) (self : loc) : option (outcome Heading) :=
  match n with
  | O => None
  | S n' =>
      nd ← nodes h !! self;
      match shape_of nd with
      | Base _ _ hd => Some (Ret hd)
      | Join a1 a2 left_ =>
          o1 ← heading n' h a1;
          match o1 with
          | Raise e => Some (Raise e)
          | Ret h1 =>
              o2 ← heading n' h a2;
              Some (outcome_bind o2 (fun h2 => heading_join h1 h2 left_))
          end
      | Projection a attrs renamed =>
          o ← heading n' h a;
          Some (outcome_bind o (fun ha => heading_project ha attrs renamed))
      | Subquery a =>
          o ← heading n' h a;
          Some (outcome_bind o heading_resolve)
      end
  end.

Definition get_connection (n : nat) (self : loc) : M conn :=
  reading (fun h => Ret <$> connection n h self).

Definition get_heading (n : nat) (self : loc) : M Heading :=
  reading (fun h => heading n h self).

Definition get_restrictions (self : loc) : M (list value) :=
  reading (fun h => Ret <$> restrictions_of h self).

(** [self.primary_key] *)
Definition primary_key (n : nat) (self : loc) : M (list string) :=
  hd ← get_heading n self; mret (primary_key_of hd).

(** ** Constructors and restriction *)

(** [Subquery.__init__] *)
Definition Subquery__init__ (arg : loc) : M loc :=
  alloc_node {| shape_of := Subquery arg; _restrictions := None |}.

(** [copy(self)]: a shallow copy, the new object points to the same list. *)
Definition copy (self : loc) : M loc :=
  nd ← read_node self; alloc_node nd.

(** The list object behind the property [restrictions]: the object stored in
    [_restrictions], or a new empty list when there is none. *)
Definition restrictions_object (self : loc) : M loc :=
  nd ← read_node self;
  match _restrictions nd with
  | Some p => mret p
  | None => alloc_list []
  end.

(** [RelationalOperand._restrict]: [None] is ignored, a list is spliced in
    with [extend], anything else is appended. *)
Definition RelationalOperand_restrict (self : loc) (restriction : value) : M loc :=
  match restriction with
  | VNone => mret self
  | _ =>
      nd ← read_node self;
      p ← match _restrictions nd with
          | Some p => mret p
          | None =>
              p ← alloc_list [];
              write_node self {| shape_of := shape_of nd; _restrictions := Some p |};;
              mret p
          end;
      old ← read_list p;
      match restriction with
      | VList elems => write_list p (old ++ elems)
      | _ => write_list p (old ++ [restriction])
      end;;
      mret self
  end.

(** [RelationalOperand.__and__], with the method that [ret &= restriction]
    dispatches to left open. *)
Definition and_with (iand : loc -> value -> M loc)
    (self : loc) (restriction : value) : M loc :=
  r ← copy self;
  rs ← get_restrictions r;
  p ← alloc_list rs;
  nd ← read_node r;
  write_node r {| shape_of := shape_of nd; _restrictions := Some p |};;
  iand r restriction.

(** [self._restrict(restriction)] with the dispatch on the class of [self]:
    [Projection] overrides the method, the other classes inherit it. *)
Fixpoint _restrict (n : nat) (self : loc) (restriction : value) : M loc :=
  match n with
  | O => stuck
  | S n' =>
      nd ← read_node self;
      match shape_of nd with
      | Projection _ _ _ =>
          hd ← get_heading n' self;
          if computed hd
          then s ← Subquery__init__ self; and_with (_restrict n') s restriction
          else RelationalOperand_restrict self restriction
      | _ => RelationalOperand_restrict self restriction
      end
  end.

(** [self &= restriction] evaluates to [self.__iand__(restriction)]. *)
Definition __iand__ (n : nat) (self : loc) (restriction : value) : M loc :=
  _restrict n self restriction.

(** [self & restriction] *)
Definition __and__ (n : nat) (self : loc) (restriction : value) : M loc :=
  and_with (__iand__ n) self restriction.

(** [self -= restriction] *)
Definition __isub__ (n : nat) (self : loc) (restriction : value) : M loc :=
  __iand__ n self (VNot restriction).

(** [self - restriction] *)
Definition __sub__ (n : nat) (self : loc) (restriction : value) : M loc :=
  __and__ n self (VNot restriction).

(** [Join.__init__] *)
Definition Join__init__ (n : nat) (arg1 : loc) (arg2 : value) (left_ : bool) : M loc :=
  match arg2 with
  | VRel arg2 =>
      c1 ← get_connection n arg1;
      c2 ← get_connection n arg2;
      if negb (Nat.eqb c1 c2)
      then raise (DataJointError
                    "Cannot join relations with different database connections")
      else
        h1 ← get_heading n arg1;
        a1 ← (if computed h1 then Subquery__init__ arg1 else mret arg1);
        h2 ← get_heading n arg2;
        a2 ← (if computed h2 then Subquery__init__ arg1 else mret arg2);
        r1 ← get_restrictions a1;
        r2 ← get_restrictions a2;
        p ← alloc_list (r1 ++ r2);
        alloc_node {| shape_of := Join a1 a2 left_; _restrictions := Some p |}
  | _ => raise (DataJointError
                  "a relation can only be joined with another relation")
  end.

(** [d[k] = v] on an insertion-ordered dict: a key that is present keeps
    its place. *)
Fixpoint dict_update {V} (d : list (string * V)) (k : string) (v : V)
  : list (string * V) :=
  match d with
  | [] => [(k, v)]
  | (k', v') :: d' =>
      if String.eqb k' k then (k, v) :: d' else (k', v') :: dict_update d' k v
  end.

(** The loop of [Projection.__init__] over the positional attributes. *)
Fixpoint parse_attributes (attrs : list string)
    (kept : list string) (renamed : list (string * string))
  : list string * list (string * string) :=
  match attrs with
  | [] => (kept, renamed)
  | attribute :: rest =>
      match alias_parser_match attribute with
      | Some (alias, sql_expression) =>
          parse_attributes rest kept (dict_update renamed alias sql_expression)
      | None => parse_attributes rest (kept ++ [attribute]) renamed
      end
  end.

(** [Projection.__init__] *)
Definition Projection__init__ (n : nat) (arg : loc)
    (attrs : list string) (renamed_attributes : list (string * string)) : M loc :=
  let '(kept, renamed) := parse_attributes attrs [] renamed_attributes in
  hd ← get_heading n arg;
  if computed hd
  then
    s ← Subquery__init__ arg;
    alloc_node {| shape_of := Projection s kept renamed; _restrictions := None |}
  else
    p ← restrictions_object arg;
    alloc_node {| shape_of := Projection arg kept renamed; _restrictions := Some p |}.

(** [self * other] and [self.project(...)] *)
Definition __mul__ (n : nat) (self : loc) (other : value) : M loc :=
  Join__init__ n self other false.

Definition project (n : nat) (self : loc)
    (attrs : list string) (renamed_attributes : list (string * string)) : M loc :=
  Projection__init__ n self attrs renamed_attributes.

(** [RelationalOperand.aggregate]: the method ends after the call of
    [set_primary_key], so a call that does not raise evaluates to [None]. *)
Definition aggregate (n : nat) (self : loc) (group : value)
    (attrs : list string) (renamed_attributes : list (string * string)) : M value :=
  match group with
  | VRel _ =>
      j ← Join__init__ n self group true;
      r ← Projection__init__ n j attrs renamed_attributes;
      hd ← get_heading n r;
      pk ← primary_key n self;
      lift_outcome (heading_set_primary_key hd pk);;
      mret VNone
  | _ => raise (DataJointError "The second argument must be a relation")
  end.

(** ** Compilation to SQL *)

(** ['%x' % n] for a counter value. *)
Definition hex (n : N) : string :=
  match n with
  | N0 => "0"
  | Npos p => HexString.Raw.of_pos p ""
  end.

(** ['%d' % z] *)
Definition dec (z : Z) : string :=
  DecimalString.NilZero.string_of_int (Z.to_int z).

(** The property [Subquery.counter]: increments the class attribute and
    answers the new value. *)
Definition Subquery_counter : M N :=
  fun s =>
    let c := (counter s + 1)%N in
    Some (Ret c, {| st_heap := st_heap s; counter := c; minted := minted s |}).

(** Ghost: remember an alias that went into the SQL text. *)
Definition note_alias (alias : string) : M unit :=
  fun s =>
    Some (Ret tt, {| st_heap := st_heap s; counter := counter s;
                     minted := minted s ++ [alias] |}).

(** A Python loop or comprehension whose body may raise. *)
Fixpoint for_each {A B} (f : A -> M B) (l : list A) : M (list B) :=
  match l with
  | [] => mret []
  | x :: l' => y ← f x; ys ← for_each f l'; mret (y :: ys)
  end.

(** The local function [make_condition] of [where_clause]; [self.heading] is
    looked up for every key of a mapping. *)
Definition make_condition (n : nat) (self : loc) (arg : value) : M string :=
  match arg with
  | VDict items =>
      conditions ← for_each
        (fun kv : string * value =>
           hd ← get_heading n self;
           mret (if heading_contains hd kv.1
                 then Some ("`" +:+ kv.1 +:+ "`=" +:+ py_repr kv.2)
                 else None))
        items;
      mret (String.concat " AND " (omap id conditions))
  | VVoid fields =>
      mret (String.concat " AND "
              (map (fun kv : string * value =>
                      "`" +:+ kv.1 +:+ "`=" +:+ py_str kv.2) fields))
  | _ => raise (DataJointError "invalid restriction type")
  end.

(** ['%s(%s)' % ('not ' if negate else '', r)] *)
Definition parenthesized (negate : bool) (r : string) : string :=
  (if negate then "not " else "") +:+ "(" +:+ r +:+ ")".

Inductive clause_kind := FROM | WHERE.

(** [','.join([q for q in self.heading.names if q in r.heading.names])] *)
Definition common_attributes (n : nat) (self r : loc) : M string :=
  hs ← get_heading n self;
  common ← for_each
    (fun q => hr ← get_heading n r;
              mret (if existsb (String.eqb q) (names hr) then Some q else None))
    (names hs);
  mret (String.concat "," (omap id common)).

(** The condition for a restriction by the relation [r]. *)
Definition semijoin_condition (cl : clause_kind -> loc -> M string)
    (n : nat) (self : loc) (negate : bool) (r : loc) : M string :=
  common ← common_attributes n self r;
  f ← cl FROM r;
  w ← cl WHERE r;
  mret ("(" +:+ common +:+ ") " +:+ (if negate then "not " else "")
            +:+ "in (SELECT " +:+ common +:+ " FROM " +:+ f +:+ w +:+ ")").

(** The condition for a restriction by a sequence [qs]. *)
Definition alternatives (n : nat) (self : loc) (qs : list value) : M string :=
  cs ← for_each (make_condition n self) qs;
  mret ("(" +:+ String.concat ") OR (" cs +:+ ")").

(** The body of the loop of [where_clause] for one restriction [r] of
    [self]; [cl] compiles the clauses of a nested relation. *)
Definition condition_with (cl : clause_kind -> loc -> M string)
    (n : nat) (self : loc) (r : value) : M string :=
  let negate := match r with VNot _ => true | _ => false end in
  let r := match r with VNot r' => r' | _ => r end in
  match r with
  | VDict _ | VVoid _ =>
      c ← make_condition n self r; mret (parenthesized negate c)
  | VArray qs | VList qs =>
      c ← alternatives n self qs; mret (parenthesized negate c)
  | VRel r' =>
      c ← semijoin_condition cl n self negate r'; mret (parenthesized false c)
  | VStr sql => mret (parenthesized negate sql)
  | _ => raise (AssertionError "condition must be converted into a string")
  end.

(** [make_select], over the clause compiler [cl]. *)
Definition select_with (cl : clause_kind -> loc -> M string)
    (n : nat) (self : loc) (attribute_spec : option string) : M string :=
  spec ← match attribute_spec with
         | Some spec => mret spec
         | None => hd ← get_heading n self; mret (heading_as_sql hd)
         end;
  f ← cl FROM self;
  w ← cl WHERE self;
  mret ("SELECT " +:+ spec +:+ " FROM " +:+ f +:+ w).

(** The properties [from_clause] and [where_clause].  They call each other
    through [Subquery.from_clause] and through nested relations in a
    restriction list, so they are one function, recursive on the depth. *)
Fixpoint clause (n : nat) (k : clause_kind) (self : loc) : M string :=
  match n with
  | O => stuck
  | S n' =>
      match k with
      | FROM =>
          nd ← read_node self;
          match shape_of nd with
          | Base _ f _ => mret f
          | Join a1 a2 left_ =>
              f1 ← clause n' FROM a1;
              f2 ← clause n' FROM a2;
              mret (f1 +:+ " NATURAL " +:+ (if left_ then "LEFT " else "")
                       +:+ "JOIN " +:+ f2)
          | Projection a _ _ => clause n' FROM a
          | Subquery a =>
              sel ← select_with (clause n') n' a None;
              c ← Subquery_counter;
              let alias := "_s" +:+ hex c in
              note_alias alias;;
              mret ("(" +:+ sel +:+ ") as `" +:+ alias +:+ "`")
          end
      | WHERE =>
          rs ← get_restrictions self;
          match rs with
          | [] => mret ""
          | _ =>
              conditions ← for_each (condition_with (clause n') n' self) rs;
              mret (" WHERE " +:+ String.concat " AND " conditions)
          end
      end
  end.

Definition from_clause (n : nat) (self : loc) : M string := clause n FROM self.
Definition where_clause (n : nat) (self : loc) : M string := clause n WHERE self.

Definition make_select (n : nat) (self : loc) (attribute_spec : option string)
  : M string :=
  select_with (clause n) n self attribute_spec.

(** ** Retrieval *)

(** [RelationalOperand.cursor].  The cursor object is the list of the rows
    that have not been fetched yet. *)
Definition cursor (n : nat) (self : loc) (offset : Z) (limit : option Z)
    (order_by : option (list string)) (descending as_dict : bool) : M (list row) :=
  if negb (Z.eqb offset 0) && match limit with None => true | Some _ => false end
  then raise (DataJointError "limit is required when offset is set")
  else
    sql ← make_select n self None;
    let sql :=
      match order_by with
      | Some cols =>
          sql +:+ " ORDER BY " +:+ String.concat ", " cols
              +:+ (if descending then " DESC" else "")
      | None => sql
      end in
    let sql :=
      match limit with
      | Some lim =>
          sql +:+ " LIMIT " +:+ dec lim
              +:+ (if negb (Z.eqb offset 0) then " OFFSET " +:+ dec offset else "")
      | None => sql
      end in
    c ← get_connection n self;
    lift_outcome (query c sql as_dict).

(** [RelationalOperand.__len__] *)
Definition __len__ (n : nat) (self : loc) : M value :=
  c ← get_connection n self;
  sql ← make_select n self (Some "count(*)");
  cur ← lift_outcome (query c sql false);
  match cur with
  | [] => raise (TypeError "'NoneType' object is not subscriptable")
  | first :: _ =>
      match first with
      | [] => raise (IndexError "tuple index out of range")
      | (_, v) :: _ => mret v
      end
  end.

(** [ret[name]] on a row fetched as a dict. *)
Definition row_getitem (r : row) (nm : string) : option value :=
  snd <$> find (fun kv : string * value => String.eqb kv.1 nm) r.

(** Truth value of what [fetchone] answers: a row, or [None] at the end. *)
Definition truthy (r : option row) : bool :=
  match r with
  | Some (_ :: _) => true
  | _ => false
  end.

Definition cardinality_error : exn :=
  DataJointError "fetch1 should only be used for relations with exactly one tuple".

(** [OrderedDict(pairs)] *)
Definition OrderedDict (pairs : list (string * value)) : list (string * value) :=
  fold_left (fun d kv => dict_update d kv.1 kv.2) pairs [].

(** [RelationalOperand.fetch1] *)
Definition fetch1 (n : nat) (self : loc) : M value :=
  hd ← get_heading n self;
  cur ← cursor n self 0 None None false true;
  let ret_ := head cur in
  let cur := tail cur in
  if negb (truthy ret_) || truthy (head cur)
  then raise cardinality_error
  else
    hd' ← get_heading n self;
    items ← for_each
      (fun nm =>
         match heading_getitem hd nm with
         | None => raise (KeyError nm)
         | Some a =>
             match ret_ ≫= (fun r => row_getitem r nm) with
             | None => raise (KeyError nm)
             | Some v => mret (nm, if is_blob a then unpack v else v)
             end
         end)
      (names hd');
    mret (VDict (OrderedDict items)).

End Operand.

(** ** A small instance of the collaborators

    Modelled from the spec: a heading algebra with the properties the
    specification asks of [Heading]: a projection keeps the primary key and
    reports [computed] as soon as an attribute is renamed, [resolve] clears
    the flag, a join keeps the attributes of both sides once.  It serves the
    closed examples below. *)

Module Toy.

Definition has_name (l : list string) (a : Attribute) : bool :=
  existsb (String.eqb (name a)) l.

Definition join (h1 h2 : Heading) (left_ : bool) : outcome Heading :=
  Ret {| attributes :=
           attributes h1 ++
           List.filter (fun a => negb (has_name (names h1) a)) (attributes h2);
         computed := computed h1 || computed h2 |}.

Fixpoint has_duplicate (l : list string) : bool :=
  match l with
  | [] => false
  | x :: l' => existsb (String.eqb x) l' || has_duplicate l'
  end.

Definition project (hd : Heading) (attrs : list string)
    (renamed : list (string * string)) : outcome Heading :=
  let requested := attrs ++ map fst renamed in
  if has_duplicate requested
  then Raise (DataJointError "duplicate attribute in projection")
  else
    let kept :=
      List.filter (fun a => in_key a || has_name attrs a
                       || existsb (String.eqb "*") attrs)
             (attributes hd) in
    let added :=
      map (fun kv : string * string =>
             {| name := kv.1; in_key := false; is_blob := false |}) renamed in
    Ret {| attributes := kept ++ added;
           computed :=
             computed hd || match renamed with [] => false | _ => true end |}.

Definition resolve (hd : Heading) : outcome Heading :=
  Ret {| attributes := attributes hd; computed := false |}.

Definition as_sql (hd : Heading) : string :=
  String.concat "," (map (fun nm => "`" +:+ nm +:+ "`") (names hd)).

(** [repr] and [str] on the integers and plain strings of the examples. *)
Definition repr (v : value) : string :=
  match v with
  | VInt z => dec z
  | VStr s => "'" +:+ s +:+ "'"
  | _ => "<object>"
  end.

Definition str (v : value) : string :=
  match v with
  | VInt z => dec z
  | VStr s => s
  | _ => "<object>"
  end.

(** A blob codec that tags what it decoded. *)
Definition decode (v : value) : value := VList [VStr "unpacked"; v].

(** A database with one table [`lab`.`a`] of three rows
    [(id, value, trace)], answering the statements of the examples. *)
Definition a_row (i v : Z) : row :=
  [("id", VInt i); ("value", VInt v); ("trace", VStr "blob")].

Definition database (c : conn) (sql : string) (as_dict : bool)
  : outcome (list row) :=
  if String.eqb sql "SELECT `id`,`value`,`trace` FROM `lab`.`a`"
  then Ret [a_row 1 10; a_row 2 20; a_row 3 30]
  else if String.eqb sql "SELECT `id`,`value`,`trace` FROM `lab`.`a` WHERE (`id`=1)"
  then Ret [a_row 1 10]
  else if String.eqb sql "SELECT count(*) FROM `lab`.`a`"
  then Ret [[("count(*)", VInt 3)]]
  else Ret [].

(** The examples name their renamed attributes by keyword and give no
    positional attribute, so the pattern of [Projection.__init__] has
    nothing to match. *)
#[local] Instance externals : Externals := {|
  heading_join := join;
  heading_project := project;
  heading_resolve := resolve;
  heading_set_primary_key := fun _ _ => Ret tt;
  heading_as_sql := as_sql;
  py_repr := repr;
  py_str := str;
  unpack := decode;
  query := database;
  alias_parser_match := fun _ => None
|}.

Definition a_heading : Heading :=
  {| attributes :=
       [ {| name := "id"; in_key := true; is_blob := false |};
         {| name := "value"; in_key := false; is_blob := false |};
         {| name := "trace"; in_key := false; is_blob := true |} ];
     computed := false |}.

Definition b_heading : Heading :=
  {| attributes :=
       [ {| name := "id"; in_key := true; is_blob := false |};
         {| name := "session"; in_key := true; is_blob := false |} ];
     computed := false |}.

(** The store with the two base relations [a] (node 0) and [b] (node 1) on
    the connection 7, and nothing else. *)
Definition start : state :=
  {| st_heap :=
       {| nodes := [ {| shape_of := Base 7 "`lab`.`a`" a_heading;
                        _restrictions := None |};
                     {| shape_of := Base 7 "`lab`.`b`" b_heading;
                        _restrictions := None |} ];
          lists := [] |};
     counter := 0;
     minted := [] |}.

(** A statement tree with nested subqueries: node 2 encloses [a], node 3
    joins node 2 with itself, node 4 encloses the join. *)
Definition nested : state :=
  {| st_heap :=
       {| nodes := [ {| shape_of := Base 7 "`lab`.`a`" a_heading;
                        _restrictions := None |};
                     {| shape_of := Base 7 "`lab`.`b`" b_heading;
                        _restrictions := None |};
                     {| shape_of := Subquery 0; _restrictions := None |};
                     {| shape_of := Join 2 2 false; _restrictions := Some 0 |};
                     {| shape_of := Subquery 3; _restrictions := None |} ];
          lists := [[]] |};
     counter := 0;
     minted := [] |}.

(** The store after [p = (a & {'id': 1}).project(doubled='value*2')]: node 2
    is the restricted copy of [a], node 3 the projection [p], whose heading
    is computed and whose restriction list is the list object of node 2. *)
Definition projected : state :=
  {| st_heap :=
       {| nodes := [ {| shape_of := Base 7 "`lab`.`a`" a_heading;
                        _restrictions := None |};
                     {| shape_of := Base 7 "`lab`.`b`" b_heading;
                        _restrictions := None |};
                     {| shape_of := Base 7 "`lab`.`a`" a_heading;
                        _restrictions := Some 0 |};
                     {| shape_of := Projection 2 [] [("doubled", "value*2")];
                        _restrictions := Some 0 |} ];
          lists := [[VDict [("id", VInt 1)]]] |};
     counter := 0;
     minted := [] |}.

(** The heading of the projection [p] of [projected]. *)
Definition p_heading : Heading :=
  {| attributes :=
       [ {| name := "id"; in_key := true; is_blob := false |};
         {| name := "doubled"; in_key := false; is_blob := false |} ];
     computed := true |}.

(** The store after [a &= b] and [a -= b] on a copy of [a] (node 2). *)
Definition semijoined : state :=
  {| st_heap :=
       {| nodes := [ {| shape_of := Base 7 "`lab`.`a`" a_heading;
                        _restrictions := None |};
                     {| shape_of := Base 7 "`lab`.`b`" b_heading;
                        _restrictions := None |};
                     {| shape_of := Base 7 "`lab`.`a`" a_heading;
                        _restrictions := Some 0 |} ];
          lists := [[VRel 1; VNot (VRel 1)]] |};
     counter := 0;
     minted := [] |}.

End Toy.

(** ** Vocabulary of the properties *)

(** ** Invariants of a run

    [keeps R m]: every finished run of [m] relates its first and last state
    by [R].  For a preorder [R] the property goes through [bind] and through
    loops. *)

Definition keeps {A} (R : state -> state -> Prop) (m : M A) : Prop :=
  forall s o s', m s = Some (o, s') -> R s s'.

(** The state after [Subquery.counter] was read and its alias noted. *)
Definition minted_state (s : state) : state :=
  {| st_heap := st_heap s;
     counter := (counter s + 1)%N;
     minted := minted s ++ ["_s" +:+ hex (counter s + 1)] |}.

Definition same_heap (s s' : state) : Prop := st_heap s' = st_heap s.

Definition alias_of (c : N) : string := "_s" +:+ hex c.

(** The aliases numbered [c + 1], ..., [c + k]. *)
Fixpoint aliases_from (c : N) (k : nat) : list string :=
  match k with
  | O => []
  | S k' => alias_of (c + 1) :: aliases_from (c + 1) k'
  end.

(** The discipline of the counter: it never decreases, and the aliases noted
    during a run are exactly those of the counter values it went through. *)
Definition alias_order (s s' : state) : Prop :=
  (counter s <= counter s')%N /\
  minted s' =
    minted s ++ aliases_from (counter s) (N.to_nat (counter s' - counter s)).

(** ** Growing stores

    [heap_le h h']: the store [h'] has all the objects of [h], unchanged, and
    possibly newer ones.  [alike h h' a b]: the node [b] of [h'] has the class
    and the attributes of the node [a] of [h]; [twin h h' a b]: moreover its
    restriction list has the same contents (a copy, for instance).  [sim h h' m m']: whatever a
    run of [m] from the store [h] produces, the run of [m'] from the store
    [h'] produces too. *)

Definition heap_le (h h' : heap) : Prop :=
  nodes h `prefix_of` nodes h' /\ lists h `prefix_of` lists h'.

Definition alike (h h' : heap) (a b : loc) : Prop :=
  forall nd, nodes h !! a = Some nd ->
    exists nd', nodes h' !! b = Some nd' /\ shape_of nd' = shape_of nd.

Definition twin (h h' : heap) (a b : loc) : Prop :=
  alike h h' a b /\
  forall rs, restrictions_of h a = Some rs -> restrictions_of h' b = Some rs.

Definition sim (h h' : heap) {A} (m m' : M A) : Prop :=
  forall s o s1, st_heap s = h -> m s = Some (o, s1) ->
    st_heap s1 = h /\ m' (with_heap h' s) = Some (o, with_heap h' s1).

(** ** Restriction lists *)

(** The contents of a restriction list after the inherited [_restrict]. *)
Definition restrict_list (rs : list value) (restriction : value) : list value :=
  match restriction with
  | VNone => rs
  | VList elems => rs ++ elems
  | _ => rs ++ [restriction]
  end.

(** The store after [self & restriction] went through the inherited
    [_restrict]: one more node, a copy of [nd] with a list of its own, and
    one more list. *)
Definition and_heap (h : heap) (nd : node) (rs : list value) : heap :=
  {| nodes := nodes h ++ [ {| shape_of := shape_of nd;
                              _restrictions := Some (length (lists h)) |} ];
     lists := lists h ++ [rs] |}.

(** The nodes whose [_restrict] is the inherited one: every node but a
    [Projection] with a computed heading. *)
Definition plain_operand `{E : Externals} (n : nat) (h : heap) (self : loc) : Prop :=
  exists nd, nodes h !! self = Some nd /\
    match shape_of nd with
    | Projection _ _ _ =>
        exists hd, heading n h self = Some (Ret hd) /\ computed hd = false
    | _ => True
    end.

(** A [Projection] whose heading reports [computed]. *)
Definition computed_projection `{E : Externals} (n : nat) (h : heap) (self : loc)
  : Prop :=
  exists nd a attrs renamed hd,
    nodes h !! self = Some nd /\
    shape_of nd = Projection a attrs renamed /\
    heading n h self = Some (Ret hd) /\ computed hd = true.

(** The store after [Subquery(self)]. *)
Definition wrap_heap (h : heap) (self : loc) : heap :=
  {| nodes := nodes h ++ [ {| shape_of := Subquery self; _restrictions := None |} ];
     lists := lists h |}.

(** The store after [Subquery(self) & restriction]: the wrapper, its copy
    with a list of its own, and that list. *)
Definition wrapped_heap (h : heap) (self : loc) (rs : list value) : heap :=
  and_heap (wrap_heap h self)
           {| shape_of := Subquery self; _restrictions := None |} rs.

(** ** Conditions *)

(** The conjunction [make_condition] writes for a mapping, under the heading
    [hd] of the restricted relation. *)
Definition conjunction `{E : Externals} (hd : Heading)
    (items : list (string * value)) : string :=
  String.concat " AND "
    (map (fun kv : string * value => "`" +:+ kv.1 +:+ "`=" +:+ py_repr kv.2)
         (List.filter (fun kv : string * value => heading_contains hd kv.1) items)).

(** The text of a [WHERE] clause with the conditions [conds]. *)
Definition where_text (conds : list string) : string :=
  match conds with
  | [] => ""
  | _ => " WHERE " +:+ String.concat " AND " conds
  end.

(** The names of [hs] that [hn] has too, comma-joined. *)
Definition common_columns (hs hn : Heading) : string :=
  String.concat ","
    (List.filter (fun q => existsb (String.eqb q) (names hn)) (names hs)).

(** The text [where_clause] writes for a sequence of mappings: their
    conjunctions, each in parentheses, joined with [OR]. *)
Definition disjunction `{E : Externals} (hd : Heading)
    (ds : list (list (string * value))) : string :=
  "(" +:+ String.concat ") OR (" (map (conjunction hd) ds) +:+ ")".

(** ** Fetched rows *)

(** [heading[nm].is_blob] *)
Definition blob_named (hd : Heading) (nm : string) : bool :=
  match heading_getitem hd nm with
  | Some a => is_blob a
  | None => false
  end.

(** The field [nm] of the mapping [fetch1] answers for the row [r]. *)
Definition fetched_field `{E : Externals} (hd : Heading) (r : row) (nm : string)
  : string * value :=
  let v := default VNone (row_getitem r nm) in
  (nm, if blob_named hd nm then unpack v else v).

(** The store after [Join(arg1, arg2)] when the heading of [arg2] is computed
    and that of [arg1] is not: a [Subquery] and the [Join]. *)
Definition join_heap (h : heap) (arg1 : loc) (left_ : bool) (rs1 : list value)
  : heap :=
  {| nodes := nodes h ++
       [ {| shape_of := Subquery arg1; _restrictions := None |};
         {| shape_of := Join arg1 (length (nodes h)) left_;
            _restrictions := Some (length (lists h)) |} ];
     lists := lists h ++ [rs1 ++ []] |}.

(** * The rest of the interface *)

Section Interface.
Context `{E : Externals}.

(** [self % attributes] *)
Definition __mod__ (n : nat) (self : loc) (attributes : list string) : M loc :=
  project n self attributes [].

(** The mapping [fetch] builds for the row [d]: the comprehension looks
    [self.heading] up again for its names. *)
Definition fetched_mapping (n : nat) (self : loc) (hd : Heading) (d : row)
  : M value :=
  hd' ← get_heading n self;
  items ← for_each
    (fun nm =>
       match heading_getitem hd nm with
       | None => raise (KeyError nm)
       | Some a =>
           match row_getitem d nm with
           | None => raise (KeyError nm)
           | Some v => mret (nm, if is_blob a then unpack v else v)
           end
       end)
    (names hd');
  mret (VDict (OrderedDict items)).

(** [RelationalOperand.fetch] with [as_dict=True]: the list of the mappings
    of all the rows.  (The other branch builds a [numpy] record array.) *)
Definition fetch_as_dict (n : nat) (self : loc) (offset : Z) (limit : option Z)
    (order_by : option (list string)) (descending : bool) : M value :=
  cur ← cursor n self offset limit order_by descending true;
  hd ← get_heading n self;
  ret_ ← for_each (fetched_mapping n self hd) cur;
  mret (VList ret_).

(** What a generator yields: an [OrderedDict] or a tuple. *)
Inductive yielded :=
| Mapping (items : list (string * value))
| Tuple (elems : list value).

(** A generator run to its end: the items it yielded, and the exception that
    ended it, if one did. *)
Definition generated : Type := list yielded * option exn.

(** A comprehension without effects whose body may raise. *)
Fixpoint collect {A B} (f : A -> outcome B) (l : list A) : outcome (list B) :=
  match l with
  | [] => Ret []
  | x :: l' =>
      outcome_bind (f x) (fun y =>
      outcome_bind (collect f l') (fun ys => Ret (y :: ys)))
  end.

(** [zip] *)
Fixpoint zip {A B} (l : list A) (k : list B) : list (A * B) :=
  match l, k with
  | x :: l', y :: k' => (x, y) :: zip l' k'
  | _, _ => []
  end.

(** The item [values] yields for the row [values_]. *)
Definition yield_of (names_ : list string) (do_unpack : list bool)
    (as_dict : bool) (values_ : row) : outcome yielded :=
  if as_dict
  then
    outcome_bind
      (collect
         (fun fu : string * bool =>
            match row_getitem values_ fu.1 with
            | None => Raise (KeyError fu.1)
            | Some v => Ret (fu.1, if fu.2 then unpack v else v)
            end)
         (zip names_ do_unpack))
      (fun items => Ret (Mapping (OrderedDict items)))
  else
    Ret (Tuple (map (fun uv : bool * value => if uv.1 then unpack uv.2 else uv.2)
                    (zip do_unpack (map snd values_)))).

(** The loop of [values]: it ends at the first row that is not true, [None]
    at the end of the cursor or an empty row. *)
Fixpoint values_loop (names_ : list string) (do_unpack : list bool)
    (as_dict : bool) (cur : list row) : generated :=
  match cur with
  | [] => ([], None)
  | values_ :: cur' =>
      if truthy (Some values_)
      then
        match yield_of names_ do_unpack as_dict values_ with
        | Raise e => ([], Some e)
        | Ret item =>
            let rest := values_loop names_ do_unpack as_dict cur' in
            (item :: rest.1, rest.2)
        end
      else ([], None)
  end.

(** [RelationalOperand.values], run to the end of the iteration. *)
Definition values (n : nat) (self : loc) (offset : Z) (limit : option Z)
    (order_by : option (list string)) (descending as_dict : bool) : M generated :=
  cur ← cursor n self offset limit order_by descending as_dict;
  hd ← get_heading n self;
  let do_unpack := map (fun h => existsb (String.eqb h) (blobs hd)) (names hd) in
  mret (values_loop (names hd) do_unpack as_dict cur).

(** [RelationalOperand.__iter__] *)
Definition __iter__ (n : nat) (self : loc) : M generated :=
  values n self 0 None None false true.

(** [RelationalOperand.keys] *)
Definition keys (n : nat) (self : loc) (offset : Z) (limit : option Z)
    (order_by : option (list string)) (descending as_dict : bool) : M generated :=
  p ← project n self [] [];
  values n p offset limit order_by descending as_dict.

(** [self & c1 & ... & ck] *)
Fixpoint and_all (n : nat) (self : loc) (cs : list value) : M loc :=
  match cs with
  | [] => mret self
  | c :: cs' => r ← __and__ n self c; and_all n r cs'
  end.

End Interface.

(** ** More examples *)

Module Toy2.

(** Two base relations on two connections. *)
Definition apart : state :=
  {| st_heap :=
       {| nodes := [ {| shape_of := Base 7 "`lab`.`a`" Toy.a_heading;
                        _restrictions := None |};
                     {| shape_of := Base 8 "`lab`.`b`" Toy.b_heading;
                        _restrictions := None |} ];
          lists := [] |};
     counter := 0;
     minted := [] |}.

(** [a] restricted by [{'id': 1}] (node 0), and [b] restricted by
    [{'session': 2}] (node 1), each with a list of its own. *)
Definition restricted : state :=
  {| st_heap :=
       {| nodes := [ {| shape_of := Base 7 "`lab`.`a`" Toy.a_heading;
                        _restrictions := Some 0 |};
                     {| shape_of := Base 7 "`lab`.`b`" Toy.b_heading;
                        _restrictions := Some 1 |} ];
          lists := [ [VDict [("id", VInt 1)]];
                     [VDict [("session", VInt 2)]] ] |};
     counter := 0;
     minted := [] |}.

End Toy2.

(** ** Vocabulary of the further properties *)

(** The store after [Join(arg1, arg2, left)] when no heading is computed. *)
Definition joined_heap (h : heap) (arg1 arg2 : loc) (left_ : bool)
    (rs : list value) : heap :=
  {| nodes := nodes h ++
       [ {| shape_of := Join arg1 arg2 left_;
            _restrictions := Some (length (lists h)) |} ];
     lists := lists h ++ [rs] |}.

(** The text of [Join.from_clause]. *)
Definition join_text (f1 f2 : string) (left_ : bool) : string :=
  f1 +:+ " NATURAL " +:+ (if left_ then "LEFT " else "") +:+ "JOIN " +:+ f2.

(** [d.get(k)] on the renamed-attribute mapping. *)
Definition assoc (k : string) (d : list (string * string)) : option string :=
  snd <$> find (fun kv : string * string => String.eqb kv.1 k) d.

(** The positional attributes that the alias pattern does not match. *)
Definition plain_attribute `{E : Externals} (attribute : string) : bool :=
  match alias_parser_match attribute with
  | None => true
  | Some _ => false
  end.

(** The restrictions a negation is compiled for by prefixing [not ]: the
    ones that are neither relations nor negations nor rejected values. *)
Definition negatable (r : value) : Prop :=
  match r with
  | VDict _ | VVoid _ | VList _ | VArray _ | VStr _ => True
  | _ => False
  end.

(** Values that [&] stores as one restriction and [where_clause] has no case
    for. *)
Definition unsupported (r : value) : Prop :=
  match r with
  | VInt _ | VNot VNone | VNot (VInt _) | VNot (VNot _) => True
  | _ => False
  end.

Definition not_a_string : exn :=
  AssertionError "condition must be converted into a string".

(** Retrieval reads the store: it leaves every object as it is, and the
    alias counter can only have grown. *)
Definition reads_only (s s' : state) : Prop :=
  st_heap s' = st_heap s /\ (counter s <= counter s')%N.

(** The mapping [fetch] and the iteration give for the row [d]. *)
Definition row_items `{E : Externals} (hd : Heading) (d : row)
  : list (string * value) :=
  OrderedDict (map (fetched_field hd d) (names hd)).

(** What [cursor] adds to the statement. *)
Definition order_text (order_by : option (list string)) (descending : bool)
  : string :=
  match order_by with
  | Some cols =>
      " ORDER BY " +:+ String.concat ", " cols
        +:+ (if descending then " DESC" else "")
  | None => ""
  end.

Definition limit_text (offset : Z) (limit : option Z) : string :=
  match limit with
  | Some lim =>
      " LIMIT " +:+ dec lim
        +:+ (if negb (Z.eqb offset 0) then " OFFSET " +:+ dec offset else "")
  | None => ""
  end.

(** [restricted_by h a b]: the restriction list of [a] holds the relation
    [b], or its negation. *)
Definition restricted_by (h : heap) (a b : loc) : Prop :=
  exists rs, restrictions_of h a = Some rs /\
             (In (VRel b) rs \/ In (VNot (VRel b)) rs).

(** A restriction that [_restrict] appends as it is. *)
Definition single (c : value) : Prop :=
  match c with
  | VNone | VList _ => False
  | _ => True
  end.

Module Toy3.

(** The store after [a &= a]. *)
Definition looped : state :=
  {| st_heap :=
       {| nodes := [ {| shape_of := Base 7 "`lab`.`a`" Toy.a_heading;
                        _restrictions := Some 0 |};
                     {| shape_of := Base 7 "`lab`.`b`" Toy.b_heading;
                        _restrictions := None |} ];
          lists := [[VRel 0]] |};
     counter := 0;
     minted := [] |}.

End Toy3.

(** ** The shape of the store *)

(** The operands a node refers to. *)
Definition children (sh : shape) : list loc :=
  match sh with
  | Base _ _ _ => []
  | Join a1 a2 _ => [a1; a2]
  | Projection a _ _ => [a]
  | Subquery a => [a]
  end.

(** The node [nd] at the place [i] of a store with [nl] restriction lists
    refers to operands older than itself, and to a list that is there. *)
Definition node_ok (nl i : nat) (nd : node) : bool :=
  forallb (fun c => Nat.ltb c i) (children (shape_of nd)) &&
  match _restrictions nd with
  | Some p => Nat.ltb p nl
  | None => true
  end.

Fixpoint nodes_ok (nl i : nat) (l : list node) : bool :=
  match l with
  | [] => true
  | nd :: l' => node_ok nl i nd && nodes_ok nl (S i) l'
  end.

(** [tree h]: every operand of the store [h] was built from operands that
    were there before it, so the operands form trees (with shared
    subtrees), and no node points to a restriction list that is missing. *)
Definition tree (h : heap) : bool :=
  nodes_ok (length (lists h)) 0 (nodes h).

(** Every operand of [s] is in [s'] what it was, with its class and its
    arguments, and no restriction list is missing. *)
Definition at_least (s s' : state) : Prop :=
  (forall i, alike (st_heap s) (st_heap s') i i) /\
  length (lists (st_heap s)) <= length (lists (st_heap s')).

(** [ends_in s m ok]: a run of [m] from [s] that finishes, with a result or
    with an exception, leaves a tree that has every operand of [s] as it
    was, and its result satisfies [ok]. *)
Definition ends_in {A} (s : state) (m : M A) (ok : A -> state -> Prop) : Prop :=
  forall o s', m s = Some (o, s') ->
    tree (st_heap s') = true /\ at_least s s' /\
    forall a, o = Ret a -> ok a s'.

(** The result is an operand of the store. *)
Definition operand (r : loc) (s : state) : Prop :=
  r < length (nodes (st_heap s)).

Definition builds (s : state) (m : M loc) : Prop := ends_in s m operand.

Definition grows {A} (s : state) (m : M A) : Prop :=
  ends_in s m (fun _ _ => True).

Module Toy4.

(** [a] restricted by [{'id': 1, 'value': 10}] (node 0). *)
Definition filtered : state :=
  {| st_heap :=
       {| nodes := [ {| shape_of := Base 7 "`lab`.`a`" Toy.a_heading;
                        _restrictions := Some 0 |} ];
          lists := [ [VDict [("id", VInt 1); ("value", VInt 10)]] ] |};
     counter := 0;
     minted := [] |}.

(** The heading of [a.project()]: the primary key. *)
Definition key_heading : Heading :=
  {| attributes := [ {| name := "id"; in_key := true; is_blob := false |} ];
     computed := false |}.

End Toy4.

(** The conditions [where_clause] writes for the mappings [ds] under the
    heading [hd]. *)
Definition mapping_conditions `{E : Externals} (hd : Heading)
    (ds : list (list (string * value))) : list string :=
  map (fun d => "(" +:+ conjunction hd d +:+ ")") ds.

(** * Properties *)

(** ** Running monadic code *)

Ltac unmonad := unfold mbind, M_bind, mret, M_ret in *.

Lemma bind_inv {A B} (m : M A) (f : A -> M B) s o s' :
  (m ≫= f) s = Some (o, s') ->
  (exists a s1, m s = Some (Ret a, s1) /\ f a s1 = Some (o, s')) \/
  (exists e, m s = Some (Raise e, s') /\ o = Raise e).
Proof.
  unmonad. unfold bind. intros Hrun.
  destruct (m s) as [[[a|e] s1]|]; [ | | discriminate ].
  - left. eauto.
  - right. inversion Hrun; subst. eauto.
Qed.

Lemma bind_ret_run {A B} (m : M A) (f : A -> M B) s a s1 :
  m s = Some (Ret a, s1) -> (m ≫= f) s = f a s1.
Proof. unmonad. unfold bind. intros ->. reflexivity. Qed.

Lemma bind_raise_run {A B} (m : M A) (f : A -> M B) s e s1 :
  m s = Some (Raise e, s1) -> (m ≫= f) s = Some (Raise e, s1).
Proof. unmonad. unfold bind. intros ->. reflexivity. Qed.

Lemma with_heap_same s : with_heap (st_heap s) s = s.
Proof. destruct s; reflexivity. Qed.

Lemma reading_run {A} (f : heap -> option (outcome A)) s o :
  f (st_heap s) = Some o -> reading f s = Some (o, s).
Proof. unfold reading. intros ->. reflexivity. Qed.

Lemma reading_inv {A} (f : heap -> option (outcome A)) s o s' :
  reading f s = Some (o, s') -> f (st_heap s) = Some o /\ s' = s.
Proof.
  unfold reading. destruct (f (st_heap s)); [ | discriminate ].
  intros [= <- <-]. auto.
Qed.

Section Keeps.
Context `{E : Externals}.
Variable R : state -> state -> Prop.
Hypothesis R_refl : forall s, R s s.
Hypothesis R_trans : forall s1 s2 s3, R s1 s2 -> R s2 s3 -> R s1 s3.
Hypothesis R_mint : forall s, R s (minted_state s).

Lemma keeps_ret {A} (a : A) : keeps R (mret a).
Proof. intros s o s' [= <- <-]. apply R_refl. Qed.

Lemma keeps_raise {A} e : keeps R (@raise A e).
Proof. intros s o s' [= <- <-]. apply R_refl. Qed.

Lemma keeps_stuck {A} : keeps R (@stuck A).
Proof. intros s o s' [=]. Qed.

Lemma keeps_reading {A} (f : heap -> option (outcome A)) : keeps R (reading f).
Proof. intros s o s' Hrun. apply reading_inv in Hrun as [_ ->]. apply R_refl. Qed.

Lemma keeps_lift_outcome {A} (o : outcome A) : keeps R (lift_outcome o).
Proof. intros s o' s' [= <- <-]. apply R_refl. Qed.

Lemma keeps_bind {A B} (m : M A) (f : A -> M B) :
  keeps R m -> (forall a, keeps R (f a)) -> keeps R (m ≫= f).
Proof.
  intros Hm Hf s o s' Hrun.
  apply bind_inv in Hrun as [(a & s1 & H1 & H2)|(e & H1 & _)].
  - eapply R_trans; [ eapply Hm | eapply Hf ]; eassumption.
  - eapply Hm; eassumption.
Qed.

Lemma keeps_for_each {A B} (f : A -> M B) (l : list A) :
  (forall x, keeps R (f x)) -> keeps R (for_each f l).
Proof.
  intros Hf. induction l as [|x l IH]; simpl.
  - apply keeps_ret.
  - apply keeps_bind; [ apply Hf | intros y ].
    apply keeps_bind; [ exact IH | intros ys; apply keeps_ret ].
Qed.

Lemma keeps_make_condition n self arg : keeps R (make_condition n self arg).
Proof.
  destruct arg; simpl; try apply keeps_raise.
  - apply keeps_bind; [ | intros; apply keeps_ret ].
    apply keeps_for_each. intros kv.
    apply keeps_bind; [ apply keeps_reading | intros; apply keeps_ret ].
  - apply keeps_ret.
Qed.

Lemma keeps_alternatives n self qs : keeps R (alternatives n self qs).
Proof.
  apply keeps_bind; [ | intros; apply keeps_ret ].
  apply keeps_for_each. intros q. apply keeps_make_condition.
Qed.

Lemma keeps_common_attributes n self r : keeps R (common_attributes n self r).
Proof.
  apply keeps_bind; [ apply keeps_reading | intros hs ].
  apply keeps_bind; [ | intros; apply keeps_ret ].
  apply keeps_for_each. intros q.
  apply keeps_bind; [ apply keeps_reading | intros; apply keeps_ret ].
Qed.

Lemma keeps_semijoin_condition cl n self negate r :
  (forall k l, keeps R (cl k l)) ->
  keeps R (semijoin_condition cl n self negate r).
Proof.
  intros Hcl.
  apply keeps_bind; [ apply keeps_common_attributes | intros common ].
  apply keeps_bind; [ apply Hcl | intros f ].
  apply keeps_bind; [ apply Hcl | intros w; apply keeps_ret ].
Qed.

Lemma keeps_condition_with cl n self r :
  (forall k l, keeps R (cl k l)) -> keeps R (condition_with cl n self r).
Proof.
  intros Hcl. unfold condition_with.
  assert (Hwrap : forall (m : M string) negate,
             keeps R m -> keeps R (c ← m; mret (parenthesized negate c))).
  { intros m negate Hm. apply keeps_bind; [ exact Hm | intros; apply keeps_ret ]. }
  destruct r as [ | | | | | | |r| ]; try (destruct r);
    auto using keeps_raise, keeps_ret, keeps_make_condition,
      keeps_alternatives, keeps_semijoin_condition.
Qed.

Lemma keeps_select_with cl n self spec :
  (forall k l, keeps R (cl k l)) -> keeps R (select_with cl n self spec).
Proof.
  intros Hcl. unfold select_with.
  apply keeps_bind.
  { destruct spec; [ apply keeps_ret | ].
    apply keeps_bind; [ apply keeps_reading | intros; apply keeps_ret ]. }
  intros spec'.
  apply keeps_bind; [ apply Hcl | intros f ].
  apply keeps_bind; [ apply Hcl | intros w; apply keeps_ret ].
Qed.

Lemma keeps_mint {A} (k : string -> A) :
  keeps R (c ← Subquery_counter;
           note_alias ("_s" +:+ hex c);; mret (k ("_s" +:+ hex c))).
Proof. intros s o s' [= <- <-]. apply R_mint. Qed.

Lemma keeps_clause n : forall k self, keeps R (clause n k self).
Proof.
  induction n as [|n IH]; intros k self; simpl.
  - apply keeps_stuck.
  - destruct k.
    + apply keeps_bind; [ apply keeps_reading | intros nd ].
      destruct (shape_of nd) as [c f hd|a1 a2 lf|a attrs ren|a].
      * apply keeps_ret.
      * apply keeps_bind; [ apply IH | intros f1 ].
        apply keeps_bind; [ apply IH | intros f2; apply keeps_ret ].
      * apply IH.
      * apply keeps_bind; [ apply keeps_select_with, IH | intros sel ].
        apply (keeps_mint (fun alias => "(" +:+ sel +:+ ") as `" +:+ alias +:+ "`")).
    + apply keeps_bind; [ apply keeps_reading | intros rs ].
      destruct rs as [|r rs]; [ apply keeps_ret | ].
      apply keeps_bind; [ | intros; apply keeps_ret ].
      apply keeps_for_each. intros x. apply keeps_condition_with, IH.
Qed.

Lemma keeps_make_select n self spec : keeps R (make_select n self spec).
Proof. apply keeps_select_with, keeps_clause. Qed.

End Keeps.

(** ** Compilation reads the store and only advances the counter *)

Lemma clause_same_heap `{E : Externals} n k self : keeps same_heap (clause n k self).
Proof.
  apply keeps_clause; unfold same_heap; try reflexivity.
  intros s1 s2 s3 H12 H23. congruence.
Qed.

(** ** Aliases *)



Lemma aliases_from_app c j k :
  aliases_from c (j + k) = aliases_from c j ++ aliases_from (c + N.of_nat j) k.
Proof.
  revert c. induction j as [|j IH]; intros c.
  - simpl. rewrite N.add_0_r. reflexivity.
  - simpl. rewrite IH. do 3 f_equal. lia.
Qed.



Lemma alias_order_refl s : alias_order s s.
Proof.
  unfold alias_order. rewrite N.sub_diag. simpl.
  rewrite app_nil_r. split; [ lia | reflexivity ].
Qed.

Lemma alias_order_trans s1 s2 s3 :
  alias_order s1 s2 -> alias_order s2 s3 -> alias_order s1 s3.
Proof.
  intros [Hle12 H12] [Hle23 H23]. split; [ lia | ].
  rewrite H23, H12, <- app_assoc. f_equal.
  replace (N.to_nat (counter s3 - counter s1))
    with (N.to_nat (counter s2 - counter s1) + N.to_nat (counter s3 - counter s2))
    by lia.
  rewrite aliases_from_app. do 2 f_equal. lia.
Qed.

Lemma alias_order_mint s : alias_order s (minted_state s).
Proof.
  unfold alias_order, minted_state. simpl. split; [ lia | ].
  replace (N.to_nat (counter s + 1 - counter s)) with 1 by lia.
  reflexivity.
Qed.

Lemma clause_alias_order `{E : Externals} n k self :
  keeps alias_order (clause n k self).
Proof.
  apply keeps_clause;
    eauto using alias_order_refl, alias_order_mint, alias_order_trans.
Qed.





(** ** Compilation in a store that has grown *)

Section Frame.
Context `{E : Externals}.
Variables h h' : heap.
Hypothesis Hle : heap_le h h'.

Lemma nodes_le a nd : nodes h !! a = Some nd -> nodes h' !! a = Some nd.
Proof. intros Hnd. eapply prefix_lookup_Some; [ exact Hnd | apply Hle ]. Qed.

Lemma lists_le p l : lists h !! p = Some l -> lists h' !! p = Some l.
Proof. intros Hl. eapply prefix_lookup_Some; [ exact Hl | apply Hle ]. Qed.

Lemma restrictions_of_le a rs :
  restrictions_of h a = Some rs -> restrictions_of h' a = Some rs.
Proof.
  unfold restrictions_of. intros Hrs.
  destruct (nodes h !! a) as [nd|] eqn:Hnd; [ | discriminate ].
  rewrite (nodes_le _ _ Hnd). simpl in *.
  destruct (_restrictions nd); [ apply lists_le, Hrs | exact Hrs ].
Qed.

Lemma alike_refl a : alike h h' a a.
Proof. intros nd Hnd. exists nd. split; [ apply nodes_le, Hnd | reflexivity ]. Qed.

Lemma twin_refl a : twin h h' a a.
Proof. split; [ apply alike_refl | intros rs; apply restrictions_of_le ]. Qed.

Lemma connection_alike n : forall a b c,
  alike h h' a b -> connection n h a = Some c -> connection n h' b = Some c.
Proof.
  induction n as [|n IH]; intros a b c Halike; simpl; [ discriminate | ].
  destruct (nodes h !! a) as [nd|] eqn:Hnd; [ | discriminate ].
  destruct (Halike nd Hnd) as (nd' & Hnd' & Hshape).
  rewrite Hnd'. simpl. rewrite Hshape.
  destruct (shape_of nd); eauto using alike_refl.
Qed.

Lemma heading_alike n : forall a b o,
  alike h h' a b -> heading n h a = Some o -> heading n h' b = Some o.
Proof.
  induction n as [|n IH]; intros a b o Halike; simpl; [ discriminate | ].
  destruct (nodes h !! a) as [nd|] eqn:Hnd; [ | discriminate ].
  destruct (Halike nd Hnd) as (nd' & Hnd' & Hshape).
  rewrite Hnd'. simpl. rewrite Hshape.
  destruct (shape_of nd) as [c f hd|a1 a2 lf|a0 attrs ren|a0]; simpl.
  - auto.
  - destruct (heading n h a1) as [o1|] eqn:H1; [ | discriminate ].
    rewrite (IH _ _ _ (alike_refl a1) H1). simpl.
    destruct o1 as [h1|e]; [ | auto ].
    destruct (heading n h a2) as [o2|] eqn:H2; [ | discriminate ].
    rewrite (IH _ _ _ (alike_refl a2) H2). auto.
  - destruct (heading n h a0) as [o0|] eqn:H0; [ | discriminate ].
    rewrite (IH _ _ _ (alike_refl a0) H0). auto.
  - destruct (heading n h a0) as [o0|] eqn:H0; [ | discriminate ].
    rewrite (IH _ _ _ (alike_refl a0) H0). auto.
Qed.

Lemma restrictions_twin a b rs :
  twin h h' a b -> restrictions_of h a = Some rs -> restrictions_of h' b = Some rs.
Proof.
  intros [_ Hsame]. apply Hsame.
Qed.

Lemma sim_ret {A} (a : A) : sim h h' (mret a) (mret a).
Proof. intros s o s1 Hs [= <- <-]. auto. Qed.

Lemma sim_raise {A} e : sim h h' (@raise A e) (raise e).
Proof. intros s o s1 Hs [= <- <-]. auto. Qed.

Lemma sim_stuck {A} (m' : M A) : sim h h' stuck m'.
Proof. intros s o s1 Hs [=]. Qed.

Lemma sim_reading {A} (f f' : heap -> option (outcome A)) :
  (forall o, f h = Some o -> f' h' = Some o) ->
  sim h h' (reading f) (reading f').
Proof.
  intros Hf s o s1 Hs Hrun. apply reading_inv in Hrun as [Hfs ->].
  split; [ exact Hs | ]. apply reading_run. simpl. apply Hf. congruence.
Qed.

Lemma sim_bind {A B} (m m' : M A) (f f' : A -> M B) :
  sim h h' m m' -> (forall a, sim h h' (f a) (f' a)) ->
  sim h h' (m ≫= f) (m' ≫= f').
Proof.
  intros Hm Hf s o s' Hs Hrun.
  apply bind_inv in Hrun as [(a & s1 & H1 & H2)|(e & H1 & ->)].
  - destruct (Hm _ _ _ Hs H1) as [Hs1 H1'].
    rewrite (bind_ret_run _ _ _ _ _ H1'). apply (Hf a); assumption.
  - destruct (Hm _ _ _ Hs H1) as [Hs1 H1'].
    rewrite (bind_raise_run _ _ _ _ _ H1'). auto.
Qed.

Lemma sim_for_each {A B} (f f' : A -> M B) (l : list A) :
  (forall x, sim h h' (f x) (f' x)) ->
  sim h h' (for_each f l) (for_each f' l).
Proof.
  intros Hf. induction l as [|x l IH]; simpl.
  - apply sim_ret.
  - apply sim_bind; [ apply Hf | intros y ].
    apply sim_bind; [ exact IH | intros ys; apply sim_ret ].
Qed.

Lemma sim_get_heading n a b :
  alike h h' a b -> sim h h' (get_heading n a) (get_heading n b).
Proof. intros Htwin. apply sim_reading. intros o. apply heading_alike, Htwin. Qed.

Lemma sim_get_connection n a b :
  alike h h' a b -> sim h h' (get_connection n a) (get_connection n b).
Proof.
  intros Htwin. apply sim_reading. intros o Hc.
  destruct (connection n h a) as [c|] eqn:Hca; [ | discriminate ].
  rewrite (connection_alike _ _ _ _ Htwin Hca). exact Hc.
Qed.

Lemma sim_get_restrictions a b :
  twin h h' a b -> sim h h' (get_restrictions a) (get_restrictions b).
Proof.
  intros Htwin. apply sim_reading. intros o Hr.
  destruct (restrictions_of h a) as [rs|] eqn:Hrs; [ | discriminate ].
  rewrite (restrictions_twin _ _ _ Htwin Hrs). exact Hr.
Qed.

Lemma sim_read_node a : sim h h' (read_node a) (read_node a).
Proof.
  apply sim_reading. intros o Hr.
  destruct (nodes h !! a) as [nd|] eqn:Hnd; [ | discriminate ].
  rewrite (nodes_le _ _ Hnd). exact Hr.
Qed.

Lemma sim_make_condition n a b arg :
  alike h h' a b -> sim h h' (make_condition n a arg) (make_condition n b arg).
Proof.
  intros Htwin. destruct arg; simpl; try apply sim_raise.
  - apply sim_bind; [ | intros; apply sim_ret ].
    apply sim_for_each. intros kv.
    apply sim_bind; [ apply sim_get_heading, Htwin | intros; apply sim_ret ].
  - apply sim_ret.
Qed.

Lemma sim_alternatives n a b qs :
  alike h h' a b -> sim h h' (alternatives n a qs) (alternatives n b qs).
Proof.
  intros Htwin. apply sim_bind; [ | intros; apply sim_ret ].
  apply sim_for_each. intros q. apply sim_make_condition, Htwin.
Qed.

Lemma sim_common_attributes n a b r :
  alike h h' a b ->
  sim h h' (common_attributes n a r) (common_attributes n b r).
Proof.
  intros Htwin.
  apply sim_bind; [ apply sim_get_heading, Htwin | intros hs ].
  apply sim_bind; [ | intros; apply sim_ret ].
  apply sim_for_each. intros q.
  apply sim_bind; [ apply sim_get_heading, alike_refl | intros; apply sim_ret ].
Qed.

Lemma sim_semijoin_condition cl cl' n a b negate r :
  (forall k l, sim h h' (cl k l) (cl' k l)) -> alike h h' a b ->
  sim h h' (semijoin_condition cl n a negate r)
           (semijoin_condition cl' n b negate r).
Proof.
  intros Hcl Htwin.
  apply sim_bind; [ apply sim_common_attributes, Htwin | intros common ].
  apply sim_bind; [ apply Hcl | intros f ].
  apply sim_bind; [ apply Hcl | intros w; apply sim_ret ].
Qed.

Lemma sim_condition_with cl cl' n a b r :
  (forall k l, sim h h' (cl k l) (cl' k l)) -> alike h h' a b ->
  sim h h' (condition_with cl n a r) (condition_with cl' n b r).
Proof.
  intros Hcl Htwin. unfold condition_with.
  assert (Hwrap : forall (m m' : M string) negate,
             sim h h' m m' ->
             sim h h' (c ← m; mret (parenthesized negate c))
                      (c ← m'; mret (parenthesized negate c))).
  { intros m m' negate Hm. apply sim_bind; [ exact Hm | intros; apply sim_ret ]. }
  destruct r as [ | | | | | | |r| ]; try (destruct r);
    auto using sim_raise, sim_ret, sim_make_condition,
      sim_alternatives, sim_semijoin_condition.
Qed.

Lemma sim_select_with cl cl' n a b spec :
  (forall k, sim h h' (cl k a) (cl' k b)) -> alike h h' a b ->
  sim h h' (select_with cl n a spec) (select_with cl' n b spec).
Proof.
  intros Hcl Htwin. unfold select_with.
  apply sim_bind.
  { destruct spec; [ apply sim_ret | ].
    apply sim_bind; [ apply sim_get_heading, Htwin | intros; apply sim_ret ]. }
  intros spec'.
  apply sim_bind; [ apply Hcl | intros f ].
  apply sim_bind; [ apply Hcl | intros w; apply sim_ret ].
Qed.

Lemma sim_mint {A} (k : string -> A) :
  sim h h'
    (c ← Subquery_counter; note_alias ("_s" +:+ hex c);; mret (k ("_s" +:+ hex c)))
    (c ← Subquery_counter; note_alias ("_s" +:+ hex c);; mret (k ("_s" +:+ hex c))).
Proof. intros s o s1 Hs [= <- <-]. split; [ exact Hs | reflexivity ]. Qed.

Lemma sim_bind_node {B} a b (f f' : node -> M B) :
  alike h h' a b ->
  (forall nd nd', shape_of nd' = shape_of nd -> sim h h' (f nd) (f' nd')) ->
  sim h h' (read_node a ≫= f) (read_node b ≫= f').
Proof.
  intros Htwin Hf s o s1 Hs Hrun.
  destruct (nodes h !! a) as [nd|] eqn:Hnd.
  - destruct (Htwin nd Hnd) as (nd' & Hnd' & Hshape).
    rewrite (bind_ret_run _ _ s nd s) in Hrun
      by (apply reading_run; rewrite Hs, Hnd; reflexivity).
    rewrite (bind_ret_run _ _ (with_heap h' s) nd' (with_heap h' s))
      by (apply reading_run; simpl; rewrite Hnd'; reflexivity).
    eapply Hf; eassumption.
  - unfold read_node in Hrun.
    apply bind_inv in Hrun as [(x & s2 & Hr & _)|(e & Hr & _)];
      apply reading_inv in Hr as [Hr _]; rewrite Hs, Hnd in Hr; discriminate.
Qed.

Lemma sim_clause n : forall k a b,
  twin h h' a b -> sim h h' (clause n k a) (clause n k b).
Proof.
  induction n as [|n IH]; intros k a b Htwin; simpl.
  - apply sim_stuck.
  - destruct k.
    + apply sim_bind_node; [ apply Htwin | intros nd nd' Hshape ].
      rewrite Hshape.
      destruct (shape_of nd) as [c f hd|a1 a2 lf|a0 attrs ren|a0].
      * apply sim_ret.
      * apply sim_bind; [ apply IH, twin_refl | intros f1 ].
        apply sim_bind; [ apply IH, twin_refl | intros f2; apply sim_ret ].
      * apply IH, twin_refl.
      * apply sim_bind.
        { apply sim_select_with; [ intros k; apply IH, twin_refl | apply alike_refl ]. }
        intros sel.
        apply (sim_mint (fun alias => "(" +:+ sel +:+ ") as `" +:+ alias +:+ "`")).
    + apply sim_bind; [ apply sim_get_restrictions, Htwin | intros rs ].
      destruct rs as [|r rs]; [ apply sim_ret | ].
      apply sim_bind; [ | intros; apply sim_ret ].
      apply sim_for_each. intros x.
      apply sim_condition_with; [ | apply Htwin ].
      intros k l. apply IH, twin_refl.
Qed.

Lemma sim_make_select n a b spec :
  twin h h' a b -> sim h h' (make_select n a spec) (make_select n b spec).
Proof.
  intros Htwin. apply sim_select_with; [ | apply Htwin ].
  intros k. apply sim_clause, Htwin.
Qed.

Lemma sim_lift_outcome {A} (o : outcome A) :
  sim h h' (lift_outcome o) (lift_outcome o).
Proof. intros s o' s1 Hs [= <- <-]. auto. Qed.

Lemma sim_len n a b :
  twin h h' a b -> sim h h' (__len__ n a) (__len__ n b).
Proof.
  intros Htwin. unfold __len__.
  apply sim_bind; [ apply sim_get_connection, Htwin | intros c ].
  apply sim_bind; [ apply sim_make_select, Htwin | intros sql ].
  apply sim_bind; [ apply sim_lift_outcome | intros cur ].
  destruct cur as [|[|[k v] first] cur]; auto using sim_raise, sim_ret.
Qed.

End Frame.

(** ** Runs of the primitive operations *)

Lemma lookup_snoc_last {A} (l : list A) x : (l ++ [x]) !! length l = Some x.
Proof. apply list_lookup_middle. reflexivity. Qed.

Lemma insert_snoc_last {A} (l : list A) x y :
  <[length l := y]> (l ++ [x]) = l ++ [y].
Proof. induction l as [|z l IH]; simpl; [ reflexivity | f_equal; exact IH ]. Qed.

Lemma read_node_run self s nd :
  nodes (st_heap s) !! self = Some nd -> read_node self s = Some (Ret nd, s).
Proof. intros Hnd. apply reading_run. rewrite Hnd. reflexivity. Qed.

Lemma read_list_run p s l :
  lists (st_heap s) !! p = Some l -> read_list p s = Some (Ret l, s).
Proof. intros Hl. apply reading_run. rewrite Hl. reflexivity. Qed.

Lemma write_node_run self nd s old :
  nodes (st_heap s) !! self = Some old ->
  write_node self nd s =
    Some (Ret tt, with_heap {| nodes := <[self := nd]> (nodes (st_heap s));
                               lists := lists (st_heap s) |} s).
Proof. unfold write_node. intros ->. reflexivity. Qed.

Lemma write_list_run p l s old :
  lists (st_heap s) !! p = Some old ->
  write_list p l s =
    Some (Ret tt, with_heap {| nodes := nodes (st_heap s);
                               lists := <[p := l]> (lists (st_heap s)) |} s).
Proof. unfold write_list. intros ->. reflexivity. Qed.

Section Runs.
Context `{E : Externals}.

Lemma get_restrictions_run self s rs :
  restrictions_of (st_heap s) self = Some rs ->
  get_restrictions self s = Some (Ret rs, s).
Proof. intros Hrs. apply reading_run. rewrite Hrs. reflexivity. Qed.

Lemma get_heading_run n self s o :
  heading n (st_heap s) self = Some o -> get_heading n self s = Some (o, s).
Proof. exact (reading_run (fun h => heading n h self) s o). Qed.

Lemma get_connection_run n self s c :
  connection n (st_heap s) self = Some c ->
  get_connection n self s = Some (Ret c, s).
Proof. intros Hc. apply reading_run. rewrite Hc. reflexivity. Qed.

(** [self._restrict(None)] of the inherited method changes nothing. *)
Lemma RelationalOperand_restrict_None self s :
  RelationalOperand_restrict self VNone s = Some (Ret self, s).
Proof. reflexivity. Qed.

(** The inherited [_restrict] on a node that has a list object: the object is
    updated in place. *)
Lemma RelationalOperand_restrict_shared self restriction s nd p old :
  restriction <> VNone ->
  nodes (st_heap s) !! self = Some nd ->
  _restrictions nd = Some p ->
  lists (st_heap s) !! p = Some old ->
  RelationalOperand_restrict self restriction s =
    Some (Ret self,
          with_heap {| nodes := nodes (st_heap s);
                       lists := <[p := restrict_list old restriction]>
                                  (lists (st_heap s)) |} s).
Proof.
  intros Hnone Hnd Hp Hold.
  assert (Hstep :
    (nd0 ← read_node self;
     p0 ← match _restrictions nd0 with
          | Some p0 => mret p0
          | None =>
              p0 ← alloc_list [];
              write_node self {| shape_of := shape_of nd0;
                                 _restrictions := Some p0 |};;
              mret p0
          end;
     old0 ← read_list p0;
     write_list p0 (restrict_list old0 restriction);;
     mret self) s =
    Some (Ret self,
          with_heap {| nodes := nodes (st_heap s);
                       lists := <[p := restrict_list old restriction]>
                                  (lists (st_heap s)) |} s)).
  { rewrite (bind_ret_run _ _ _ _ _ (read_node_run _ _ _ Hnd)).
    rewrite Hp.
    rewrite (bind_ret_run _ _ s p s) by reflexivity.
    rewrite (bind_ret_run _ _ _ _ _ (read_list_run _ _ _ Hold)).
    rewrite (bind_ret_run _ _ _ _ _ (write_list_run _ _ _ _ Hold)).
    reflexivity. }
  destruct restriction; try congruence; exact Hstep.
Qed.

(** The inherited [_restrict] on a node without a list object: a list is
    created and attached to the node. *)
Lemma RelationalOperand_restrict_fresh self restriction s nd :
  restriction <> VNone ->
  nodes (st_heap s) !! self = Some nd ->
  _restrictions nd = None ->
  RelationalOperand_restrict self restriction s =
    Some (Ret self,
          with_heap
            {| nodes := <[self := {| shape_of := shape_of nd;
                                     _restrictions :=
                                       Some (length (lists (st_heap s))) |}]>
                          (nodes (st_heap s));
               lists := lists (st_heap s) ++ [restrict_list [] restriction] |} s).
Proof.
  intros Hnone Hnd Hp.
  assert (Hstep :
    (nd0 ← read_node self;
     p0 ← match _restrictions nd0 with
          | Some p0 => mret p0
          | None =>
              p0 ← alloc_list [];
              write_node self {| shape_of := shape_of nd0;
                                 _restrictions := Some p0 |};;
              mret p0
          end;
     old0 ← read_list p0;
     write_list p0 (restrict_list old0 restriction);;
     mret self) s =
    Some (Ret self,
          with_heap
            {| nodes := <[self := {| shape_of := shape_of nd;
                                     _restrictions :=
                                       Some (length (lists (st_heap s))) |}]>
                          (nodes (st_heap s));
               lists := lists (st_heap s) ++ [restrict_list [] restriction] |} s)).
  { rewrite (bind_ret_run _ _ _ _ _ (read_node_run _ _ _ Hnd)).
    rewrite Hp.
    unmonad. unfold bind, alloc_list, ret. simpl.
    unfold write_node. simpl. rewrite Hnd. simpl.
    unfold read_list, reading. simpl. rewrite lookup_snoc_last. simpl.
    unfold write_list. simpl. rewrite lookup_snoc_last.
    rewrite insert_snoc_last. reflexivity. }
  destruct restriction; try congruence; exact Hstep.
Qed.

End Runs.

(** ** Copies *)

Section Copies.
Context `{E : Externals}.

Lemma heap_le_and_heap h nd rs : heap_le h (and_heap h nd rs).
Proof. split; simpl; apply prefix_app_r; reflexivity. Qed.

Lemma restrictions_of_and_heap h nd rs :
  restrictions_of (and_heap h nd rs) (length (nodes h)) = Some rs.
Proof.
  unfold restrictions_of, and_heap. simpl.
  rewrite lookup_snoc_last. simpl. apply lookup_snoc_last.
Qed.

Lemma alike_and_heap h self nd rs :
  nodes h !! self = Some nd ->
  alike h (and_heap h nd rs) self (length (nodes h)).
Proof.
  intros Hnd nd0 Hnd0. rewrite Hnd in Hnd0. injection Hnd0 as <-.
  eexists. split; [ apply lookup_snoc_last | reflexivity ].
Qed.

Lemma twin_and_heap h self nd rs :
  nodes h !! self = Some nd ->
  restrictions_of h self = Some rs ->
  twin h (and_heap h nd rs) self (length (nodes h)).
Proof.
  intros Hnd Hrs. split; [ apply alike_and_heap, Hnd | ].
  intros rs0 Hrs0. rewrite Hrs in Hrs0. injection Hrs0 as <-.
  apply restrictions_of_and_heap.
Qed.

Lemma plain_operand_alike n h h' a b :
  heap_le h h' -> alike h h' a b ->
  plain_operand n h a -> plain_operand n h' b.
Proof.
  intros Hle Htwin (nd & Hnd & Hplain).
  destruct (Htwin nd Hnd) as (nd' & Hnd' & Hshape).
  exists nd'. split; [ exact Hnd' | ]. rewrite Hshape.
  destruct (shape_of nd); auto.
  destruct Hplain as (hd & Hhd & Hc). exists hd.
  split; [ | exact Hc ]. eapply heading_alike; eassumption.
Qed.

Lemma computed_projection_alike n h h' a b :
  heap_le h h' -> alike h h' a b ->
  computed_projection n h a -> computed_projection n h' b.
Proof.
  intros Hle Htwin (nd & arg & attrs & ren & hd & Hnd & Hshape & Hhd & Hc).
  destruct (Htwin nd Hnd) as (nd' & Hnd' & Hshape').
  exists nd', arg, attrs, ren, hd.
  repeat split; [ exact Hnd' | congruence | | exact Hc ].
  eapply heading_alike; eassumption.
Qed.

(** [self & restriction] up to the call of [__iand__] on the copy. *)
Lemma and_with_run iand self restriction s nd rs :
  nodes (st_heap s) !! self = Some nd ->
  restrictions_of (st_heap s) self = Some rs ->
  and_with iand self restriction s =
    iand (length (nodes (st_heap s))) restriction
         (with_heap (and_heap (st_heap s) nd rs) s).
Proof.
  intros Hnd Hrs. unfold and_with, copy.
  unmonad. unfold bind at 1 2.
  rewrite (read_node_run _ _ _ Hnd). unfold alloc_node at 1. simpl.
  unfold bind at 1.
  assert (Hcopy : restrictions_of
            {| nodes := nodes (st_heap s) ++ [nd]; lists := lists (st_heap s) |}
            (length (nodes (st_heap s))) = Some rs).
  { unfold restrictions_of in *. simpl. rewrite lookup_snoc_last.
    rewrite Hnd in Hrs. exact Hrs. }
  rewrite (get_restrictions_run _ _ rs) by exact Hcopy.
  unfold bind at 1, alloc_list at 1. simpl.
  unfold bind at 1.
  rewrite (read_node_run _ _ nd) by (simpl; apply lookup_snoc_last).
  unfold bind at 1, write_node at 1. simpl.
  rewrite lookup_snoc_last, insert_snoc_last. reflexivity.
Qed.

Lemma restrict_plain n self restriction s :
  plain_operand n (st_heap s) self ->
  _restrict (S n) self restriction s =
    RelationalOperand_restrict self restriction s.
Proof.
  intros (nd & Hnd & Hplain). simpl.
  rewrite (bind_ret_run _ _ _ _ _ (read_node_run _ _ _ Hnd)).
  destruct (shape_of nd); try reflexivity.
  destruct Hplain as (hd & Hhd & Hc).
  rewrite (bind_ret_run _ _ _ _ _ (get_heading_run _ _ _ _ Hhd)).
  rewrite Hc. reflexivity.
Qed.

Lemma restrict_computed n self restriction s :
  computed_projection n (st_heap s) self ->
  _restrict (S n) self restriction s =
    (sub ← Subquery__init__ self; and_with (_restrict n) sub restriction) s.
Proof.
  intros (nd & arg & attrs & ren & hd & Hnd & Hshape & Hhd & Hc). simpl.
  rewrite (bind_ret_run _ _ _ _ _ (read_node_run _ _ _ Hnd)).
  rewrite Hshape.
  rewrite (bind_ret_run _ _ _ _ _ (get_heading_run _ _ _ _ Hhd)).
  rewrite Hc. reflexivity.
Qed.

Lemma value_None_or (v : value) : v = VNone \/ v <> VNone.
Proof. destruct v; auto; right; discriminate. Qed.

(** The inherited [_restrict] on the copy that [__and__] has just made. *)
Lemma RelationalOperand_restrict_copy h nd rs restriction s :
  st_heap s = and_heap h nd rs ->
  RelationalOperand_restrict (length (nodes h)) restriction s =
    Some (Ret (length (nodes h)),
          with_heap (and_heap h nd (restrict_list rs restriction)) s).
Proof.
  intros Hs. destruct (value_None_or restriction) as [->|Hnone].
  - simpl. rewrite <- Hs, with_heap_same. reflexivity.
  - erewrite RelationalOperand_restrict_shared; [ | exact Hnone | | | ].
    + rewrite Hs. unfold and_heap. simpl. rewrite insert_snoc_last. reflexivity.
    + rewrite Hs. apply lookup_snoc_last.
    + reflexivity.
    + rewrite Hs. apply lookup_snoc_last.
Qed.

(** [self & restriction] for a node with the inherited [_restrict]. *)
Lemma and_plain_run n self restriction s nd rs :
  nodes (st_heap s) !! self = Some nd ->
  restrictions_of (st_heap s) self = Some rs ->
  plain_operand n (st_heap s) self ->
  __and__ (S n) self restriction s =
    Some (Ret (length (nodes (st_heap s))),
          with_heap (and_heap (st_heap s) nd (restrict_list rs restriction)) s).
Proof.
  intros Hnd Hrs Hplain. unfold __and__.
  rewrite (and_with_run _ _ _ _ _ _ Hnd Hrs). unfold __iand__.
  rewrite restrict_plain.
  - rewrite (RelationalOperand_restrict_copy (st_heap s) nd rs) by reflexivity.
    reflexivity.
  - simpl. eapply plain_operand_alike; [ | | exact Hplain ].
    + apply heap_le_and_heap.
    + apply alike_and_heap; assumption.
Qed.

(** [self &= restriction] for a node with the inherited [_restrict]. *)
Lemma iand_plain_run n self restriction s nd rs :
  nodes (st_heap s) !! self = Some nd ->
  restrictions_of (st_heap s) self = Some rs ->
  plain_operand n (st_heap s) self ->
  exists s',
    __iand__ (S n) self restriction s = Some (Ret self, s') /\
    restrictions_of (st_heap s') self = Some (restrict_list rs restriction) /\
    length (nodes (st_heap s')) = length (nodes (st_heap s)) /\
    (restriction = VNone -> s' = s) /\
    (forall p, _restrictions nd = Some p ->
       exists nd', nodes (st_heap s') !! self = Some nd' /\
                   _restrictions nd' = Some p /\
                   lists (st_heap s') !! p = Some (restrict_list rs restriction)).
Proof.
  intros Hnd Hrs Hplain. unfold __iand__. rewrite restrict_plain by exact Hplain.
  destruct (value_None_or restriction) as [->|Hnone].
  { exists s. simpl. repeat split; auto.
    intros p Hp. exists nd. repeat split; auto.
    unfold restrictions_of in Hrs. rewrite Hnd in Hrs. simpl in Hrs.
    rewrite Hp in Hrs. exact Hrs. }
  destruct (_restrictions nd) as [p|] eqn:Hp.
  - assert (Hold : lists (st_heap s) !! p = Some rs).
    { unfold restrictions_of in Hrs. rewrite Hnd in Hrs. simpl in Hrs.
      rewrite Hp in Hrs. exact Hrs. }
    eexists. split; [ eapply RelationalOperand_restrict_shared; eassumption | ].
    assert (Hnew : <[p := restrict_list rs restriction]> (lists (st_heap s)) !! p
                   = Some (restrict_list rs restriction)).
    { apply list_lookup_insert_eq. eapply lookup_lt_Some, Hold. }
    simpl. repeat split.
    + unfold restrictions_of. simpl. rewrite Hnd. simpl. rewrite Hp. exact Hnew.
    + intros ->. congruence.
    + intros p0 [= <-]. exists nd. auto.
  - assert (rs = []) as ->.
    { unfold restrictions_of in Hrs. rewrite Hnd in Hrs. simpl in Hrs.
      rewrite Hp in Hrs. congruence. }
    eexists. split; [ eapply RelationalOperand_restrict_fresh; eassumption | ].
    simpl. repeat split.
    + unfold restrictions_of. simpl.
      rewrite list_lookup_insert_eq by (eapply lookup_lt_Some, Hnd). simpl.
      apply lookup_snoc_last.
    + apply length_insert.
    + intros ->. congruence.
    + intros p0 [=].
Qed.

End Copies.

(** ** Restricting a projection with a computed heading *)

Section Wrapping.
Context `{E : Externals}.

Lemma heap_le_trans h1 h2 h3 : heap_le h1 h2 -> heap_le h2 h3 -> heap_le h1 h3.
Proof. intros [Hn12 Hl12] [Hn23 Hl23]. split; etrans; eassumption. Qed.

Lemma heap_le_wrap_heap h self : heap_le h (wrap_heap h self).
Proof. split; simpl; [ apply prefix_app_r | ]; reflexivity. Qed.

Lemma heap_le_wrapped_heap h self rs : heap_le h (wrapped_heap h self rs).
Proof.
  eapply heap_le_trans; [ apply heap_le_wrap_heap | apply heap_le_and_heap ].
Qed.

Lemma length_wrap_heap h self : length (nodes (wrap_heap h self)) = S (length (nodes h)).
Proof. simpl. rewrite length_app. simpl. lia. Qed.

Lemma wrapped_heap_node h self rs :
  nodes (wrapped_heap h self rs) !! S (length (nodes h)) =
    Some {| shape_of := Subquery self; _restrictions := Some (length (lists h)) |}.
Proof.
  rewrite <- (length_wrap_heap h self). unfold wrapped_heap, and_heap.
  simpl nodes. apply lookup_snoc_last.
Qed.

Lemma wrapped_heap_restrictions h self rs :
  restrictions_of (wrapped_heap h self rs) (S (length (nodes h))) = Some rs.
Proof.
  rewrite <- (length_wrap_heap h self). apply restrictions_of_and_heap.
Qed.

(** [self &= restriction] on a projection with a computed heading: the
    answer is the copy of a new [Subquery] around [self]. *)
Lemma iand_computed_run n self restriction s :
  computed_projection n (st_heap s) self ->
  __iand__ (S n) self restriction s =
    Some (Ret (S (length (nodes (st_heap s)))),
          with_heap (wrapped_heap (st_heap s) self (restrict_list [] restriction)) s).
Proof.
  intros Hcomp. unfold __iand__. rewrite restrict_computed by exact Hcomp.
  destruct Hcomp as (nd & arg & attrs & ren & hd & Hnd & Hshape & Hhd & Hc).
  destruct n as [|n]; [ discriminate | ].
  set (sub := {| shape_of := Subquery self; _restrictions := None |}).
  rewrite (bind_ret_run _ _ s (length (nodes (st_heap s)))
             (with_heap (wrap_heap (st_heap s) self) s)) by reflexivity.
  rewrite (and_with_run _ _ _ _ sub [])
    by (simpl; first [ apply lookup_snoc_last
                     | unfold restrictions_of; simpl;
                       rewrite lookup_snoc_last; reflexivity ]).
  rewrite restrict_plain.
  - simpl st_heap.
    change (length (nodes (st_heap s) ++ [sub]))
      with (length (nodes (wrap_heap (st_heap s) self))).
    rewrite (RelationalOperand_restrict_copy (wrap_heap (st_heap s) self) sub [])
      by reflexivity.
    rewrite length_wrap_heap. reflexivity.
  - exists {| shape_of := Subquery self;
              _restrictions := Some (length (lists (st_heap s))) |}.
    split; [ | exact I ]. simpl. apply lookup_snoc_last.
Qed.

End Wrapping.

(** C4 (as amended): restricting a [Projection] whose own heading is
    computed, in place or through a copy, first wraps the projection (its
    copy, for [&]) in a new [Subquery], whatever the restriction is; the
    restriction goes to the restriction list of the [Subquery], which starts
    empty, and the list of the projection keeps its contents.  When the
    heading is not computed, the restriction goes directly to the list of
    the projection (of its copy, for [&]).  In both cases the list receives
    what the inherited [_restrict] adds, [restrict_list]: the restriction
    itself as one more element when it is neither [None] nor a list, the
    elements of a list one by one, and nothing for [None]; a computed
    projection restricted with [None] is wrapped all the same, in a
    [Subquery] with an empty list. *)
Theorem Projection_restrict_wraps `{E : Externals}
    (n : nat) (s : state) (self : loc) (nd : node) (arg : loc)
    (attrs : list string) (renamed : list (string * string))
    (rs : list value) (hd : Heading) (restriction : value) :
  nodes (st_heap s) !! self = Some nd ->
  shape_of nd = Projection arg attrs renamed ->
  restrictions_of (st_heap s) self = Some rs ->
  heading n (st_heap s) self = Some (Ret hd) ->
  let h := st_heap s in
  if computed hd then
    (exists s' sub,
        __iand__ (S n) self restriction s = Some (Ret sub, s') /\
        nodes h !! sub = None /\
        shape_of <$> nodes (st_heap s') !! sub = Some (Subquery self) /\
        restrictions_of (st_heap s') sub = Some (restrict_list [] restriction) /\
        restrictions_of (st_heap s') self = Some rs /\
        heap_le h (st_heap s')) /\
    (exists s' sub twin_,
        __and__ (S n) self restriction s = Some (Ret sub, s') /\
        nodes h !! sub = None /\ nodes h !! twin_ = None /\
        shape_of <$> nodes (st_heap s') !! sub = Some (Subquery twin_) /\
        shape_of <$> nodes (st_heap s') !! twin_ = Some (Projection arg attrs renamed) /\
        restrictions_of (st_heap s') twin_ = Some rs /\
        restrictions_of (st_heap s') sub = Some (restrict_list [] restriction) /\
        restrictions_of (st_heap s') self = Some rs /\
        heap_le h (st_heap s'))
  else
    (exists s',
        __iand__ (S n) self restriction s = Some (Ret self, s') /\
        restrictions_of (st_heap s') self = Some (restrict_list rs restriction)) /\
    (exists s' twin_,
        __and__ (S n) self restriction s = Some (Ret twin_, s') /\
        nodes h !! twin_ = None /\
        shape_of <$> nodes (st_heap s') !! twin_ = Some (Projection arg attrs renamed) /\
        restrictions_of (st_heap s') twin_ = Some (restrict_list rs restriction) /\
        restrictions_of (st_heap s') self = Some rs).
Proof.
  intros Hnd Hshape Hrs Hhd h. subst h. set (h := st_heap s) in *.
  destruct (computed hd) eqn:Hc.
  - assert (Hcomp : computed_projection n h self).
    { exists nd, arg, attrs, renamed, hd. auto. }
    split.
    + eexists _, _. split; [ apply iand_computed_run, Hcomp | ]. cbn [st_heap with_heap].
      split; [ apply lookup_ge_None_2; unfold h; lia | ].
      split; [ rewrite wrapped_heap_node; reflexivity | ].
      split; [ apply wrapped_heap_restrictions | ].
      split; [ | apply heap_le_wrapped_heap ].
      eapply restrictions_of_le; [ apply heap_le_wrapped_heap | exact Hrs ].
    + unfold __and__. rewrite (and_with_run _ _ _ _ _ _ Hnd Hrs).
      fold h. set (h1 := and_heap h nd rs).
      assert (Hle1 : heap_le h h1) by apply heap_le_and_heap.
      assert (Htwin : alike h h1 self (length (nodes h)))
        by (apply alike_and_heap; assumption).
      assert (Hcomp1 : computed_projection n
                (st_heap (with_heap h1 s)) (length (nodes h)))
        by (simpl; eapply computed_projection_alike; eassumption).
      rewrite (iand_computed_run _ _ _ _ Hcomp1). cbn [st_heap with_heap].
      eexists _, _, (length (nodes h)). split; [ reflexivity | ]. cbn [st_heap with_heap].
      assert (Hlen1 : length (nodes h1) = S (length (nodes h)))
        by (unfold h1; simpl; rewrite length_app; simpl; lia).
      assert (Hle2 : heap_le h1 (wrapped_heap h1 (length (nodes h))
                                   (restrict_list [] restriction)))
        by apply heap_le_wrapped_heap.
      split; [ apply lookup_ge_None_2; rewrite Hlen1; lia | ].
      split; [ apply lookup_ge_None_2; lia | ].
      split; [ rewrite wrapped_heap_node; reflexivity | ].
      split.
      { erewrite nodes_le; [ | exact Hle2 | apply lookup_snoc_last ].
        simpl. congruence. }
      split.
      { eapply restrictions_of_le; [ exact Hle2 | ].
        apply restrictions_of_and_heap. }
      split; [ apply wrapped_heap_restrictions | ].
      split; [ | eapply heap_le_trans; eassumption ].
      eapply restrictions_of_le; [ exact Hle2 | ].
      eapply restrictions_of_le; [ exact Hle1 | exact Hrs ].
  - assert (Hplain : plain_operand n h self).
    { exists nd. split; [ exact Hnd | ]. rewrite Hshape. eauto. }
    split.
    + destruct (iand_plain_run n self restriction s nd rs Hnd Hrs Hplain)
        as (s' & Hrun & Hrs' & _).
      eauto.
    + eexists _, _. split; [ apply and_plain_run; eassumption | ].
      cbn [st_heap with_heap]. fold h.
      split; [ apply lookup_ge_None_2; unfold h; lia | ].
      split; [ unfold and_heap; simpl; rewrite lookup_snoc_last;
               simpl; congruence | ].
      split; [ apply restrictions_of_and_heap | ].
      eapply restrictions_of_le; [ apply heap_le_and_heap | exact Hrs ].
Qed.

(** The store [Toy.projected] is the one the operators build. *)
Lemma projected_built :
  (r ← __and__ (E := Toy.externals) 5 0 (VDict [("id", VInt 1)]);
   project (E := Toy.externals) 5 r [] [("doubled", "value*2")]) Toy.start
  = Some (Ret 3, Toy.projected).
Proof. vm_compute. reflexivity. Qed.

Lemma Projection_restrict_wraps_witness :
  exists s' sub,
    __iand__ (E := Toy.externals) 5 3 (VDict [("doubled", VInt 20)]) Toy.projected
      = Some (Ret sub, s') /\
    shape_of <$> nodes (st_heap s') !! sub = Some (Subquery 3) /\
    restrictions_of (st_heap s') sub = Some [VDict [("doubled", VInt 20)]] /\
    restrictions_of (st_heap s') 3 = Some [VDict [("id", VInt 1)]].
Proof.
  pose proof (Projection_restrict_wraps (E := Toy.externals) 4 Toy.projected 3
                {| shape_of := Projection 2 [] [("doubled", "value*2")];
                   _restrictions := Some 0 |}
                2 [] [("doubled", "value*2")] [VDict [("id", VInt 1)]]
                Toy.p_heading (VDict [("doubled", VInt 20)])
                eq_refl eq_refl eq_refl eq_refl) as Hwraps.
  simpl in Hwraps.
  destruct Hwraps as [(s' & sub & Hrun & _ & Hsub & Hnew & Hold & _) _].
  exists s', sub. auto.
Defined.

(** C4, what fails as the claim stands: the restriction is not always
    appended.  For the projection [p] of [Toy.projected], whose heading is
    computed, [p & [{'id': 1}, {'id': 2}]] answers a [Subquery] whose list
    has the two mappings as two elements, not the list as one element, and
    [p &= None] answers a [Subquery] whose list is empty, not [[None]].
    For the projection [a.project()], whose heading is not computed,
    [&= [{'id': 1}, {'id': 2}]] puts the two mappings into its list, and
    [&= None] leaves its list empty. *)
Lemma Projection_restrict_counterexample :
  (exists s' r,
      __and__ (E := Toy.externals) 5 3
        (VList [VDict [("id", VInt 1)]; VDict [("id", VInt 2)]]) Toy.projected
      = Some (Ret r, s') /\
      shape_of <$> nodes (st_heap s') !! r = Some (Subquery 4) /\
      restrictions_of (st_heap s') r
      = Some [VDict [("id", VInt 1)]; VDict [("id", VInt 2)]] /\
      restrictions_of (st_heap s') r
      <> Some [VList [VDict [("id", VInt 1)]; VDict [("id", VInt 2)]]]) /\
  (exists s' r,
      __iand__ (E := Toy.externals) 5 3 VNone Toy.projected = Some (Ret r, s') /\
      shape_of <$> nodes (st_heap s') !! r = Some (Subquery 3) /\
      restrictions_of (st_heap s') r = Some [] /\
      restrictions_of (st_heap s') r <> Some [VNone]) /\
  (exists s' q,
      (q ← project (E := Toy.externals) 5 0 [] [];
       __iand__ (E := Toy.externals) 5 q
         (VList [VDict [("id", VInt 1)]; VDict [("id", VInt 2)]])) Toy.start
      = Some (Ret q, s') /\
      shape_of <$> nodes (st_heap s') !! q = Some (Projection 0 [] []) /\
      restrictions_of (st_heap s') q
      = Some [VDict [("id", VInt 1)]; VDict [("id", VInt 2)]]) /\
  (exists s' q,
      (q ← project (E := Toy.externals) 5 0 [] [];
       __iand__ (E := Toy.externals) 5 q VNone) Toy.start
      = Some (Ret q, s') /\
      shape_of <$> nodes (st_heap s') !! q = Some (Projection 0 [] []) /\
      restrictions_of (st_heap s') q = Some [] /\
      restrictions_of (st_heap s') q <> Some [VNone]).
Proof.
  split; [ | split; [ | split ] ].
  - eexists _, _. split; [ vm_compute; reflexivity | ].
    split; [ reflexivity | ]. split; [ reflexivity | ].
    vm_compute. discriminate.
  - eexists _, _. split; [ vm_compute; reflexivity | ].
    split; [ reflexivity | ]. split; [ reflexivity | ].
    vm_compute. discriminate.
  - eexists _, _. split; [ vm_compute; reflexivity | ].
    split; reflexivity.
  - eexists _, _. split; [ vm_compute; reflexivity | ].
    split; [ reflexivity | ]. split; [ reflexivity | ].
    vm_compute. discriminate.
Qed.

(** C5 (as amended): for every relation node [self] whose [_restrict] is the
    inherited one, that is every node except a [Projection] with a computed
    heading, [self & restriction] answers a new node, of the same class and
    attributes, whose restriction list is a new list object: the contents of
    the list of [self] followed by the restriction (by its elements when it
    is a list, by nothing when it is [None]); no object of the store that
    existed before is changed, so the list of [self] is as it was.
    [self &= restriction] answers [self] itself, creates no node, and adds
    the restriction to the list object [self] already has. *)
Theorem restrict_copy_and_in_place `{E : Externals}
    (n : nat) (s : state) (self : loc) (nd : node) (rs : list value)
    (restriction : value) :
  nodes (st_heap s) !! self = Some nd ->
  restrictions_of (st_heap s) self = Some rs ->
  plain_operand n (st_heap s) self ->
  (exists s' twin_ nd' p,
      __and__ (S n) self restriction s = Some (Ret twin_, s') /\
      nodes (st_heap s) !! twin_ = None /\
      nodes (st_heap s') !! twin_ = Some nd' /\
      shape_of nd' = shape_of nd /\
      _restrictions nd' = Some p /\
      lists (st_heap s) !! p = None /\
      lists (st_heap s') !! p = Some (restrict_list rs restriction) /\
      heap_le (st_heap s) (st_heap s') /\
      restrictions_of (st_heap s') self = Some rs) /\
  (exists s',
      __iand__ (S n) self restriction s = Some (Ret self, s') /\
      length (nodes (st_heap s')) = length (nodes (st_heap s)) /\
      restrictions_of (st_heap s') self = Some (restrict_list rs restriction) /\
      forall p, _restrictions nd = Some p ->
        exists nd', nodes (st_heap s') !! self = Some nd' /\
                    _restrictions nd' = Some p /\
                    lists (st_heap s') !! p = Some (restrict_list rs restriction)).
Proof.
  intros Hnd Hrs Hplain. split.
  - eexists _, _, _, _. split; [ apply and_plain_run; eassumption | ].
    cbn [st_heap with_heap].
    split; [ apply lookup_ge_None_2; lia | ].
    split; [ apply lookup_snoc_last | ].
    split; [ reflexivity | ].
    split; [ reflexivity | ].
    split; [ apply lookup_ge_None_2; lia | ].
    split; [ apply lookup_snoc_last | ].
    split; [ apply heap_le_and_heap | ].
    eapply restrictions_of_le; [ apply heap_le_and_heap | exact Hrs ].
  - destruct (iand_plain_run n self restriction s nd rs Hnd Hrs Hplain)
      as (s' & Hrun & Hrs' & Hlen & _ & Hsame).
    exists s'. auto.
Qed.

Lemma restrict_copy_and_in_place_witness :
  exists s1 s2,
    __and__ (E := Toy.externals) 5 2 (VDict [("value", VInt 10)]) Toy.projected
      = Some (Ret 4, s1) /\
    restrictions_of (st_heap s1) 4
      = Some [VDict [("id", VInt 1)]; VDict [("value", VInt 10)]] /\
    restrictions_of (st_heap s1) 2 = Some [VDict [("id", VInt 1)]] /\
    __iand__ (E := Toy.externals) 5 2 (VDict [("value", VInt 10)]) Toy.projected
      = Some (Ret 2, s2) /\
    restrictions_of (st_heap s2) 2
      = Some [VDict [("id", VInt 1)]; VDict [("value", VInt 10)]].
Proof.
  assert (Hplain : plain_operand (E := Toy.externals) 4 (st_heap Toy.projected) 2).
  { eexists. split; [ reflexivity | exact I ]. }
  pose proof (restrict_copy_and_in_place (E := Toy.externals) 4 Toy.projected 2
                {| shape_of := Base 7 "`lab`.`a`" Toy.a_heading;
                   _restrictions := Some 0 |}
                [VDict [("id", VInt 1)]] (VDict [("value", VInt 10)])
                eq_refl eq_refl Hplain) as Hboth.
  destruct Hboth as [(s1 & r & nd' & p & Hand & _ & Hr & _ & Hp & _ & Hl & _ & Hold)
                     (s2 & Hiand & _ & Hnew & _)].
  exists s1, s2.
  assert (Hfour : r = 4).
  { vm_compute in Hand. congruence. }
  subst r.
  repeat split; try assumption.
  unfold restrictions_of. rewrite Hr. simpl. rewrite Hp. exact Hl.
Defined.

(** The list object is shared: [q = a2.project('value')] takes the list of
    its argument [a2] (node 2 of [Toy.projected]), so [q &= {'value': 10}]
    restricts [a2], and the projection [p] built on [a2], as well. *)
Lemma in_place_restriction_is_shared :
  exists s1 q s2,
    project (E := Toy.externals) 5 2 ["value"] [] Toy.projected = Some (Ret q, s1) /\
    __iand__ (E := Toy.externals) 5 q (VDict [("value", VInt 10)]) s1
      = Some (Ret q, s2) /\
    restrictions_of (st_heap s2) 2
      = Some [VDict [("id", VInt 1)]; VDict [("value", VInt 10)]] /\
    restrictions_of (st_heap s2) 3
      = Some [VDict [("id", VInt 1)]; VDict [("value", VInt 10)]].
Proof.
  eexists _, _, _.
  split; [ vm_compute; reflexivity | ].
  split; [ vm_compute; reflexivity | ].
  split; reflexivity.
Qed.

(** C5, what fails as the claim stands: the projection [p] of
    [Toy.projected] has a computed heading and the list [[{'id': 1}]].
    [p &= {'doubled': 20}] does not answer [p] and leaves the list of [p] as
    it was; [p & {'doubled': 20}] answers a node whose list holds the new
    restriction only, not the contents of the list of [p] followed by it. *)
Lemma restrict_computed_projection_counterexample :
  exists s1 s2 r1 r2,
    __iand__ (E := Toy.externals) 5 3 (VDict [("doubled", VInt 20)]) Toy.projected
      = Some (Ret r1, s1) /\
    r1 <> 3 /\
    restrictions_of (st_heap s1) 3 = Some [VDict [("id", VInt 1)]] /\
    __and__ (E := Toy.externals) 5 3 (VDict [("doubled", VInt 20)]) Toy.projected
      = Some (Ret r2, s2) /\
    restrictions_of (st_heap s2) r2 = Some [VDict [("doubled", VInt 20)]] /\
    restrictions_of (st_heap s2) r2
      <> Some [VDict [("id", VInt 1)]; VDict [("doubled", VInt 20)]].
Proof.
  eexists _, _, _, _.
  split; [ vm_compute; reflexivity | ].
  split; [ discriminate | ].
  split; [ reflexivity | ].
  split; [ vm_compute; reflexivity | ].
  split; [ reflexivity | ].
  vm_compute. discriminate.
Qed.

(** ** Restrictions that add nothing *)

Section Neutral.
Context `{E : Externals}.

(** A copy with the same restriction list compiles to the same text and
    counts the same rows. *)
Lemma copy_compiles_alike n m s self nd rs restriction :
  nodes (st_heap s) !! self = Some nd ->
  restrictions_of (st_heap s) self = Some rs ->
  plain_operand n (st_heap s) self ->
  restrict_list rs restriction = rs ->
  exists s' twin_,
    __and__ (S n) self restriction s = Some (Ret twin_, s') /\
    nodes (st_heap s) !! twin_ = None /\
    restrictions_of (st_heap s') twin_ = Some rs /\
    restrictions_of (st_heap s') self = Some rs /\
    counter s' = counter s /\
    (forall spec o t,
        make_select m self spec s = Some (o, t) ->
        make_select m twin_ spec s' = Some (o, with_heap (st_heap s') t)) /\
    (forall o t,
        __len__ m self s = Some (o, t) ->
        __len__ m twin_ s' = Some (o, with_heap (st_heap s') t)).
Proof.
  intros Hnd Hrs Hplain Hsame.
  eexists _, _. split; [ apply and_plain_run; eassumption | ].
  rewrite Hsame. cbn [st_heap with_heap counter].
  assert (Hle : heap_le (st_heap s) (and_heap (st_heap s) nd rs))
    by apply heap_le_and_heap.
  assert (Htwin : twin (st_heap s) (and_heap (st_heap s) nd rs)
                       self (length (nodes (st_heap s))))
    by (apply twin_and_heap; assumption).
  split; [ apply lookup_ge_None_2; lia | ].
  split; [ apply restrictions_of_and_heap | ].
  split; [ eapply restrictions_of_le; eassumption | ].
  split; [ reflexivity | ].
  split.
  - intros spec o t Hrun.
    eapply (sim_make_select _ _ Hle m _ _ spec Htwin s); [ reflexivity | exact Hrun ].
  - intros o t Hrun.
    eapply (sim_len _ _ Hle m _ _ Htwin s); [ reflexivity | exact Hrun ].
Qed.

End Neutral.

(** C9 (as amended): for every relation [self] other than a [Projection]
    with a computed heading, [self & []] answers a new node with the same
    restriction list contents; from any state of the alias counter it
    compiles to the [SELECT] statement of [self], and [len] of it is [len]
    of [self]. *)
Theorem and_empty_list_is_identity `{E : Externals}
    (n m : nat) (s : state) (self : loc) (nd : node) (rs : list value) :
  nodes (st_heap s) !! self = Some nd ->
  restrictions_of (st_heap s) self = Some rs ->
  plain_operand n (st_heap s) self ->
  exists s' twin_,
    __and__ (S n) self (VList []) s = Some (Ret twin_, s') /\
    nodes (st_heap s) !! twin_ = None /\
    restrictions_of (st_heap s') twin_ = Some rs /\
    restrictions_of (st_heap s') self = Some rs /\
    counter s' = counter s /\
    (forall spec o t,
        make_select m self spec s = Some (o, t) ->
        make_select m twin_ spec s' = Some (o, with_heap (st_heap s') t)) /\
    (forall o t,
        __len__ m self s = Some (o, t) ->
        __len__ m twin_ s' = Some (o, with_heap (st_heap s') t)).
Proof.
  intros Hnd Hrs Hplain.
  apply copy_compiles_alike with (nd := nd); try assumption.
  simpl. apply app_nil_r.
Qed.

Lemma and_empty_list_is_identity_witness :
  exists s' twin_,
    __and__ (E := Toy.externals) 5 0 (VList []) Toy.start = Some (Ret twin_, s') /\
    restrictions_of (st_heap s') twin_ = Some [] /\
    make_select (E := Toy.externals) 5 twin_ None s'
      = Some (Ret "SELECT `id`,`value`,`trace` FROM `lab`.`a`", s') /\
    __len__ (E := Toy.externals) 5 twin_ s' = Some (Ret (VInt 3), s').
Proof.
  assert (Hplain : plain_operand (E := Toy.externals) 4 (st_heap Toy.start) 0).
  { eexists. split; [ reflexivity | exact I ]. }
  destruct (and_empty_list_is_identity (E := Toy.externals) 4 5 Toy.start 0
              {| shape_of := Base 7 "`lab`.`a`" Toy.a_heading;
                 _restrictions := None |} [] eq_refl eq_refl Hplain)
    as (s' & r & Hrun & _ & Hrs & _ & _ & Hselect & Hlen).
  exists s', r. split; [ exact Hrun | split; [ exact Hrs | ] ].
  assert (Hs' : with_heap (st_heap s') Toy.start = s').
  { vm_compute in Hrun. injection Hrun as _ <-. reflexivity. }
  split.
  - rewrite <- Hs' at 2. apply Hselect. vm_compute. reflexivity.
  - rewrite <- Hs' at 2. apply Hlen. vm_compute. reflexivity.
Defined.

(** C9, what fails as the claim stands: for the projection [p] of
    [Toy.projected], whose heading is computed and whose list is
    [[{'id': 1}]], the node [p & []] has an empty restriction list and
    compiles to another statement. *)
Lemma and_empty_list_counterexample :
  exists s' r,
    __and__ (E := Toy.externals) 5 3 (VList []) Toy.projected = Some (Ret r, s') /\
    restrictions_of (st_heap Toy.projected) 3 = Some [VDict [("id", VInt 1)]] /\
    restrictions_of (st_heap s') r = Some [] /\
    fst <$> make_select (E := Toy.externals) 9 3 None Toy.projected
      = Some (Ret "SELECT `id`,`doubled` FROM `lab`.`a` WHERE (`id`=1)") /\
    fst <$> make_select (E := Toy.externals) 9 r None s'
      = Some (Ret ("SELECT `id`,`doubled` FROM "
                   +:+ "(SELECT `id`,`doubled` FROM `lab`.`a` WHERE (`id`=1)) as `_s1`")).
Proof.
  eexists _, _.
  split; [ vm_compute; reflexivity | ].
  repeat split.
Qed.

(** C10 (as amended): for every relation node [self], a [Projection] being
    one whose heading evaluates, [self &= None] raises nothing and leaves the
    restriction list of [self], and every object the store had, as it was.
    When [self] is not a [Projection] with a computed heading, [self &= None]
    answers [self] and leaves the whole state as it was, and [self & None]
    answers a new node with the same restriction list contents, which, from
    the same state of the alias counter, compiles to the same SQL text and
    counts the same rows.  When [self] is a [Projection] with a computed
    heading, [self &= None] answers a new [Subquery] around [self], and
    [self & None] a new [Subquery] around a copy of [self], whose
    restriction list is empty. *)
Theorem restrict_None_is_noop `{E : Externals}
    (n m : nat) (s : state) (self : loc) (nd : node) (rs : list value) :
  nodes (st_heap s) !! self = Some nd ->
  restrictions_of (st_heap s) self = Some rs ->
  plain_operand n (st_heap s) self \/ computed_projection n (st_heap s) self ->
  (exists s' r,
      __iand__ (S n) self VNone s = Some (Ret r, s') /\
      restrictions_of (st_heap s') self = Some rs /\
      heap_le (st_heap s) (st_heap s') /\
      counter s' = counter s) /\
  (plain_operand n (st_heap s) self ->
   __iand__ (S n) self VNone s = Some (Ret self, s) /\
   exists s' twin_,
     __and__ (S n) self VNone s = Some (Ret twin_, s') /\
     nodes (st_heap s) !! twin_ = None /\
     restrictions_of (st_heap s') twin_ = Some rs /\
     restrictions_of (st_heap s') self = Some rs /\
     counter s' = counter s /\
     (forall spec o t,
         make_select m self spec s = Some (o, t) ->
         make_select m twin_ spec s' = Some (o, with_heap (st_heap s') t)) /\
     (forall o t,
         __len__ m self s = Some (o, t) ->
         __len__ m twin_ s' = Some (o, with_heap (st_heap s') t))) /\
  (computed_projection n (st_heap s) self ->
   (exists s' sub,
      __iand__ (S n) self VNone s = Some (Ret sub, s') /\
      nodes (st_heap s) !! sub = None /\
      shape_of <$> nodes (st_heap s') !! sub = Some (Subquery self) /\
      restrictions_of (st_heap s') sub = Some [] /\
      restrictions_of (st_heap s') self = Some rs) /\
   (exists s' sub twin_,
      __and__ (S n) self VNone s = Some (Ret sub, s') /\
      nodes (st_heap s) !! sub = None /\
      nodes (st_heap s) !! twin_ = None /\
      shape_of <$> nodes (st_heap s') !! sub = Some (Subquery twin_) /\
      shape_of <$> nodes (st_heap s') !! twin_ = Some (shape_of nd) /\
      restrictions_of (st_heap s') twin_ = Some rs /\
      restrictions_of (st_heap s') sub = Some [] /\
      restrictions_of (st_heap s') self = Some rs)).
Proof.
  intros Hnd Hrs Hkind.
  assert (Hin_place : forall Hplain : plain_operand n (st_heap s) self,
            __iand__ (S n) self VNone s = Some (Ret self, s)).
  { intros Hplain. unfold __iand__.
    rewrite restrict_plain by exact Hplain. reflexivity. }
  assert (Hwrapped : forall Hcomp : computed_projection n (st_heap s) self,
            exists s' sub,
              __iand__ (S n) self VNone s = Some (Ret sub, s') /\
              nodes (st_heap s) !! sub = None /\
              shape_of <$> nodes (st_heap s') !! sub = Some (Subquery self) /\
              restrictions_of (st_heap s') sub = Some [] /\
              restrictions_of (st_heap s') self = Some rs /\
              heap_le (st_heap s) (st_heap s') /\
              counter s' = counter s).
  { intros Hcomp. eexists _, _.
    split; [ apply iand_computed_run, Hcomp | ]. cbn [st_heap with_heap counter].
    split; [ apply lookup_ge_None_2; lia | ].
    split; [ rewrite wrapped_heap_node; reflexivity | ].
    split; [ apply wrapped_heap_restrictions | ].
    split; [ | split; [ apply heap_le_wrapped_heap | reflexivity ] ].
    eapply restrictions_of_le; [ apply heap_le_wrapped_heap | exact Hrs ]. }
  split; [ | split ].
  - destruct Hkind as [Hplain|Hcomp].
    + exists s, self. split; [ apply Hin_place, Hplain | ].
      split; [ exact Hrs | ]. split; [ split; reflexivity | reflexivity ].
    + destruct (Hwrapped Hcomp) as (s' & sub & Hrun & _ & _ & _ & Hrs' & Hle & Hc).
      exists s', sub. auto.
  - intros Hplain. split; [ apply Hin_place, Hplain | ].
    apply copy_compiles_alike with (nd := nd); try assumption. reflexivity.
  - intros Hcomp. split.
    { destruct (Hwrapped Hcomp)
        as (s' & sub & Hrun & Hnew & Hsh & Hsub & Hrs' & _).
      exists s', sub. auto. }
    set (h := st_heap s) in *.
    unfold __and__. rewrite (and_with_run _ _ _ _ _ _ Hnd Hrs).
    fold h. set (h1 := and_heap h nd rs).
    assert (Hle1 : heap_le h h1) by apply heap_le_and_heap.
    assert (Htwin : alike h h1 self (length (nodes h)))
      by (apply alike_and_heap; assumption).
    assert (Hcomp1 : computed_projection n
              (st_heap (with_heap h1 s)) (length (nodes h)))
      by (simpl; eapply computed_projection_alike; eassumption).
    rewrite (iand_computed_run _ _ _ _ Hcomp1). cbn [st_heap with_heap].
    eexists _, _, (length (nodes h)). split; [ reflexivity | ].
    cbn [st_heap with_heap restrict_list].
    assert (Hlen1 : length (nodes h1) = S (length (nodes h)))
      by (unfold h1; simpl; rewrite length_app; simpl; lia).
    assert (Hle2 : heap_le h1 (wrapped_heap h1 (length (nodes h)) []))
      by apply heap_le_wrapped_heap.
    split; [ apply lookup_ge_None_2; rewrite Hlen1; lia | ].
    split; [ apply lookup_ge_None_2; lia | ].
    split; [ rewrite wrapped_heap_node; reflexivity | ].
    split.
    { erewrite nodes_le; [ | exact Hle2 | apply lookup_snoc_last ].
      reflexivity. }
    split.
    { eapply restrictions_of_le; [ exact Hle2 | ].
      apply restrictions_of_and_heap. }
    split; [ apply wrapped_heap_restrictions | ].
    eapply restrictions_of_le; [ exact Hle2 | ].
    eapply restrictions_of_le; [ exact Hle1 | exact Hrs ].
Qed.

Lemma restrict_None_is_noop_witness :
  (__iand__ (E := Toy.externals) 5 2 VNone Toy.projected
     = Some (Ret 2, Toy.projected) /\
   exists s' twin_,
     __and__ (E := Toy.externals) 5 2 VNone Toy.projected = Some (Ret twin_, s') /\
     restrictions_of (st_heap s') twin_ = Some [VDict [("id", VInt 1)]] /\
     make_select (E := Toy.externals) 5 twin_ None s'
       = Some (Ret "SELECT `id`,`value`,`trace` FROM `lab`.`a` WHERE (`id`=1)", s')) /\
  (exists s' sub,
     __iand__ (E := Toy.externals) 5 3 VNone Toy.projected = Some (Ret sub, s') /\
     shape_of <$> nodes (st_heap s') !! sub = Some (Subquery 3) /\
     restrictions_of (st_heap s') sub = Some [] /\
     restrictions_of (st_heap s') 3 = Some [VDict [("id", VInt 1)]]) /\
  (exists s' sub twin_,
     __and__ (E := Toy.externals) 5 3 VNone Toy.projected = Some (Ret sub, s') /\
     shape_of <$> nodes (st_heap s') !! sub = Some (Subquery twin_) /\
     restrictions_of (st_heap s') sub = Some [] /\
     restrictions_of (st_heap s') twin_ = Some [VDict [("id", VInt 1)]]).
Proof.
  assert (Hplain : plain_operand (E := Toy.externals) 4 (st_heap Toy.projected) 2).
  { eexists. split; [ reflexivity | exact I ]. }
  assert (Hcomp : computed_projection (E := Toy.externals) 4
                    (st_heap Toy.projected) 3).
  { eexists _, _, _, _, Toy.p_heading.
    split; [ reflexivity | ]. split; [ reflexivity | ].
    split; reflexivity. }
  assert (Hwraps :=
    proj2 (proj2
      (restrict_None_is_noop (E := Toy.externals) 4 5 Toy.projected 3
         {| shape_of := Projection 2 [] [("doubled", "value*2")];
            _restrictions := Some 0 |}
         [VDict [("id", VInt 1)]] eq_refl eq_refl (or_intror Hcomp))) Hcomp).
  split; [ | split ].
  - destruct (restrict_None_is_noop (E := Toy.externals) 4 5 Toy.projected 2
                {| shape_of := Base 7 "`lab`.`a`" Toy.a_heading;
                   _restrictions := Some 0 |}
                [VDict [("id", VInt 1)]] eq_refl eq_refl (or_introl Hplain))
      as (_ & Hnoop & _).
    destruct (Hnoop Hplain)
      as (Hiand & s' & r & Hrun & _ & Hrs & _ & _ & Hselect & _).
    split; [ exact Hiand | ].
    exists s', r. split; [ exact Hrun | split; [ exact Hrs | ] ].
    assert (Hs' : with_heap (st_heap s') Toy.projected = s').
    { vm_compute in Hrun. injection Hrun as _ <-. reflexivity. }
    rewrite <- Hs' at 2. apply Hselect. vm_compute. reflexivity.
  - destruct Hwraps as [(s' & sub & Hrun & _ & Hsh & Hsub & Hrs) _].
    exists s', sub. auto.
  - destruct Hwraps
      as [_ (s' & sub & twin_ & Hrun & _ & _ & Hsh & _ & Htwin & Hsub & _)].
    exists s', sub, twin_. auto.
Defined.

(** C10, what fails as the claim stands: for the projection [p] of
    [Toy.projected], [p & None] answers a [Subquery] whose restriction list
    is empty while that of [p] is [[{'id': 1}]], and the SQL texts differ.
    And for a node whose [_restrict] is the inherited one, the [Subquery]
    [r] (node 4) of [Toy.nested], the texts of [r] and of [r & None] are the
    same only from the same state of the alias counter: compiled one after
    the other, they differ in their aliases. *)
Lemma restrict_None_counterexample :
  (exists s' r,
     __and__ (E := Toy.externals) 5 3 VNone Toy.projected = Some (Ret r, s') /\
     shape_of <$> nodes (st_heap s') !! r = Some (Subquery 4) /\
     restrictions_of (st_heap Toy.projected) 3 = Some [VDict [("id", VInt 1)]] /\
     restrictions_of (st_heap s') r = Some [] /\
     fst <$> make_select (E := Toy.externals) 9 3 None Toy.projected
       = Some (Ret "SELECT `id`,`doubled` FROM `lab`.`a` WHERE (`id`=1)") /\
     fst <$> make_select (E := Toy.externals) 9 r None s'
       = Some (Ret ("SELECT `id`,`doubled` FROM "
                    +:+ "(SELECT `id`,`doubled` FROM `lab`.`a` WHERE (`id`=1)) as `_s1`"))) /\
  (exists s' twin_ t,
     __and__ (E := Toy.externals) 5 4 VNone Toy.nested = Some (Ret twin_, s') /\
     restrictions_of (st_heap s') twin_ = restrictions_of (st_heap s') 4 /\
     make_select (E := Toy.externals) 9 4 None s'
       = Some (Ret ("SELECT `id`,`value`,`trace` FROM "
                    +:+ "(SELECT `id`,`value`,`trace` FROM "
                    +:+ "(SELECT `id`,`value`,`trace` FROM `lab`.`a`) as `_s1`"
                    +:+ " NATURAL JOIN "
                    +:+ "(SELECT `id`,`value`,`trace` FROM `lab`.`a`) as `_s2`"
                    +:+ ") as `_s3`"), t) /\
     fst <$> make_select (E := Toy.externals) 9 twin_ None t
       = Some (Ret ("SELECT `id`,`value`,`trace` FROM "
                    +:+ "(SELECT `id`,`value`,`trace` FROM "
                    +:+ "(SELECT `id`,`value`,`trace` FROM `lab`.`a`) as `_s4`"
                    +:+ " NATURAL JOIN "
                    +:+ "(SELECT `id`,`value`,`trace` FROM `lab`.`a`) as `_s5`"
                    +:+ ") as `_s6`"))).
Proof.
  split.
  - eexists _, _.
    split; [ vm_compute; reflexivity | ].
    repeat split.
  - eexists _, _, _.
    split; [ vm_compute; reflexivity | ].
    split; [ reflexivity | ].
    split; [ vm_compute; reflexivity | ].
    vm_compute. reflexivity.
Qed.

(** ** The conditions of a [WHERE] clause *)

Lemma for_each_app_run {A B} (f : A -> M B) l1 l2 s a s1 b s2 :
  for_each f l1 s = Some (Ret a, s1) ->
  for_each f l2 s1 = Some (Ret b, s2) ->
  for_each f (l1 ++ l2) s = Some (Ret (a ++ b), s2).
Proof.
  revert s a. induction l1 as [|x l1 IH]; intros s a H1 H2.
  - injection H1 as <- <-. exact H2.
  - simpl in H1.
    apply bind_inv in H1 as [(y & t & Hy & H1)|(e & _ & [=])].
    apply bind_inv in H1 as [(ys & t' & Hys & H1)|(e & _ & [=])].
    injection H1 as <- <-. simpl.
    rewrite (bind_ret_run _ _ _ _ _ Hy).
    rewrite (bind_ret_run _ _ _ _ _ (IH _ _ Hys H2)). reflexivity.
Qed.

Lemma for_each_pure_map {A B C} (f : B -> M C) (g : A -> B) (k : A -> C) l s :
  (forall x, f (g x) s = Some (Ret (k x), s)) ->
  for_each f (map g l) s = Some (Ret (map k l), s).
Proof.
  intros Hf. induction l as [|x l IH]; simpl; [ reflexivity | ].
  rewrite (bind_ret_run _ _ _ _ _ (Hf x)).
  rewrite (bind_ret_run _ _ _ _ _ IH). reflexivity.
Qed.

Lemma for_each_pure {A B} (f : A -> M B) (k : A -> B) l s :
  (forall x, f x s = Some (Ret (k x), s)) ->
  for_each f l s = Some (Ret (map k l), s).
Proof.
  intros Hf. rewrite <- (map_id l) at 1. apply for_each_pure_map. exact Hf.
Qed.

Lemma for_each_nonempty {A B} (f : A -> M B) x l s cs s1 :
  for_each f (x :: l) s = Some (Ret cs, s1) -> exists c cs', cs = c :: cs'.
Proof.
  simpl. intros Hrun.
  apply bind_inv in Hrun as [(y & t & _ & Hrun)|(e & _ & [=])].
  apply bind_inv in Hrun as [(ys & t' & _ & Hrun)|(e & _ & [=])].
  injection Hrun as <- _. eauto.
Qed.

Lemma omap_if_filter {A B} (c : A -> bool) (f : A -> B) l :
  omap id (map (fun x => if c x then Some (f x) else None) l)
  = map f (List.filter c l).
Proof.
  induction l as [|x l IH]; simpl; [ reflexivity | ].
  destruct (c x); simpl; [ f_equal | ]; exact IH.
Qed.

Section Conditions.
Context `{E : Externals}.

Lemma make_condition_dict_run n self items s hd :
  heading n (st_heap s) self = Some (Ret hd) ->
  make_condition n self (VDict items) s = Some (Ret (conjunction hd items), s).
Proof.
  intros Hhd. simpl.
  erewrite bind_ret_run.
  2:{ apply for_each_pure with
        (k := fun kv : string * value =>
                if heading_contains hd kv.1
                then Some ("`" +:+ kv.1 +:+ "`=" +:+ py_repr kv.2) else None).
      intros kv. rewrite (bind_ret_run _ _ _ _ _ (get_heading_run _ _ _ _ Hhd)).
      reflexivity. }
  unfold conjunction.
  rewrite (omap_if_filter (fun kv : string * value => heading_contains hd kv.1)
             (fun kv : string * value => "`" +:+ kv.1 +:+ "`=" +:+ py_repr kv.2)).
  reflexivity.
Qed.

Lemma condition_dict_run cl n self items s hd :
  heading n (st_heap s) self = Some (Ret hd) ->
  condition_with cl n self (VDict items) s
  = Some (Ret ("(" +:+ conjunction hd items +:+ ")"), s).
Proof.
  intros Hhd. unfold condition_with.
  rewrite (bind_ret_run _ _ _ _ _ (make_condition_dict_run _ _ _ _ _ Hhd)).
  reflexivity.
Qed.

Lemma condition_alternatives_run cl n self ds s hd :
  heading n (st_heap s) self = Some (Ret hd) ->
  condition_with cl n self (VList (map VDict ds)) s
  = Some (Ret ("(" +:+ disjunction hd ds +:+ ")"), s).
Proof.
  intros Hhd. unfold condition_with, alternatives.
  erewrite bind_ret_run.
  2:{ erewrite bind_ret_run; [ reflexivity | ].
      apply for_each_pure_map with (k := conjunction hd).
      intros d. apply make_condition_dict_run, Hhd. }
  reflexivity.
Qed.

(** [where_clause] once the conditions of the restrictions are known. *)
Lemma where_clause_run n self s rs cs s1 :
  restrictions_of (st_heap s) self = Some rs ->
  for_each (condition_with (clause n) n self) rs s = Some (Ret cs, s1) ->
  where_clause (S n) self s = Some (Ret (where_text cs), s1).
Proof.
  intros Hrs Hcs. unfold where_clause. simpl.
  rewrite (bind_ret_run _ _ _ _ _ (get_restrictions_run _ _ _ Hrs)).
  destruct rs as [|r rs].
  - injection Hcs as <- <-. reflexivity.
  - destruct (for_each_nonempty _ _ _ _ _ _ Hcs) as (c & cs' & ->).
    rewrite (bind_ret_run _ _ _ _ _ Hcs). reflexivity.
Qed.

(** The conditions of [self], compiled for its copy in a grown store. *)
Lemma conditions_of_copy n h h' a b rs s cs s1 :
  heap_le h h' -> alike h h' a b -> st_heap s = h ->
  for_each (condition_with (clause n) n a) rs s = Some (Ret cs, s1) ->
  st_heap s1 = h /\
  for_each (condition_with (clause n) n b) rs (with_heap h' s)
  = Some (Ret cs, with_heap h' s1).
Proof.
  intros Hle Htwin Hs Hrun.
  eapply (sim_for_each h h'); [ | exact Hs | exact Hrun ].
  intros r. apply sim_condition_with; [ assumption | | exact Htwin ].
  intros k l. apply sim_clause; [ assumption | apply twin_refl, Hle ].
Qed.

End Conditions.


(** C3 (as amended): when a relation node ([self], with the inherited
    [_restrict]) is restricted through [&] with a list of mappings, the
    mappings are spliced into its restriction list as independent
    restrictions: the [WHERE] clause of the result has, after the conditions
    [cs] of [self], one parenthesized conjunction per mapping, all joined
    with [AND].  The conjunctions are joined with [OR], each in parentheses,
    when the list of mappings is itself one element of the restriction list,
    as for a list inside the list given to [&]. *)
Theorem list_restriction_is_spliced `{E : Externals}
    (n : nat) (s : state) (self : loc) (nd : node) (rs : list value)
    (hd : Heading) (cs : list string) (s1 : state)
    (ds : list (list (string * value))) :
  nodes (st_heap s) !! self = Some nd ->
  restrictions_of (st_heap s) self = Some rs ->
  plain_operand n (st_heap s) self ->
  heading n (st_heap s) self = Some (Ret hd) ->
  for_each (condition_with (clause n) n self) rs s = Some (Ret cs, s1) ->
  (exists s' r,
      __and__ (S n) self (VList (map VDict ds)) s = Some (Ret r, s') /\
      restrictions_of (st_heap s') r = Some (rs ++ map VDict ds) /\
      where_clause (S n) r s'
      = Some (Ret (where_text
                     (cs ++ map (fun d => "(" +:+ conjunction hd d +:+ ")") ds)),
              with_heap (st_heap s') s1)) /\
  (exists s' r,
      __and__ (S n) self (VList [VList (map VDict ds)]) s = Some (Ret r, s') /\
      restrictions_of (st_heap s') r = Some (rs ++ [VList (map VDict ds)]) /\
      where_clause (S n) r s'
      = Some (Ret (where_text (cs ++ ["(" +:+ disjunction hd ds +:+ ")"])),
              with_heap (st_heap s') s1)).
Proof.
  intros Hnd Hrs Hplain Hhd Hcs.
  set (r := length (nodes (st_heap s))).
  assert (Halike : forall extra,
             alike (st_heap s) (and_heap (st_heap s) nd (rs ++ extra)) self r)
    by (intros extra; apply alike_and_heap, Hnd).
  assert (Hspliced : forall extra more,
    for_each (condition_with (clause n) n r) extra
      (with_heap (and_heap (st_heap s) nd (rs ++ extra)) s1)
    = Some (Ret more, with_heap (and_heap (st_heap s) nd (rs ++ extra)) s1) ->
    exists s' r,
      __and__ (S n) self (VList extra) s = Some (Ret r, s') /\
      restrictions_of (st_heap s') r = Some (rs ++ extra) /\
      where_clause (S n) r s'
      = Some (Ret (where_text (cs ++ more)), with_heap (st_heap s') s1)).
  { intros extra more Hextra. eexists _, _.
    split; [ apply and_plain_run; eassumption | ].
    cbn [st_heap with_heap restrict_list].
    split; [ apply restrictions_of_and_heap | ].
    eapply where_clause_run; [ apply restrictions_of_and_heap | ].
    destruct (conditions_of_copy n (st_heap s)
                (and_heap (st_heap s) nd (rs ++ extra))
                self r rs s cs s1) as [_ Hold];
      [ apply heap_le_and_heap | apply Halike | reflexivity | exact Hcs | ].
    eapply for_each_app_run; [ exact Hold | exact Hextra ]. }
  assert (Hhd' : forall extra,
    heading n (st_heap (with_heap (and_heap (st_heap s) nd (rs ++ extra)) s1)) r
    = Some (Ret hd)).
  { intros extra. simpl. eapply heading_alike; [ | apply Halike | exact Hhd ].
    apply heap_le_and_heap. }
  split.
  - apply Hspliced.
    apply for_each_pure_map
      with (k := fun d => "(" +:+ conjunction hd d +:+ ")").
    intros d. apply condition_dict_run, Hhd'.
  - apply (Hspliced [VList (map VDict ds)] ["(" +:+ disjunction hd ds +:+ ")"]).
    simpl.
    rewrite (bind_ret_run _ _ _ _ _
               (condition_alternatives_run _ _ _ _ _ _ (Hhd' _))).
    reflexivity.
Qed.

Lemma list_restriction_is_spliced_witness :
  (exists s' r,
      __and__ (E := Toy.externals) 5 0
        (VList [VDict [("id", VInt 1)]; VDict [("id", VInt 2)]]) Toy.start
      = Some (Ret r, s') /\
      where_clause (E := Toy.externals) 5 r s'
      = Some (Ret " WHERE (`id`=1) AND (`id`=2)", s')) /\
  (exists s' r,
      __and__ (E := Toy.externals) 5 0
        (VList [VList [VDict [("id", VInt 1)]; VDict [("id", VInt 2)]]]) Toy.start
      = Some (Ret r, s') /\
      where_clause (E := Toy.externals) 5 r s'
      = Some (Ret " WHERE ((`id`=1) OR (`id`=2))", s')).
Proof.
  assert (Hplain : plain_operand (E := Toy.externals) 4 (st_heap Toy.start) 0).
  { eexists. split; [ reflexivity | exact I ]. }
  destruct (list_restriction_is_spliced (E := Toy.externals) 4 Toy.start 0
              {| shape_of := Base 7 "`lab`.`a`" Toy.a_heading;
                 _restrictions := None |}
              [] Toy.a_heading [] Toy.start
              [[("id", VInt 1)]; [("id", VInt 2)]]
              eq_refl eq_refl Hplain eq_refl eq_refl)
    as [(s1 & r1 & Hrun1 & _ & Hwhere1) (s2 & r2 & Hrun2 & _ & Hwhere2)].
  split.
  - exists s1, r1. split; [ exact Hrun1 | ].
    assert (Hs : with_heap (st_heap s1) Toy.start = s1).
    { vm_compute in Hrun1. injection Hrun1 as _ <-. reflexivity. }
    rewrite Hs in Hwhere1. exact Hwhere1.
  - exists s2, r2. split; [ exact Hrun2 | ].
    assert (Hs : with_heap (st_heap s2) Toy.start = s2).
    { vm_compute in Hrun2. injection Hrun2 as _ <-. reflexivity. }
    rewrite Hs in Hwhere2. exact Hwhere2.
Defined.

(** C3, what fails as the claim stands: [a & [{'id': 1}, {'id': 2}]] has
    the two mappings as two restrictions and the clause
    [WHERE (`id`=1) AND (`id`=2)], not the disjunction of the two
    conjunctions. *)
Lemma list_restriction_counterexample :
  exists s' r,
    __and__ (E := Toy.externals) 5 0
      (VList [VDict [("id", VInt 1)]; VDict [("id", VInt 2)]]) Toy.start
    = Some (Ret r, s') /\
    restrictions_of (st_heap s') r
    = Some [VDict [("id", VInt 1)]; VDict [("id", VInt 2)]] /\
    fst <$> where_clause (E := Toy.externals) 5 r s'
    = Some (Ret " WHERE (`id`=1) AND (`id`=2)") /\
    fst <$> where_clause (E := Toy.externals) 5 r s'
    <> Some (Ret " WHERE ((`id`=1) OR (`id`=2))").
Proof.
  eexists _, _.
  split; [ vm_compute; reflexivity | ].
  split; [ reflexivity | ].
  split; [ reflexivity | ].
  vm_compute. discriminate.
Qed.

(** ** Restriction by a relation *)

Section Semijoin.
Context `{E : Externals}.

Lemma conditions_same_heap n self rs s o s1 :
  for_each (condition_with (clause n) n self) rs s = Some (o, s1) ->
  st_heap s1 = st_heap s.
Proof.
  apply (keeps_for_each same_heap); unfold same_heap; try congruence.
  intros r. apply keeps_condition_with; unfold same_heap; try congruence.
  intros k l. apply clause_same_heap.
Qed.

Lemma common_attributes_run n self r s hs hn :
  heading n (st_heap s) self = Some (Ret hs) ->
  heading n (st_heap s) r = Some (Ret hn) ->
  common_attributes n self r s = Some (Ret (common_columns hs hn), s).
Proof.
  intros Hhs Hhn. unfold common_attributes.
  rewrite (bind_ret_run _ _ _ _ _ (get_heading_run _ _ _ _ Hhs)).
  erewrite bind_ret_run.
  2:{ apply for_each_pure with
        (k := fun q => if existsb (String.eqb q) (names hn) then Some q else None).
      intros q. rewrite (bind_ret_run _ _ _ _ _ (get_heading_run _ _ _ _ Hhn)).
      reflexivity. }
  unfold common_columns.
  rewrite (omap_if_filter (fun q => existsb (String.eqb q) (names hn)) id).
  rewrite map_id. reflexivity.
Qed.

Lemma semijoin_condition_run n self negate r s hs hn f s2 w s3 :
  heading n (st_heap s) self = Some (Ret hs) ->
  heading n (st_heap s) r = Some (Ret hn) ->
  from_clause n r s = Some (Ret f, s2) ->
  where_clause n r s2 = Some (Ret w, s3) ->
  semijoin_condition (clause n) n self negate r s
  = Some (Ret ("(" +:+ common_columns hs hn +:+ ") "
                 +:+ (if negate then "not " else "")
                 +:+ "in (SELECT " +:+ common_columns hs hn
                 +:+ " FROM " +:+ f +:+ w +:+ ")"), s3).
Proof.
  intros Hhs Hhn Hf Hw. unfold semijoin_condition.
  rewrite (bind_ret_run _ _ _ _ _ (common_attributes_run _ _ _ _ _ _ Hhs Hhn)).
  rewrite (bind_ret_run _ _ _ _ _ Hf).
  rewrite (bind_ret_run _ _ _ _ _ Hw). reflexivity.
Qed.

End Semijoin.

(** C7: when the restriction list of [self] holds the relation node [other],
    possibly wrapped in [Not], the [WHERE] clause of [self] has for that
    restriction the condition
    [(common) [not ]in (SELECT common FROM <other.from_clause><other.where_clause>)],
    in parentheses and joined to the other conditions with [AND]; [common]
    lists, comma-joined, the attribute names of the heading of [self] that
    the heading of [other] has too, and [not ] is there exactly when the
    restriction was wrapped in [Not]. *)
Theorem semijoin_where_clause `{E : Externals}
    (n : nat) (s : state) (self other : loc) (hs hn : Heading)
    (pre post : list value) (negated : bool)
    (cs1 cs2 : list string) (f w : string) (s1 s2 s3 s4 : state) :
  restrictions_of (st_heap s) self
  = Some (pre ++ (if negated then VNot (VRel other) else VRel other) :: post) ->
  heading n (st_heap s) self = Some (Ret hs) ->
  heading n (st_heap s) other = Some (Ret hn) ->
  for_each (condition_with (clause n) n self) pre s = Some (Ret cs1, s1) ->
  from_clause n other s1 = Some (Ret f, s2) ->
  where_clause n other s2 = Some (Ret w, s3) ->
  for_each (condition_with (clause n) n self) post s3 = Some (Ret cs2, s4) ->
  where_clause (S n) self s
  = Some (Ret (" WHERE " +:+
               String.concat " AND "
                 (cs1 ++
                  ("(" +:+
                     ("(" +:+ common_columns hs hn +:+ ") "
                        +:+ (if negated then "not " else "")
                        +:+ "in (SELECT " +:+ common_columns hs hn
                        +:+ " FROM " +:+ f +:+ w +:+ ")")
                     +:+ ")") :: cs2)), s4).
Proof.
  intros Hrs Hhs Hhn Hpre Hf Hw Hpost.
  assert (Hheap : st_heap s1 = st_heap s)
    by (eapply conditions_same_heap; exact Hpre).
  assert (Hcond :
    condition_with (clause n) n self
      (if negated then VNot (VRel other) else VRel other) s1
    = Some (Ret ("(" +:+
                   ("(" +:+ common_columns hs hn +:+ ") "
                      +:+ (if negated then "not " else "")
                      +:+ "in (SELECT " +:+ common_columns hs hn
                      +:+ " FROM " +:+ f +:+ w +:+ ")")
                   +:+ ")"), s3)).
  { rewrite <- Hheap in Hhs, Hhn.
    pose proof (semijoin_condition_run n self negated other s1 hs hn f s2 w s3
                  Hhs Hhn Hf Hw) as Hsemi.
    destruct negated; unfold condition_with;
      rewrite (bind_ret_run _ _ _ _ _ Hsemi); reflexivity. }
  assert (Hall :
    for_each (condition_with (clause n) n self)
      (pre ++ (if negated then VNot (VRel other) else VRel other) :: post) s
    = Some (Ret (cs1 ++
                 ("(" +:+
                    ("(" +:+ common_columns hs hn +:+ ") "
                       +:+ (if negated then "not " else "")
                       +:+ "in (SELECT " +:+ common_columns hs hn
                       +:+ " FROM " +:+ f +:+ w +:+ ")")
                    +:+ ")") :: cs2), s4)).
  { eapply for_each_app_run; [ exact Hpre | ].
    simpl. rewrite (bind_ret_run _ _ _ _ _ Hcond).
    rewrite (bind_ret_run _ _ _ _ _ Hpost). reflexivity. }
  rewrite (where_clause_run _ _ _ _ _ _ Hrs Hall).
  destruct cs1; reflexivity.
Qed.

Lemma semijoin_where_clause_witness :
  where_clause (E := Toy.externals) 5 2 Toy.semijoined
  = Some (Ret (" WHERE ((id) in (SELECT id FROM `lab`.`b`))"
               +:+ " AND ((id) not in (SELECT id FROM `lab`.`b`))"),
          Toy.semijoined).
Proof.
  exact (semijoin_where_clause (E := Toy.externals) 4 Toy.semijoined 2 1
           Toy.a_heading Toy.b_heading [VRel 1] [] true
           ["((id) in (SELECT id FROM `lab`.`b`))"] [] "`lab`.`b`" ""
           Toy.semijoined Toy.semijoined Toy.semijoined Toy.semijoined
           eq_refl eq_refl eq_refl eq_refl eq_refl eq_refl eq_refl).
Defined.

(** ** Fetching one row *)

Lemma for_each_pure_In {A B} (f : A -> M B) (k : A -> B) l s :
  (forall x, In x l -> f x s = Some (Ret (k x), s)) ->
  for_each f l s = Some (Ret (map k l), s).
Proof.
  induction l as [|x l IH]; intros Hf; simpl; [ reflexivity | ].
  rewrite (bind_ret_run _ _ _ _ _ (Hf x (or_introl eq_refl))).
  rewrite (bind_ret_run _ _ s (map k l) s)
    by (apply IH; intros y Hy; apply Hf; right; exact Hy).
  reflexivity.
Qed.

Lemma heading_getitem_named hd nm :
  In nm (names hd) -> exists a, heading_getitem hd nm = Some a.
Proof.
  unfold heading_getitem, names.
  induction (attributes hd) as [|a l IH]; simpl; [ tauto | ].
  intros [Heq|Hin].
  - rewrite Heq, String.eqb_refl. eauto.
  - destruct (String.eqb (name a) nm); eauto.
Qed.

Section Fetch.
Context `{E : Externals}.

Lemma cursor_same_heap n self offset limit order_by descending as_dict :
  keeps same_heap (cursor n self offset limit order_by descending as_dict).
Proof.
  assert (Hrefl : forall s, same_heap s s) by reflexivity.
  assert (Htrans : forall s1 s2 s3,
             same_heap s1 s2 -> same_heap s2 s3 -> same_heap s1 s3)
    by (unfold same_heap; congruence).
  unfold cursor.
  destruct (negb (offset =? 0)%Z && _); [ apply keeps_raise, Hrefl | ].
  apply keeps_bind; [ exact Htrans | | intros sql ].
  { apply keeps_make_select; auto. }
  apply keeps_bind; [ exact Htrans | apply keeps_reading, Hrefl | intros c ].
  apply keeps_lift_outcome, Hrefl.
Qed.

(** The mapping built by [fetch1] from the row [r]. *)
Lemma fetched_fields_run (hd : Heading) (r : row) s :
  (forall nm, In nm (names hd) -> is_Some (row_getitem r nm)) ->
  for_each
    (fun nm =>
       match heading_getitem hd nm with
       | None => raise (KeyError nm)
       | Some a =>
           match Some r ≫= (fun r => row_getitem r nm) with
           | None => raise (KeyError nm)
           | Some v => mret (nm, if is_blob a then unpack v else v)
           end
       end)
    (names hd) s
  = Some (Ret (map (fetched_field hd r) (names hd)), s).
Proof.
  intros Hcols. apply for_each_pure_In. intros nm Hnm.
  unfold fetched_field, blob_named.
  destruct (heading_getitem_named hd nm Hnm) as [a ->].
  destruct (Hcols nm Hnm) as [v Hv]. simpl. rewrite Hv. reflexivity.
Qed.

End Fetch.

(** C6: [fetch1] answers, when the query yields exactly one row, the ordered
    mapping from the names of the heading to the fields of that row, the
    fields of blob attributes after [unpack]; when the query yields no row,
    or more than one, it raises the cardinality error.  (The rows a cursor
    yields have at least one column, and the single row has a column for
    every name of the heading.) *)
Theorem fetch1_exactly_one_row `{E : Externals}
    (n : nat) (s : state) (self : loc) (hd : Heading)
    (rows : list row) (s1 : state) :
  heading n (st_heap s) self = Some (Ret hd) ->
  cursor n self 0 None None false true s = Some (Ret rows, s1) ->
  Forall (fun r : row => r <> []) rows ->
  match rows with
  | [r] =>
      (forall nm, In nm (names hd) -> is_Some (row_getitem r nm)) ->
      fetch1 n self s
      = Some (Ret (VDict (OrderedDict (map (fetched_field hd r) (names hd)))), s1)
  | _ => fetch1 n self s = Some (Raise cardinality_error, s1)
  end.
Proof.
  intros Hhd Hcur Hrows. unfold fetch1.
  rewrite (bind_ret_run _ _ _ _ _ (get_heading_run _ _ _ _ Hhd)).
  rewrite (bind_ret_run _ _ _ _ _ Hcur).
  assert (Hheap : st_heap s1 = st_heap s)
    by (eapply cursor_same_heap; exact Hcur).
  destruct rows as [|r [|r' rows]].
  - reflexivity.
  - intros Hcols. simpl.
    destruct r as [|kv r]; [ inversion Hrows; congruence | ].
    simpl.
    rewrite <- Hheap in Hhd.
    rewrite (bind_ret_run _ _ _ _ _ (get_heading_run _ _ _ _ Hhd)).
    rewrite (bind_ret_run _ _ _ _ _ (fetched_fields_run hd (kv :: r) s1 Hcols)).
    reflexivity.
  - simpl.
    destruct r as [|kv r]; [ reflexivity | ].
    destruct r' as [|kv' r']; [ | reflexivity ].
    inversion Hrows as [|? ? _ Hrest]; subst.
    inversion Hrest; congruence.
Qed.

Lemma fetch1_exactly_one_row_witness :
  fetch1 (E := Toy.externals) 5 2 Toy.projected
  = Some (Ret (VDict [("id", VInt 1); ("value", VInt 10);
                      ("trace", VList [VStr "unpacked"; VStr "blob"])]),
          Toy.projected) /\
  fetch1 (E := Toy.externals) 5 0 Toy.start
  = Some (Raise cardinality_error, Toy.start) /\
  fetch1 (E := Toy.externals) 5 2 Toy.semijoined
  = Some (Raise cardinality_error, Toy.semijoined).
Proof.
  assert (Hcols : forall nm, In nm (names Toy.a_heading) ->
                    is_Some (row_getitem (Toy.a_row 1 10) nm)).
  { intros nm [<-|[<-|[<-|[]]]]; eexists; reflexivity. }
  assert (Hone : Forall (fun r : row => r <> []) [Toy.a_row 1 10]).
  { constructor; [ discriminate | constructor ]. }
  assert (Hthree : Forall (fun r : row => r <> [])
                     [Toy.a_row 1 10; Toy.a_row 2 20; Toy.a_row 3 30]).
  { repeat constructor; discriminate. }
  split; [ | split ].
  - exact (fetch1_exactly_one_row (E := Toy.externals) 5 Toy.projected 2
             Toy.a_heading [Toy.a_row 1 10] Toy.projected
             eq_refl eq_refl Hone Hcols).
  - exact (fetch1_exactly_one_row (E := Toy.externals) 5 Toy.start 0
             Toy.a_heading [Toy.a_row 1 10; Toy.a_row 2 20; Toy.a_row 3 30]
             Toy.start eq_refl eq_refl Hthree).
  - exact (fetch1_exactly_one_row (E := Toy.externals) 5 Toy.semijoined 2
             Toy.a_heading [] Toy.semijoined eq_refl eq_refl
             (List.Forall_nil (fun r : row => r <> []))).
Defined.

(** ** Join and aggregate *)

Section Joining.
Context `{E : Externals}.

Lemma Join__init__run n s arg1 arg2 left_ c h1 h2 rs1 :
  connection n (st_heap s) arg1 = Some c ->
  connection n (st_heap s) arg2 = Some c ->
  heading n (st_heap s) arg1 = Some (Ret h1) ->
  heading n (st_heap s) arg2 = Some (Ret h2) ->
  restrictions_of (st_heap s) arg1 = Some rs1 ->
  computed h1 = false ->
  computed h2 = true ->
  Join__init__ n arg1 (VRel arg2) left_ s
  = Some (Ret (S (length (nodes (st_heap s)))),
          with_heap (join_heap (st_heap s) arg1 left_ rs1) s).
Proof.
  intros Hc1 Hc2 Hh1 Hh2 Hrs1 Hcomp1 Hcomp2. unfold Join__init__.
  rewrite (bind_ret_run _ _ _ _ _ (get_connection_run _ _ _ _ Hc1)).
  rewrite (bind_ret_run _ _ _ _ _ (get_connection_run _ _ _ _ Hc2)).
  rewrite Nat.eqb_refl. cbn [negb].
  rewrite (bind_ret_run _ _ _ _ _ (get_heading_run _ _ _ _ Hh1)).
  rewrite Hcomp1.
  rewrite (bind_ret_run _ _ s arg1 s) by reflexivity.
  rewrite (bind_ret_run _ _ _ _ _ (get_heading_run _ _ _ _ Hh2)).
  rewrite Hcomp2.
  rewrite (bind_ret_run _ _ s (length (nodes (st_heap s)))
             (with_heap (wrap_heap (st_heap s) arg1) s)) by reflexivity.
  rewrite (bind_ret_run _ _ _ rs1 (with_heap (wrap_heap (st_heap s) arg1) s)).
  2:{ apply get_restrictions_run. simpl.
      eapply restrictions_of_le; [ apply heap_le_wrap_heap | exact Hrs1 ]. }
  rewrite (bind_ret_run _ _ _ [] (with_heap (wrap_heap (st_heap s) arg1) s)).
  2:{ apply get_restrictions_run. unfold restrictions_of. simpl.
      rewrite lookup_snoc_last. reflexivity. }
  unmonad. unfold bind, alloc_list, alloc_node. simpl.
  rewrite length_app. simpl. rewrite Nat.add_1_r.
  rewrite <- app_assoc. reflexivity.
Qed.

End Joining.

(** C1, what the code does: when the heading of [arg2] is computed (and
    that of [arg1] is not), the first child of [Join(arg1, arg2)] is [arg1]
    and the second child is a new [Subquery] that wraps [arg1], not [arg2]:
    [arg2] is not part of the join at all. *)
Theorem Join_second_child_wraps_first_operand `{E : Externals}
    (n : nat) (s : state) (arg1 arg2 : loc) (left_ : bool) (c : conn)
    (h1 h2 : Heading) (rs1 : list value) :
  connection n (st_heap s) arg1 = Some c ->
  connection n (st_heap s) arg2 = Some c ->
  heading n (st_heap s) arg1 = Some (Ret h1) ->
  heading n (st_heap s) arg2 = Some (Ret h2) ->
  restrictions_of (st_heap s) arg1 = Some rs1 ->
  computed h1 = false ->
  computed h2 = true ->
  exists s' j sub,
    Join__init__ n arg1 (VRel arg2) left_ s = Some (Ret j, s') /\
    shape_of <$> nodes (st_heap s') !! j = Some (Join arg1 sub left_) /\
    nodes (st_heap s) !! sub = None /\
    shape_of <$> nodes (st_heap s') !! sub = Some (Subquery arg1).
Proof.
  intros Hc1 Hc2 Hh1 Hh2 Hrs1 Hcomp1 Hcomp2.
  eexists _, _, (length (nodes (st_heap s))).
  split; [ eapply Join__init__run; eassumption | ].
  cbn [st_heap with_heap join_heap nodes].
  split; [ | split ].
  - rewrite lookup_app_r by lia.
    replace (S (length (nodes (st_heap s))) - length (nodes (st_heap s)))
      with 1 by lia.
    reflexivity.
  - apply lookup_ge_None_2. lia.
  - rewrite list_lookup_middle by reflexivity. reflexivity.
Qed.

Lemma Join_second_child_wraps_first_operand_witness :
  exists s',
    Join__init__ (E := Toy.externals) 5 1 (VRel 3) false Toy.projected
      = Some (Ret 5, s') /\
    shape_of <$> nodes (st_heap s') !! 5 = Some (Join 1 4 false) /\
    shape_of <$> nodes (st_heap s') !! 4 = Some (Subquery 1).
Proof.
  destruct (Join_second_child_wraps_first_operand (E := Toy.externals)
              5 Toy.projected 1 3 false 7 Toy.b_heading Toy.p_heading []
              eq_refl eq_refl eq_refl eq_refl eq_refl eq_refl eq_refl)
    as (s' & j & sub & Hrun & Hj & _ & Hsub).
  assert (Hloc : j = 5 /\ sub = 4).
  { vm_compute in Hrun. injection Hrun as <- <-.
    vm_compute in Hj. injection Hj as <-. auto. }
  destruct Hloc as [-> ->]. exists s'. auto.
Defined.

(** A group that is not a relation is refused. *)
Lemma aggregate_not_a_relation `{E : Externals} n s self group attrs renamed :
  (forall g, group <> VRel g) ->
  aggregate n self group attrs renamed s
  = Some (Raise (DataJointError "The second argument must be a relation"), s).
Proof. intros Hgroup. destruct group; try reflexivity. congruence. Qed.

(** C2, what the code does: a call of [aggregate] that does not raise has
    built [Projection(Join(self, group, left=True), ...)] in the store, and
    answers [None], not that node. *)
Theorem aggregate_answers_None `{E : Externals}
    (n : nat) (s : state) (self : loc) (group : value)
    (attrs : list string) (renamed : list (string * string))
    (v : value) (s' : state) :
  aggregate n self group attrs renamed s = Some (Ret v, s') ->
  v = VNone /\
  exists g j sj r,
    group = VRel g /\
    Join__init__ n self (VRel g) true s = Some (Ret j, sj) /\
    Projection__init__ n j attrs renamed sj = Some (Ret r, s').
Proof.
  intros Hrun. unfold aggregate in Hrun.
  destruct group as [ | | | | | | | |g]; try discriminate.
  apply bind_inv in Hrun as [(j & sj & Hjoin & Hrun)|(e & _ & [=])].
  apply bind_inv in Hrun as [(r & sr & Hproj & Hrun)|(e & _ & [=])].
  apply bind_inv in Hrun as [(hd & s2 & Hhd & Hrun)|(e & _ & [=])].
  unfold get_heading in Hhd. apply reading_inv in Hhd as [_ ->].
  apply bind_inv in Hrun as [(pk & s3 & Hpk & Hrun)|(e & _ & [=])].
  unfold primary_key in Hpk.
  apply bind_inv in Hpk as [(hd' & s4 & Hhd' & Hpk)|(e & _ & [=])].
  unfold get_heading in Hhd'. apply reading_inv in Hhd' as [_ ->].
  injection Hpk as _ <-.
  apply bind_inv in Hrun as [(u & s5 & Hset & Hrun)|(e & _ & [=])].
  unfold lift_outcome in Hset. injection Hset as _ <-.
  injection Hrun as <- <-.
  split; [ reflexivity | ]. exists g, j, sj, r. auto.
Qed.

Lemma aggregate_answers_None_witness :
  exists v s',
    aggregate (E := Toy.externals) 5 0 (VRel 1) [] [("n", "count(*)")] Toy.start
      = Some (Ret v, s') /\
    v = VNone /\
    shape_of <$> nodes (st_heap s') !! 3
      = Some (Projection 2 [] [("n", "count(*)")]) /\
    shape_of <$> nodes (st_heap s') !! 2 = Some (Join 0 1 true).
Proof.
  assert (Hrun : exists v s',
    aggregate (E := Toy.externals) 5 0 (VRel 1) [] [("n", "count(*)")] Toy.start
      = Some (Ret v, s') /\
    shape_of <$> nodes (st_heap s') !! 3
      = Some (Projection 2 [] [("n", "count(*)")]) /\
    shape_of <$> nodes (st_heap s') !! 2 = Some (Join 0 1 true)).
  { eexists _, _. vm_compute. repeat split. }
  destruct Hrun as (v & s' & Hrun & Hproj & Hjoin).
  exists v, s'. split; [ exact Hrun | split; [ | auto ] ].
  exact (proj1 (aggregate_answers_None (E := Toy.externals) 5 Toy.start 0
                  (VRel 1) [] [("n", "count(*)")] v s' Hrun)).
Defined.

(** * Further properties of the operators *)

(** ** Join *)

Section JoinFacts.
Context `{E : Externals}.

Lemma Join__init__plain_run n s arg1 arg2 left_ c h1 h2 rs1 rs2 :
  connection n (st_heap s) arg1 = Some c ->
  connection n (st_heap s) arg2 = Some c ->
  heading n (st_heap s) arg1 = Some (Ret h1) ->
  heading n (st_heap s) arg2 = Some (Ret h2) ->
  computed h1 = false ->
  computed h2 = false ->
  restrictions_of (st_heap s) arg1 = Some rs1 ->
  restrictions_of (st_heap s) arg2 = Some rs2 ->
  Join__init__ n arg1 (VRel arg2) left_ s
  = Some (Ret (length (nodes (st_heap s))),
          with_heap (joined_heap (st_heap s) arg1 arg2 left_ (rs1 ++ rs2)) s).
Proof.
  intros Hc1 Hc2 Hh1 Hh2 Hcomp1 Hcomp2 Hrs1 Hrs2. unfold Join__init__.
  rewrite (bind_ret_run _ _ _ _ _ (get_connection_run _ _ _ _ Hc1)).
  rewrite (bind_ret_run _ _ _ _ _ (get_connection_run _ _ _ _ Hc2)).
  rewrite Nat.eqb_refl. cbn [negb].
  rewrite (bind_ret_run _ _ _ _ _ (get_heading_run _ _ _ _ Hh1)).
  rewrite Hcomp1.
  rewrite (bind_ret_run _ _ s arg1 s) by reflexivity.
  rewrite (bind_ret_run _ _ _ _ _ (get_heading_run _ _ _ _ Hh2)).
  rewrite Hcomp2.
  rewrite (bind_ret_run _ _ s arg2 s) by reflexivity.
  rewrite (bind_ret_run _ _ _ _ _ (get_restrictions_run _ _ _ Hrs1)).
  rewrite (bind_ret_run _ _ _ _ _ (get_restrictions_run _ _ _ Hrs2)).
  reflexivity.
Qed.

Lemma heap_le_joined_heap h arg1 arg2 left_ rs :
  heap_le h (joined_heap h arg1 arg2 left_ rs).
Proof. split; simpl; apply prefix_app_r; reflexivity. Qed.

(** The inherited [_restrict] leaves the lists of the other nodes alone,
    unless they are the very list object of [self]. *)
Lemma restrictions_of_insert_other h p l other rs :
  restrictions_of h other = Some rs ->
  (forall nd, nodes h !! other = Some nd -> _restrictions nd <> Some p) ->
  restrictions_of {| nodes := nodes h; lists := <[p := l]> (lists h) |} other
  = Some rs.
Proof.
  unfold restrictions_of. simpl. intros Hrs Hother.
  destruct (nodes h !! other) as [nd|] eqn:Hnd; [ | discriminate ].
  simpl in *. specialize (Hother nd eq_refl).
  destruct (_restrictions nd) as [q|]; [ | exact Hrs ].
  rewrite list_lookup_insert_ne; [ exact Hrs | congruence ].
Qed.

End JoinFacts.

(** X1: [Join(arg1, arg2)], and so [arg1 * arg2], of two relations on
    different connections raises the [DataJointError] of the constructor and
    leaves the state as it was: no node is built, nothing is compiled.  An
    operand [arg2] that is not a relation is refused in the same way. *)
Theorem Join_rejects_other_connection `{E : Externals}
    (n : nat) (s : state) (arg1 arg2 : loc) (left_ : bool) (c1 c2 : conn) :
  connection n (st_heap s) arg1 = Some c1 ->
  connection n (st_heap s) arg2 = Some c2 ->
  c1 <> c2 ->
  Join__init__ n arg1 (VRel arg2) left_ s
  = Some (Raise (DataJointError
                   "Cannot join relations with different database connections"), s) /\
  __mul__ n arg1 (VRel arg2) s
  = Some (Raise (DataJointError
                   "Cannot join relations with different database connections"), s) /\
  forall other, (forall l, other <> VRel l) ->
    Join__init__ n arg1 other left_ s
    = Some (Raise (DataJointError
                     "a relation can only be joined with another relation"), s).
Proof.
  intros Hc1 Hc2 Hne.
  assert (Hrun : forall lf,
    Join__init__ n arg1 (VRel arg2) lf s
    = Some (Raise (DataJointError
                     "Cannot join relations with different database connections"), s)).
  { intros lf. unfold Join__init__.
    rewrite (bind_ret_run _ _ _ _ _ (get_connection_run _ _ _ _ Hc1)).
    rewrite (bind_ret_run _ _ _ _ _ (get_connection_run _ _ _ _ Hc2)).
    apply Nat.eqb_neq in Hne. rewrite Hne. reflexivity. }
  split; [ apply Hrun | split; [ apply Hrun | ] ].
  intros other Hother. destruct other; try reflexivity. congruence.
Qed.

Lemma Join_rejects_other_connection_witness :
  __mul__ (E := Toy.externals) 3 0 (VRel 1) Toy2.apart
  = Some (Raise (DataJointError
                   "Cannot join relations with different database connections"),
          Toy2.apart).
Proof.
  assert (Hne : 7 <> 8) by discriminate.
  exact (proj1 (proj2 (Join_rejects_other_connection (E := Toy.externals)
                         3 Toy2.apart 0 1 false 7 8 eq_refl eq_refl Hne))).
Defined.

(** X2: the join of two relations on one connection whose headings are not
    computed is a new node with the two operands as children; its
    restriction list is a new list object, the restrictions of the first
    operand followed by those of the second; its connection is theirs, and
    its [FROM] clause is [<arg1> NATURAL [LEFT ]JOIN <arg2>]. *)
Theorem Join_of_plain_operands `{E : Externals}
    (n : nat) (s : state) (arg1 arg2 : loc) (left_ : bool) (c : conn)
    (h1 h2 : Heading) (rs1 rs2 : list value) :
  connection n (st_heap s) arg1 = Some c ->
  connection n (st_heap s) arg2 = Some c ->
  heading n (st_heap s) arg1 = Some (Ret h1) ->
  heading n (st_heap s) arg2 = Some (Ret h2) ->
  computed h1 = false ->
  computed h2 = false ->
  restrictions_of (st_heap s) arg1 = Some rs1 ->
  restrictions_of (st_heap s) arg2 = Some rs2 ->
  exists s' j p,
    Join__init__ n arg1 (VRel arg2) left_ s = Some (Ret j, s') /\
    nodes (st_heap s) !! j = None /\
    nodes (st_heap s') !! j
    = Some {| shape_of := Join arg1 arg2 left_; _restrictions := Some p |} /\
    lists (st_heap s) !! p = None /\
    lists (st_heap s') !! p = Some (rs1 ++ rs2) /\
    heap_le (st_heap s) (st_heap s') /\
    connection (S n) (st_heap s') j = Some c /\
    forall m t f1 t1 f2 t2,
      st_heap t = st_heap s' ->
      from_clause m arg1 t = Some (Ret f1, t1) ->
      from_clause m arg2 t1 = Some (Ret f2, t2) ->
      from_clause (S m) j t = Some (Ret (join_text f1 f2 left_), t2).
Proof.
  intros Hc1 Hc2 Hh1 Hh2 Hcomp1 Hcomp2 Hrs1 Hrs2.
  eexists _, _, _.
  split; [ eapply Join__init__plain_run; eassumption | ].
  cbn [st_heap with_heap].
  assert (Hj : nodes (joined_heap (st_heap s) arg1 arg2 left_ (rs1 ++ rs2))
                 !! length (nodes (st_heap s))
               = Some {| shape_of := Join arg1 arg2 left_;
                         _restrictions := Some (length (lists (st_heap s))) |})
    by apply lookup_snoc_last.
  split; [ apply lookup_ge_None_2; lia | ].
  split; [ exact Hj | ].
  split; [ apply lookup_ge_None_2; lia | ].
  split; [ apply lookup_snoc_last | ].
  split; [ apply heap_le_joined_heap | ].
  split.
  - simpl connection. rewrite lookup_snoc_last. simpl.
    eapply connection_alike; [ apply heap_le_joined_heap | | exact Hc1 ].
    apply alike_refl, heap_le_joined_heap.
  - intros m t f1 t1 f2 t2 Ht Hf1 Hf2. unfold from_clause. simpl.
    rewrite (bind_ret_run _ _ t _ t)
      by (apply read_node_run; rewrite Ht; exact Hj).
    cbn [shape_of].
    rewrite (bind_ret_run _ _ _ _ _ Hf1).
    rewrite (bind_ret_run _ _ _ _ _ Hf2). reflexivity.
Qed.

Lemma Join_of_plain_operands_witness :
  exists s',
    Join__init__ (E := Toy.externals) 3 0 (VRel 1) true Toy2.restricted
    = Some (Ret 2, s') /\
    restrictions_of (st_heap s') 2
    = Some [VDict [("id", VInt 1)]; VDict [("session", VInt 2)]] /\
    from_clause (E := Toy.externals) 3 2 s'
    = Some (Ret "`lab`.`a` NATURAL LEFT JOIN `lab`.`b`", s').
Proof.
  destruct (Join_of_plain_operands (E := Toy.externals) 3 Toy2.restricted 0 1 true
              7 Toy.a_heading Toy.b_heading
              [VDict [("id", VInt 1)]] [VDict [("session", VInt 2)]]
              eq_refl eq_refl eq_refl eq_refl eq_refl eq_refl eq_refl eq_refl)
    as (s' & j & p & Hrun & _ & Hj & _ & Hp & _ & _ & Hfrom).
  assert (Hloc : j = 2) by (vm_compute in Hrun; congruence). subst j.
  exists s'. split; [ exact Hrun | split ].
  - unfold restrictions_of. rewrite Hj. simpl. exact Hp.
  - apply (Hfrom 2 s' "`lab`.`a`" s' "`lab`.`b`" s' eq_refl).
    + vm_compute in Hrun. injection Hrun as <-. reflexivity.
    + vm_compute in Hrun. injection Hrun as <-. reflexivity.
Defined.

(** ** Who shares a restriction list *)

Section Sharing.
Context `{E : Externals}.

Lemma pointer_is_old h a nd q :
  is_Some (restrictions_of h a) ->
  nodes h !! a = Some nd -> _restrictions nd = Some q ->
  q < length (lists h).
Proof.
  unfold restrictions_of. intros [rs Hrs] Hnd Hq.
  rewrite Hnd in Hrs. simpl in Hrs. rewrite Hq in Hrs.
  eapply lookup_lt_Some, Hrs.
Qed.

(** The inherited in-place restriction of a node whose list object is the
    newest list of the store. *)
Lemma iand_newest_list n self restriction s nd rs :
  nodes (st_heap s) !! self = Some nd ->
  (match shape_of nd with Projection _ _ _ => False | _ => True end) ->
  _restrictions nd = Some (length (lists (st_heap s)) - 1) ->
  lists (st_heap s) !! (length (lists (st_heap s)) - 1) = Some rs ->
  exists s',
    __iand__ (S n) self restriction s = Some (Ret self, s') /\
    restrictions_of (st_heap s') self = Some (restrict_list rs restriction) /\
    forall other rso,
      restrictions_of (st_heap s) other = Some rso ->
      (forall ndo, nodes (st_heap s) !! other = Some ndo ->
                   _restrictions ndo <> Some (length (lists (st_heap s)) - 1)) ->
      restrictions_of (st_heap s') other = Some rso.
Proof.
  intros Hnd Hshape Hp Hrs. unfold __iand__.
  rewrite restrict_plain
    by (exists nd; split; [ exact Hnd | destruct (shape_of nd); tauto ]).
  destruct (value_None_or restriction) as [->|Hnone].
  - exists s. split; [ reflexivity | ]. simpl. split; [ | auto ].
    unfold restrictions_of. rewrite Hnd. simpl. rewrite Hp. exact Hrs.
  - eexists. split; [ eapply RelationalOperand_restrict_shared; eassumption | ].
    cbn [st_heap with_heap]. split.
    + unfold restrictions_of. simpl. rewrite Hnd. simpl. rewrite Hp.
      apply list_lookup_insert_eq. eapply lookup_lt_Some, Hrs.
    + intros other rso Hrso Hother.
      apply restrictions_of_insert_other; assumption.
Qed.

Lemma Projection__init__shared_run n s arg attrs renamed_attributes
    kept renamed nd ha p :
  parse_attributes attrs [] renamed_attributes = (kept, renamed) ->
  nodes (st_heap s) !! arg = Some nd ->
  heading n (st_heap s) arg = Some (Ret ha) ->
  computed ha = false ->
  _restrictions nd = Some p ->
  Projection__init__ n arg attrs renamed_attributes s
  = Some (Ret (length (nodes (st_heap s))),
          with_heap
            {| nodes := nodes (st_heap s) ++
                 [ {| shape_of := Projection arg kept renamed;
                      _restrictions := Some p |} ];
               lists := lists (st_heap s) |} s).
Proof.
  intros Hparse Hnd Hha Hcomp Hp. unfold Projection__init__.
  rewrite Hparse.
  rewrite (bind_ret_run _ _ _ _ _ (get_heading_run _ _ _ _ Hha)).
  rewrite Hcomp. unfold restrictions_object.
  rewrite (bind_ret_run _ _ s p s).
  2:{ rewrite (bind_ret_run _ _ _ _ _ (read_node_run _ _ _ Hnd)).
      rewrite Hp. reflexivity. }
  reflexivity.
Qed.

Lemma Projection__init__fresh_run n s arg attrs renamed_attributes
    kept renamed nd ha :
  parse_attributes attrs [] renamed_attributes = (kept, renamed) ->
  nodes (st_heap s) !! arg = Some nd ->
  heading n (st_heap s) arg = Some (Ret ha) ->
  computed ha = false ->
  _restrictions nd = None ->
  Projection__init__ n arg attrs renamed_attributes s
  = Some (Ret (length (nodes (st_heap s))),
          with_heap
            {| nodes := nodes (st_heap s) ++
                 [ {| shape_of := Projection arg kept renamed;
                      _restrictions := Some (length (lists (st_heap s))) |} ];
               lists := lists (st_heap s) ++ [[]] |} s).
Proof.
  intros Hparse Hnd Hha Hcomp Hp. unfold Projection__init__.
  rewrite Hparse.
  rewrite (bind_ret_run _ _ _ _ _ (get_heading_run _ _ _ _ Hha)).
  rewrite Hcomp. unfold restrictions_object.
  rewrite (bind_ret_run _ _ s (length (lists (st_heap s)))
             (with_heap {| nodes := nodes (st_heap s);
                           lists := lists (st_heap s) ++ [[]] |} s)).
  2:{ rewrite (bind_ret_run _ _ _ _ _ (read_node_run _ _ _ Hnd)).
      rewrite Hp. reflexivity. }
  reflexivity.
Qed.

(** The heading of a projection that was just built. *)
Lemma heading_of_new_projection n h h' arg kept renamed q ha o :
  heap_le h h' ->
  nodes h' !! q = Some {| shape_of := Projection arg kept renamed;
                          _restrictions := o |} ->
  heading n h arg = Some (Ret ha) ->
  heading (S n) h' q = Some (heading_project ha kept renamed).
Proof.
  intros Hle Hq Hha. simpl. rewrite Hq. simpl.
  rewrite (heading_alike h h' Hle n arg arg _ (alike_refl h h' Hle arg) Hha).
  reflexivity.
Qed.

End Sharing.

(** X3: restricting a join in place does not restrict its operands.  The
    list of [Join(arg1, arg2)] (no heading computed) is an object of its
    own, so after [j &= restriction] the restriction lists of [arg1] and of
    [arg2] have the contents they had. *)
Theorem Join_restriction_is_its_own `{E : Externals}
    (n k : nat) (s : state) (arg1 arg2 : loc) (left_ : bool) (c : conn)
    (h1 h2 : Heading) (rs1 rs2 : list value) (restriction : value) :
  connection n (st_heap s) arg1 = Some c ->
  connection n (st_heap s) arg2 = Some c ->
  heading n (st_heap s) arg1 = Some (Ret h1) ->
  heading n (st_heap s) arg2 = Some (Ret h2) ->
  computed h1 = false ->
  computed h2 = false ->
  restrictions_of (st_heap s) arg1 = Some rs1 ->
  restrictions_of (st_heap s) arg2 = Some rs2 ->
  exists s1 j s2,
    Join__init__ n arg1 (VRel arg2) left_ s = Some (Ret j, s1) /\
    __iand__ (S k) j restriction s1 = Some (Ret j, s2) /\
    restrictions_of (st_heap s2) j
    = Some (restrict_list (rs1 ++ rs2) restriction) /\
    restrictions_of (st_heap s2) arg1 = Some rs1 /\
    restrictions_of (st_heap s2) arg2 = Some rs2.
Proof.
  intros Hc1 Hc2 Hh1 Hh2 Hcomp1 Hcomp2 Hrs1 Hrs2.
  set (h := st_heap s).
  set (hj := joined_heap h arg1 arg2 left_ (rs1 ++ rs2)).
  assert (Hle : heap_le h hj) by apply heap_le_joined_heap.
  assert (Hlast : length (lists hj) - 1 = length (lists h)).
  { unfold hj. simpl. rewrite length_app. simpl. lia. }
  destruct (iand_newest_list k (length (nodes h)) restriction (with_heap hj s)
              {| shape_of := Join arg1 arg2 left_;
                 _restrictions := Some (length (lists h)) |} (rs1 ++ rs2))
    as (s2 & Hiand & Hj & Hothers).
  { apply lookup_snoc_last. }
  { exact I. }
  { cbn [st_heap with_heap _restrictions]. rewrite Hlast. reflexivity. }
  { cbn [st_heap with_heap]. rewrite Hlast. apply lookup_snoc_last. }
  exists (with_heap hj s), (length (nodes h)), s2.
  split; [ eapply Join__init__plain_run; eassumption | ].
  split; [ exact Hiand | split; [ exact Hj | ] ].
  assert (Hold : forall a rs, restrictions_of h a = Some rs ->
            restrictions_of (st_heap s2) a = Some rs).
  { intros a rs Hrs. apply Hothers.
    - cbn [st_heap with_heap]. eapply restrictions_of_le; eassumption.
    - cbn [st_heap with_heap]. rewrite Hlast. intros ndo Hndo Hq.
      assert (Hnda : exists nda, nodes h !! a = Some nda).
      { unfold restrictions_of in Hrs.
        destruct (nodes h !! a) as [nda|]; [ eauto | discriminate ]. }
      destruct Hnda as [nda Hnda].
      rewrite (nodes_le h hj Hle _ _ Hnda) in Hndo. injection Hndo as <-.
      pose proof (pointer_is_old h a nda _ (ex_intro _ rs Hrs) Hnda Hq).
      lia. }
  split; apply Hold; assumption.
Qed.

Lemma Join_restriction_is_its_own_witness :
  exists s1 j s2,
    Join__init__ (E := Toy.externals) 3 0 (VRel 1) false Toy2.restricted
    = Some (Ret j, s1) /\
    __iand__ (E := Toy.externals) 1 j (VDict [("value", VInt 10)]) s1
    = Some (Ret j, s2) /\
    restrictions_of (st_heap s2) j
    = Some [VDict [("id", VInt 1)]; VDict [("session", VInt 2)];
            VDict [("value", VInt 10)]] /\
    restrictions_of (st_heap s2) 0 = Some [VDict [("id", VInt 1)]] /\
    restrictions_of (st_heap s2) 1 = Some [VDict [("session", VInt 2)]].
Proof.
  exact (Join_restriction_is_its_own (E := Toy.externals) 3 0 Toy2.restricted
           0 1 false 7 Toy.a_heading Toy.b_heading
           [VDict [("id", VInt 1)]] [VDict [("session", VInt 2)]]
           (VDict [("value", VInt 10)])
           eq_refl eq_refl eq_refl eq_refl eq_refl eq_refl eq_refl eq_refl).
Defined.

(** X4: a projection whose heading and whose argument's heading are not
    computed takes the restriction list object of its argument, when the
    argument has one: restricting the projection in place then restricts the
    argument as well.  When the argument has no list object yet, the
    projection gets a new empty list, and restricting the projection leaves
    the argument unrestricted. *)
Theorem Projection_shares_the_list `{E : Externals}
    (n : nat) (s : state) (arg : loc) (nd : node)
    (attrs : list string) (renamed_attributes : list (string * string))
    (kept : list string) (renamed : list (string * string))
    (ha hp : Heading) (rs : list value) (restriction : value) :
  parse_attributes attrs [] renamed_attributes = (kept, renamed) ->
  nodes (st_heap s) !! arg = Some nd ->
  restrictions_of (st_heap s) arg = Some rs ->
  heading n (st_heap s) arg = Some (Ret ha) ->
  computed ha = false ->
  heading_project ha kept renamed = Ret hp ->
  computed hp = false ->
  exists s1 q s2,
    project n arg attrs renamed_attributes s = Some (Ret q, s1) /\
    nodes (st_heap s) !! q = None /\
    shape_of <$> nodes (st_heap s1) !! q = Some (Projection arg kept renamed) /\
    __iand__ (S (S n)) q restriction s1 = Some (Ret q, s2) /\
    restrictions_of (st_heap s2) q = Some (restrict_list rs restriction) /\
    restrictions_of (st_heap s2) arg
    = Some (match _restrictions nd with
            | Some _ => restrict_list rs restriction
            | None => rs
            end).
Proof.
  intros Hparse Hnd Hrs Hha Hcomp Hhp Hcompp.
  set (h := st_heap s) in *. unfold project.
  destruct (_restrictions nd) as [p|] eqn:Hp.
  - set (h1 := {| nodes := nodes h ++
                    [ {| shape_of := Projection arg kept renamed;
                         _restrictions := Some p |} ];
                  lists := lists h |}).
    assert (Hle : heap_le h h1).
    { split; simpl; [ apply prefix_app_r | ]; reflexivity. }
    assert (Hq : nodes h1 !! length (nodes h)
                 = Some {| shape_of := Projection arg kept renamed;
                           _restrictions := Some p |})
      by apply lookup_snoc_last.
    assert (Hold : lists h !! p = Some rs).
    { unfold restrictions_of in Hrs. rewrite Hnd in Hrs.
      simpl in Hrs. rewrite Hp in Hrs. exact Hrs. }
    assert (Hplain : plain_operand (S n) h1 (length (nodes h))).
    { eexists. split; [ exact Hq | ]. cbn [shape_of]. exists hp.
      split; [ | exact Hcompp ].
      rewrite (heading_of_new_projection n h h1 arg kept renamed _ ha _ Hle Hq Hha).
      rewrite Hhp. reflexivity. }
    destruct (iand_plain_run (S n) (length (nodes h)) restriction (with_heap h1 s)
                _ rs Hq) as (s2 & Hiand & Hrsq & _ & _ & Hsame).
    { unfold restrictions_of. cbn [st_heap with_heap]. rewrite Hq. exact Hold. }
    { exact Hplain. }
    exists (with_heap h1 s), (length (nodes h)), s2.
    split; [ eapply Projection__init__shared_run; eassumption | ].
    split; [ apply lookup_ge_None_2; lia | ].
    split; [ cbn [st_heap with_heap]; rewrite Hq; reflexivity | ].
    split; [ exact Hiand | split; [ exact Hrsq | ] ].
    destruct (Hsame p eq_refl) as (nd' & Hnd' & _ & Hlist).
    assert (Harg : nodes (st_heap s2) !! arg = Some nd).
    { destruct (value_None_or restriction) as [->|Hnone].
      - unfold __iand__ in Hiand. rewrite restrict_plain in Hiand by exact Hplain.
        injection Hiand as <-. apply (nodes_le h h1 Hle), Hnd.
      - unfold __iand__ in Hiand. rewrite restrict_plain in Hiand by exact Hplain.
        erewrite RelationalOperand_restrict_shared in Hiand;
          [ | exact Hnone | exact Hq | reflexivity | exact Hold ].
        injection Hiand as <-. apply (nodes_le h h1 Hle), Hnd. }
    unfold restrictions_of. rewrite Harg. simpl. rewrite Hp. exact Hlist.
  - assert (rs = []) as ->.
    { unfold restrictions_of in Hrs. rewrite Hnd in Hrs.
      simpl in Hrs. rewrite Hp in Hrs. congruence. }
    set (h1 := {| nodes := nodes h ++
                    [ {| shape_of := Projection arg kept renamed;
                         _restrictions := Some (length (lists h)) |} ];
                  lists := lists h ++ [[]] |}).
    assert (Hle : heap_le h h1).
    { split; simpl; apply prefix_app_r; reflexivity. }
    assert (Hq : nodes h1 !! length (nodes h)
                 = Some {| shape_of := Projection arg kept renamed;
                           _restrictions := Some (length (lists h)) |})
      by apply lookup_snoc_last.
    assert (Hplain : plain_operand (S n) h1 (length (nodes h))).
    { eexists. split; [ exact Hq | ]. cbn [shape_of]. exists hp.
      split; [ | exact Hcompp ].
      rewrite (heading_of_new_projection n h h1 arg kept renamed _ ha _ Hle Hq Hha).
      rewrite Hhp. reflexivity. }
    assert (Hnew : lists h1 !! length (lists h) = Some [])
      by apply lookup_snoc_last.
    exists (with_heap h1 s), (length (nodes h)).
    assert (Hrun : exists s2,
      __iand__ (S (S n)) (length (nodes h)) restriction (with_heap h1 s)
      = Some (Ret (length (nodes h)), s2) /\
      restrictions_of (st_heap s2) (length (nodes h))
      = Some (restrict_list [] restriction) /\
      restrictions_of (st_heap s2) arg = Some []).
    { unfold __iand__. rewrite restrict_plain by exact Hplain.
      destruct (value_None_or restriction) as [->|Hnone].
      - exists (with_heap h1 s). split; [ reflexivity | ].
        cbn [st_heap with_heap]. split.
        + unfold restrictions_of. rewrite Hq. exact Hnew.
        + eapply restrictions_of_le; [ exact Hle | exact Hrs ].
      - eexists. split.
        { eapply RelationalOperand_restrict_shared;
            [ exact Hnone | exact Hq | reflexivity | exact Hnew ]. }
        cbn [st_heap with_heap]. split.
        + unfold restrictions_of. cbn [nodes lists]. rewrite Hq.
          cbn [mbind option_bind _restrictions].
          apply list_lookup_insert_eq. eapply lookup_lt_Some, Hnew.
        + unfold restrictions_of. cbn [nodes lists].
          rewrite (nodes_le h h1 Hle _ _ Hnd). simpl. rewrite Hp. reflexivity. }
    destruct Hrun as (s2 & Hiand & Hrsq & Hrsa).
    exists s2.
    split; [ eapply Projection__init__fresh_run; eassumption | ].
    split; [ apply lookup_ge_None_2; lia | ].
    split; [ cbn [st_heap with_heap]; rewrite Hq; reflexivity | ].
    auto.
Qed.

Lemma Projection_shares_the_list_witness :
  exists s1 q s2,
    project (E := Toy.externals) 3 0 ["value"] [] Toy2.restricted = Some (Ret q, s1) /\
    __iand__ (E := Toy.externals) 5 q (VDict [("value", VInt 10)]) s1
    = Some (Ret q, s2) /\
    restrictions_of (st_heap s2) 0
    = Some [VDict [("id", VInt 1)]; VDict [("value", VInt 10)]].
Proof.
  destruct (Projection_shares_the_list (E := Toy.externals) 3 Toy2.restricted 0
              {| shape_of := Base 7 "`lab`.`a`" Toy.a_heading;
                 _restrictions := Some 0 |}
              ["value"] [] ["value"] [] Toy.a_heading
              {| attributes :=
                   [ {| name := "id"; in_key := true; is_blob := false |};
                     {| name := "value"; in_key := false; is_blob := false |} ];
                 computed := false |}
              [VDict [("id", VInt 1)]] (VDict [("value", VInt 10)])
              eq_refl eq_refl eq_refl eq_refl eq_refl eq_refl eq_refl)
    as (s1 & q & s2 & Hproj & _ & _ & Hiand & _ & Harg).
  exists s1, q, s2. auto.
Defined.

(** ** The attributes of a projection *)

Lemma assoc_app k d1 d2 :
  assoc k (d1 ++ d2)
  = match assoc k d1 with Some v => Some v | None => assoc k d2 end.
Proof.
  unfold assoc. induction d1 as [|[k' v'] d1 IH]; simpl; [ reflexivity | ].
  destruct (String.eqb k' k); [ reflexivity | exact IH ].
Qed.

Lemma assoc_dict_update k' d k v :
  assoc k' (dict_update d k v)
  = if String.eqb k k' then Some v else assoc k' d.
Proof.
  unfold assoc. induction d as [|[k0 v0] d IH]; simpl.
  - destruct (String.eqb k k'); reflexivity.
  - destruct (String.eqb k0 k) eqn:Hk0; simpl.
    + apply String.eqb_eq in Hk0. subst k0.
      destruct (String.eqb k k'); reflexivity.
    + destruct (String.eqb k0 k') eqn:Hk0'; simpl.
      * apply String.eqb_eq in Hk0'. subst k0.
        rewrite String.eqb_sym, Hk0. reflexivity.
      * exact IH.
Qed.

(** X5: the loop of [Projection.__init__] over the positional attributes
    keeps, in their order, exactly the attributes that the pattern
    [expression -> alias] does not match; every alias ends up in the renamed
    mapping with the expression of its last occurrence, and the names given
    by keyword keep their expression unless an alias of the same name
    replaces it. *)
Theorem parse_attributes_sorts `{E : Externals}
    (attrs kept : list string) (renamed : list (string * string)) :
  (parse_attributes attrs kept renamed).1
  = kept ++ List.filter plain_attribute attrs /\
  forall alias,
    assoc alias (parse_attributes attrs kept renamed).2
    = match assoc alias (rev (omap alias_parser_match attrs)) with
      | Some sql_expression => Some sql_expression
      | None => assoc alias renamed
      end.
Proof.
  revert kept renamed.
  induction attrs as [|attribute attrs IH]; intros kept renamed.
  - simpl. rewrite app_nil_r. auto.
  - assert (Homap :
      omap alias_parser_match (attribute :: attrs)
      = match alias_parser_match attribute with
        | Some y => y :: omap alias_parser_match attrs
        | None => omap alias_parser_match attrs
        end) by reflexivity.
    rewrite Homap. clear Homap.
    cbn [parse_attributes List.filter]. unfold plain_attribute at 1.
    destruct (alias_parser_match attribute) as [[al ex]|] eqn:Hmatch.
    + destruct (IH kept (dict_update renamed al ex)) as [Hkept Hren].
      split; [ exact Hkept | ].
      intros alias. rewrite Hren. cbn [rev].
      rewrite assoc_app, assoc_dict_update.
      destruct (assoc alias (rev (omap alias_parser_match attrs)));
        [ reflexivity | ].
      unfold assoc. simpl. destruct (String.eqb al alias); reflexivity.
    + destruct (IH (kept ++ [attribute]) renamed) as [Hkept Hren].
      split.
      * rewrite Hkept, <- app_assoc. reflexivity.
      * intros alias. rewrite Hren. reflexivity.
Qed.

(** ** Conditions of restricted copies *)

Lemma for_each_app_raise {A B} (f : A -> M B) l1 l2 s a s1 e s2 :
  for_each f l1 s = Some (Ret a, s1) ->
  for_each f l2 s1 = Some (Raise e, s2) ->
  for_each f (l1 ++ l2) s = Some (Raise e, s2).
Proof.
  revert s a. induction l1 as [|x l1 IH]; intros s a H1 H2.
  - injection H1 as <- <-. exact H2.
  - simpl in H1.
    apply bind_inv in H1 as [(y & t & Hy & H1)|(e' & _ & [=])].
    apply bind_inv in H1 as [(ys & t' & Hys & H1)|(e' & _ & [=])].
    injection H1 as <- <-. simpl.
    rewrite (bind_ret_run _ _ _ _ _ Hy).
    rewrite (bind_raise_run _ _ _ _ _ (IH _ _ Hys H2)). reflexivity.
Qed.

Section Restricted.
Context `{E : Externals}.

Lemma where_clause_raise_run n self s rs e s1 :
  restrictions_of (st_heap s) self = Some rs ->
  for_each (condition_with (clause n) n self) rs s = Some (Raise e, s1) ->
  where_clause (S n) self s = Some (Raise e, s1).
Proof.
  intros Hrs Hcs. unfold where_clause. simpl.
  rewrite (bind_ret_run _ _ _ _ _ (get_restrictions_run _ _ _ Hrs)).
  destruct rs as [|r rs]; [ discriminate | ].
  rewrite (bind_raise_run _ _ _ _ _ Hcs). reflexivity.
Qed.

(** The [WHERE] clause of [self & restriction], from the conditions [cs] of
    [self] and the outcome [o] of compiling what the restriction adds. *)
Lemma where_clause_of_and n s self nd rs cs s1 restriction extra o t :
  nodes (st_heap s) !! self = Some nd ->
  restrictions_of (st_heap s) self = Some rs ->
  plain_operand n (st_heap s) self ->
  for_each (condition_with (clause n) n self) rs s = Some (Ret cs, s1) ->
  restrict_list rs restriction = rs ++ extra ->
  for_each (condition_with (clause n) n (length (nodes (st_heap s)))) extra
    (with_heap (and_heap (st_heap s) nd (rs ++ extra)) s1) = Some (o, t) ->
  __and__ (S n) self restriction s
  = Some (Ret (length (nodes (st_heap s))),
          with_heap (and_heap (st_heap s) nd (rs ++ extra)) s) /\
  where_clause (S n) (length (nodes (st_heap s)))
    (with_heap (and_heap (st_heap s) nd (rs ++ extra)) s)
  = Some (match o with
          | Ret more => Ret (where_text (cs ++ more))
          | Raise e => Raise e
          end, t).
Proof.
  intros Hnd Hrs Hplain Hcs Hlist Hextra.
  split.
  { rewrite <- Hlist. apply and_plain_run; assumption. }
  destruct (conditions_of_copy n (st_heap s)
              (and_heap (st_heap s) nd (rs ++ extra))
              self (length (nodes (st_heap s))) rs s cs s1) as [_ Hold];
    [ apply heap_le_and_heap | apply alike_and_heap, Hnd
    | reflexivity | exact Hcs | ].
  destruct o as [more|e].
  - eapply where_clause_run; [ apply restrictions_of_and_heap | ].
    eapply for_each_app_run; [ exact Hold | exact Hextra ].
  - eapply where_clause_raise_run; [ apply restrictions_of_and_heap | ].
    eapply for_each_app_raise; [ exact Hold | exact Hextra ].
Qed.

(** The heading of the copy made by [&]. *)
Lemma heading_of_copy n s self nd rs' s1 o :
  nodes (st_heap s) !! self = Some nd ->
  heading n (st_heap s) self = Some o ->
  heading n (st_heap (with_heap (and_heap (st_heap s) nd rs') s1))
    (length (nodes (st_heap s))) = Some o.
Proof.
  intros Hnd Hhd. cbn [st_heap with_heap].
  eapply heading_alike; [ apply heap_le_and_heap | | exact Hhd ].
  apply alike_and_heap, Hnd.
Qed.

(** The condition for the negation of a sequence of mappings. *)
Lemma condition_not_alternatives_run cl n self ds s hd :
  heading n (st_heap s) self = Some (Ret hd) ->
  condition_with cl n self (VNot (VList (map VDict ds))) s
  = Some (Ret ("not (" +:+ disjunction hd ds +:+ ")"), s).
Proof.
  intros Hhd. unfold condition_with, alternatives.
  erewrite bind_ret_run.
  2:{ erewrite bind_ret_run; [ reflexivity | ].
      apply for_each_pure_map with (k := conjunction hd).
      intros d. apply make_condition_dict_run, Hhd. }
  reflexivity.
Qed.

End Restricted.

(** X6: for a restriction that is a mapping, a record, a sequence or a
    string, the condition of its negation is the condition of the
    restriction itself with [not ] in front; compiling it reads and raises
    the same. *)
Theorem negation_prefixes_not `{E : Externals}
    (cl : clause_kind -> loc -> M string) (n : nat) (self : loc)
    (r : value) (s : state) :
  negatable r ->
  condition_with cl n self (VNot r) s
  = match condition_with cl n self r s with
    | Some (Ret c, s') => Some (Ret ("not " +:+ c), s')
    | other => other
    end.
Proof.
  intros Hneg. unfold condition_with.
  destruct r as [ |z|sql|items|elems|fields|elems|r|l];
    try contradiction; unmonad; unfold bind.
  - reflexivity.
  - destruct (make_condition n self (VDict items) s) as [[[c|e] s']|]; reflexivity.
  - destruct (alternatives n self elems s) as [[[c|e] s']|]; reflexivity.
  - destruct (make_condition n self (VVoid fields) s) as [[[c|e] s']|]; reflexivity.
  - destruct (alternatives n self elems s) as [[[c|e] s']|]; reflexivity.
Qed.

Lemma negation_prefixes_not_witness :
  condition_with (E := Toy.externals) (clause (E := Toy.externals) 3) 3 0
    (VNot (VDict [("id", VInt 1); ("value", VInt 10)])) Toy.start
  = Some (Ret "not (`id`=1 AND `value`=10)", Toy.start).
Proof.
  exact (negation_prefixes_not (E := Toy.externals) (clause (E := Toy.externals) 3) 3 0
           (VDict [("id", VInt 1); ("value", VInt 10)]) Toy.start I).
Defined.

(** X7: on a relation whose [_restrict] is the inherited one (every node
    but a [Projection] with a computed heading), a value that is no
    restriction (an integer, [Not(None)], a negation of a negation) is taken
    by [&] like any restriction: the copy is built and holds it.  The error
    comes when the [WHERE] clause of the copy is compiled, as the assertion
    error of [where_clause].  So [self - None] is not neutral, where
    [self & None] is. *)
Theorem unsupported_restriction_fails_late `{E : Externals}
    (n : nat) (s : state) (self : loc) (nd : node) (rs : list value)
    (cs : list string) (s1 : state) (restriction : value) :
  nodes (st_heap s) !! self = Some nd ->
  restrictions_of (st_heap s) self = Some rs ->
  plain_operand n (st_heap s) self ->
  for_each (condition_with (clause n) n self) rs s = Some (Ret cs, s1) ->
  unsupported restriction ->
  exists s' r,
    __and__ (S n) self restriction s = Some (Ret r, s') /\
    restrictions_of (st_heap s') r = Some (rs ++ [restriction]) /\
    where_clause (S n) r s' = Some (Raise not_a_string, with_heap (st_heap s') s1).
Proof.
  intros Hnd Hrs Hplain Hcs Hbad.
  destruct (where_clause_of_and n s self nd rs cs s1 restriction [restriction]
              (Raise not_a_string)
              (with_heap (and_heap (st_heap s) nd (rs ++ [restriction])) s1)
              Hnd Hrs Hplain Hcs) as [Hand Hwhere].
  - destruct restriction; try contradiction; reflexivity.
  - destruct restriction as [ | | | | | | |r| ]; try contradiction.
    + reflexivity.
    + destruct r; try contradiction; reflexivity.
  - eexists _, _. split; [ exact Hand | ].
    split; [ apply restrictions_of_and_heap | exact Hwhere ].
Qed.

Lemma unsupported_restriction_fails_late_witness :
  exists s' r,
    __sub__ (E := Toy.externals) 4 0 VNone Toy.start = Some (Ret r, s') /\
    restrictions_of (st_heap s') r = Some [VNot VNone] /\
    where_clause (E := Toy.externals) 4 r s'
    = Some (Raise not_a_string, with_heap (st_heap s') Toy.start).
Proof.
  assert (Hplain : plain_operand (E := Toy.externals) 3 (st_heap Toy.start) 0).
  { eexists. split; [ reflexivity | exact I ]. }
  exact (unsupported_restriction_fails_late (E := Toy.externals) 3 Toy.start 0
           {| shape_of := Base 7 "`lab`.`a`" Toy.a_heading;
              _restrictions := None |} [] [] Toy.start (VNot VNone)
           eq_refl eq_refl Hplain eq_refl I).
Defined.

(** X8: restricting a relation ([self], with the inherited [_restrict]) by a
    mapping adds one condition to its [WHERE] clause, after the conditions
    [cs] it had and joined to them with [AND]: the conjunction, in
    parentheses, of [`key`=repr(value)] over the keys of the mapping that the
    heading has.  Keys the heading does not have are left out. *)
Theorem mapping_restriction_adds_a_conjunct `{E : Externals}
    (n : nat) (s : state) (self : loc) (nd : node) (rs : list value)
    (hd : Heading) (cs : list string) (s1 : state)
    (items : list (string * value)) :
  nodes (st_heap s) !! self = Some nd ->
  restrictions_of (st_heap s) self = Some rs ->
  plain_operand n (st_heap s) self ->
  heading n (st_heap s) self = Some (Ret hd) ->
  for_each (condition_with (clause n) n self) rs s = Some (Ret cs, s1) ->
  exists s' r,
    __and__ (S n) self (VDict items) s = Some (Ret r, s') /\
    restrictions_of (st_heap s') r = Some (rs ++ [VDict items]) /\
    where_clause (S n) r s'
    = Some (Ret (" WHERE " +:+
                 String.concat " AND "
                   (cs ++ ["(" +:+ conjunction hd items +:+ ")"])),
            with_heap (st_heap s') s1).
Proof.
  intros Hnd Hrs Hplain Hhd Hcs.
  destruct (where_clause_of_and n s self nd rs cs s1 (VDict items) [VDict items]
              (Ret ["(" +:+ conjunction hd items +:+ ")"])
              (with_heap (and_heap (st_heap s) nd (rs ++ [VDict items])) s1)
              Hnd Hrs Hplain Hcs eq_refl) as [Hand Hwhere].
  - simpl for_each.
    rewrite (bind_ret_run _ _ _ _ _
               (condition_dict_run _ n _ items _ hd
                  (heading_of_copy n s self nd _ s1 _ Hnd Hhd))).
    reflexivity.
  - eexists _, _. split; [ exact Hand | ].
    split; [ apply restrictions_of_and_heap | ].
    rewrite Hwhere. destruct cs; reflexivity.
Qed.

Lemma mapping_restriction_adds_a_conjunct_witness :
  exists s' r,
    __and__ (E := Toy.externals) 4 0
      (VDict [("id", VInt 1); ("colour", VStr "red"); ("value", VInt 10)]) Toy.start
    = Some (Ret r, s') /\
    where_clause (E := Toy.externals) 4 r s'
    = Some (Ret " WHERE (`id`=1 AND `value`=10)", with_heap (st_heap s') Toy.start).
Proof.
  assert (Hplain : plain_operand (E := Toy.externals) 3 (st_heap Toy.start) 0).
  { eexists. split; [ reflexivity | exact I ]. }
  destruct (mapping_restriction_adds_a_conjunct (E := Toy.externals) 3 Toy.start 0
              {| shape_of := Base 7 "`lab`.`a`" Toy.a_heading;
                 _restrictions := None |} [] Toy.a_heading [] Toy.start
              [("id", VInt 1); ("colour", VStr "red"); ("value", VInt 10)]
              eq_refl eq_refl Hplain eq_refl eq_refl)
    as (s' & r & Hand & _ & Hwhere).
  exists s', r. split; [ exact Hand | exact Hwhere ].
Defined.

(** X9: on a relation whose [_restrict] is the inherited one (every node
    but a [Projection] with a computed heading), [self - [m1, ..., mk]], the
    antijoin with a list of mappings, stores the negated list as one
    restriction; its condition is [not ((c1) OR ... OR (ck))] with the
    conjunctions [ci] of the mappings: the rows that match none of them. *)
Theorem antijoin_with_list_is_not_any `{E : Externals}
    (n : nat) (s : state) (self : loc) (nd : node) (rs : list value)
    (hd : Heading) (cs : list string) (s1 : state)
    (ds : list (list (string * value))) :
  nodes (st_heap s) !! self = Some nd ->
  restrictions_of (st_heap s) self = Some rs ->
  plain_operand n (st_heap s) self ->
  heading n (st_heap s) self = Some (Ret hd) ->
  for_each (condition_with (clause n) n self) rs s = Some (Ret cs, s1) ->
  exists s' r,
    __sub__ (S n) self (VList (map VDict ds)) s = Some (Ret r, s') /\
    restrictions_of (st_heap s') r = Some (rs ++ [VNot (VList (map VDict ds))]) /\
    where_clause (S n) r s'
    = Some (Ret (" WHERE " +:+
                 String.concat " AND "
                   (cs ++ ["not (" +:+ disjunction hd ds +:+ ")"])),
            with_heap (st_heap s') s1).
Proof.
  intros Hnd Hrs Hplain Hhd Hcs. unfold __sub__.
  destruct (where_clause_of_and n s self nd rs cs s1
              (VNot (VList (map VDict ds))) [VNot (VList (map VDict ds))]
              (Ret ["not (" +:+ disjunction hd ds +:+ ")"])
              (with_heap (and_heap (st_heap s) nd
                            (rs ++ [VNot (VList (map VDict ds))])) s1)
              Hnd Hrs Hplain Hcs eq_refl) as [Hand Hwhere].
  - simpl for_each.
    rewrite (bind_ret_run _ _ _ ("not (" +:+ disjunction hd ds +:+ ")")
               (with_heap (and_heap (st_heap s) nd
                             (rs ++ [VNot (VList (map VDict ds))])) s1)).
    + reflexivity.
    + apply condition_not_alternatives_run.
      exact (heading_of_copy n s self nd _ s1 _ Hnd Hhd).
  - eexists _, _. split; [ exact Hand | ].
    split; [ apply restrictions_of_and_heap | ].
    rewrite Hwhere. destruct cs; reflexivity.
Qed.

Lemma antijoin_with_list_is_not_any_witness :
  exists s' r,
    __sub__ (E := Toy.externals) 4 0
      (VList [VDict [("id", VInt 1)]; VDict [("id", VInt 2)]]) Toy.start
    = Some (Ret r, s') /\
    where_clause (E := Toy.externals) 4 r s'
    = Some (Ret " WHERE not ((`id`=1) OR (`id`=2))",
            with_heap (st_heap s') Toy.start).
Proof.
  assert (Hplain : plain_operand (E := Toy.externals) 3 (st_heap Toy.start) 0).
  { eexists. split; [ reflexivity | exact I ]. }
  destruct (antijoin_with_list_is_not_any (E := Toy.externals) 3 Toy.start 0
              {| shape_of := Base 7 "`lab`.`a`" Toy.a_heading;
                 _restrictions := None |} [] Toy.a_heading [] Toy.start
              [[("id", VInt 1)]; [("id", VInt 2)]]
              eq_refl eq_refl Hplain eq_refl eq_refl)
    as (s' & r & Hand & _ & Hwhere).
  exists s', r. split; [ exact Hand | exact Hwhere ].
Defined.

(** ** Retrieval *)

Lemma reads_only_refl s : reads_only s s.
Proof. split; [ reflexivity | lia ]. Qed.

Lemma reads_only_trans s1 s2 s3 :
  reads_only s1 s2 -> reads_only s2 s3 -> reads_only s1 s3.
Proof. intros [H12 L12] [H23 L23]. split; [ congruence | lia ]. Qed.

Lemma reads_only_mint s : reads_only s (minted_state s).
Proof. split; [ reflexivity | simpl; lia ]. Qed.

Create HintDb reads.
#[local] Hint Resolve reads_only_refl reads_only_trans reads_only_mint : reads.

Section Retrieval.
Context `{E : Externals}.

Lemma make_select_reads_only n self spec :
  keeps reads_only (make_select n self spec).
Proof. apply keeps_make_select; eauto with reads. Qed.

Lemma cursor_reads_only n self offset limit order_by descending as_dict :
  keeps reads_only (cursor n self offset limit order_by descending as_dict).
Proof.
  unfold cursor.
  destruct (negb (offset =? 0)%Z && _);
    [ apply keeps_raise; eauto with reads | ].
  apply keeps_bind; [ eauto with reads | apply make_select_reads_only | intros sql ].
  apply keeps_bind;
    [ eauto with reads | apply keeps_reading; eauto with reads | intros c ].
  apply keeps_lift_outcome; eauto with reads.
Qed.

Lemma fields_reads_only (hd : Heading) (ret_ : option row) l :
  keeps reads_only
    (for_each
       (fun nm =>
          match heading_getitem hd nm with
          | None => raise (KeyError nm)
          | Some a =>
              match ret_ ≫= (fun r => row_getitem r nm) with
              | None => raise (KeyError nm)
              | Some v => mret (nm, if is_blob a then unpack v else v)
              end
          end) l).
Proof.
  apply keeps_for_each; eauto with reads. intros nm.
  destruct (heading_getitem hd nm); [ | apply keeps_raise; eauto with reads ].
  destruct (ret_ ≫= _);
    [ apply keeps_ret | apply keeps_raise ]; eauto with reads.
Qed.

Lemma fields_same_state (hd : Heading) (ret_ : option row) l :
  keeps (fun s s' => s' = s)
    (for_each
       (fun nm =>
          match heading_getitem hd nm with
          | None => raise (KeyError nm)
          | Some a =>
              match ret_ ≫= (fun r => row_getitem r nm) with
              | None => raise (KeyError nm)
              | Some v => mret (nm, if is_blob a then unpack v else v)
              end
          end) l).
Proof.
  apply keeps_for_each; [ reflexivity | congruence | ]. intros nm.
  destruct (heading_getitem hd nm); [ | apply keeps_raise; reflexivity ].
  destruct (ret_ ≫= _); [ apply keeps_ret | apply keeps_raise ]; reflexivity.
Qed.

Lemma fetched_mapping_reads_only n self hd d :
  keeps reads_only (fetched_mapping n self hd d).
Proof.
  unfold fetched_mapping.
  apply keeps_bind;
    [ eauto with reads | apply keeps_reading; eauto with reads | intros hd' ].
  apply keeps_bind; [ eauto with reads | | intros; apply keeps_ret; eauto with reads ].
  apply (fields_reads_only hd (Some d)).
Qed.

End Retrieval.

(** X10: compiling and fetching only read the store.  [make_select],
    [cursor], [len], [fetch1], [fetch] and the iteration leave every node
    and every restriction list as they were, whatever they answer or raise;
    the alias counter never goes back. *)
Theorem retrieval_reads_only `{E : Externals}
    (n : nat) (self : loc) (spec : option string) (offset : Z)
    (limit : option Z) (order_by : option (list string))
    (descending as_dict : bool) :
  keeps reads_only (make_select n self spec) /\
  keeps reads_only (cursor n self offset limit order_by descending as_dict) /\
  keeps reads_only (__len__ n self) /\
  keeps reads_only (fetch1 n self) /\
  keeps reads_only (fetch_as_dict n self offset limit order_by descending) /\
  keeps reads_only (values n self offset limit order_by descending as_dict).
Proof.
  split; [ apply make_select_reads_only | ].
  split; [ apply cursor_reads_only | ].
  split; [ | split; [ | split ] ].
  - unfold __len__.
    apply keeps_bind;
      [ eauto with reads | apply keeps_reading; eauto with reads | intros c ].
    apply keeps_bind;
      [ eauto with reads | apply make_select_reads_only | intros sql ].
    apply keeps_bind;
      [ eauto with reads | apply keeps_lift_outcome; eauto with reads | intros cur ].
    destruct cur as [|[|[k v] first] cur];
      first [ apply keeps_raise | apply keeps_ret ]; eauto with reads.
  - unfold fetch1.
    apply keeps_bind;
      [ eauto with reads | apply keeps_reading; eauto with reads | intros hd ].
    apply keeps_bind; [ eauto with reads | apply cursor_reads_only | intros cur ].
    destruct (negb (truthy (head cur)) || truthy (head (tail cur)));
      [ apply keeps_raise; eauto with reads | ].
    apply keeps_bind;
      [ eauto with reads | apply keeps_reading; eauto with reads | intros hd' ].
    apply keeps_bind;
      [ eauto with reads | apply fields_reads_only
      | intros; apply keeps_ret; eauto with reads ].
  - unfold fetch_as_dict.
    apply keeps_bind; [ eauto with reads | apply cursor_reads_only | intros cur ].
    apply keeps_bind;
      [ eauto with reads | apply keeps_reading; eauto with reads | intros hd ].
    apply keeps_bind;
      [ eauto with reads | | intros; apply keeps_ret; eauto with reads ].
    apply keeps_for_each; eauto with reads.
    intros d. apply fetched_mapping_reads_only.
  - unfold values.
    apply keeps_bind; [ eauto with reads | apply cursor_reads_only | intros cur ].
    apply keeps_bind;
      [ eauto with reads | apply keeps_reading; eauto with reads | intros hd ].
    apply keeps_ret; eauto with reads.
Qed.

Lemma retrieval_reads_only_witness :
  exists o s',
    fetch1 (E := Toy.externals) 9 4 Toy.nested = Some (o, s') /\
    st_heap s' = st_heap Toy.nested /\ (counter Toy.nested <= counter s')%N.
Proof.
  destruct (fetch1 (E := Toy.externals) 9 4 Toy.nested) as [[o s']|] eqn:Hrun.
  - exists o, s'. split; [ reflexivity | ].
    exact (proj1 (proj2 (proj2 (proj2
             (retrieval_reads_only (E := Toy.externals) 9 4 None 0 None None
                false true)))) Toy.nested o s' Hrun).
  - vm_compute in Hrun. discriminate.
Defined.

(** ** Fetching all rows, and iterating *)

Section FetchAll.
Context `{E : Externals}.

Lemma fetched_mapping_run n self hd (d : row) s :
  heading n (st_heap s) self = Some (Ret hd) ->
  (forall nm, In nm (names hd) -> is_Some (row_getitem d nm)) ->
  fetched_mapping n self hd d s = Some (Ret (VDict (row_items hd d)), s).
Proof.
  intros Hhd Hcols. unfold fetched_mapping.
  rewrite (bind_ret_run _ _ _ _ _ (get_heading_run _ _ _ _ Hhd)).
  rewrite (bind_ret_run _ _ _ _ _ (fetched_fields_run hd d s Hcols)).
  reflexivity.
Qed.

Lemma blob_named_blobs hd nm :
  List.NoDup (names hd) ->
  blob_named hd nm = existsb (String.eqb nm) (blobs hd).
Proof.
  unfold blob_named, heading_getitem, blobs, names.
  induction (attributes hd) as [|a l IH]; intros Hnodup; [ reflexivity | ].
  inversion Hnodup as [|? ? Hnotin Hrest]; subst. simpl.
  destruct (String.eqb (name a) nm) eqn:Hname.
  - apply String.eqb_eq in Hname. subst nm.
    destruct (is_blob a) eqn:Hblob; simpl.
    + rewrite String.eqb_refl. reflexivity.
    + symmetry. apply not_true_is_false. intros Hex.
      apply existsb_exists in Hex as (x & Hx & Heq).
      apply String.eqb_eq in Heq. subst x. apply Hnotin.
      apply in_map_iff in Hx as (b & Hb & Hin).
      apply in_map_iff. exists b. split; [ exact Hb | ].
      apply filter_In in Hin. tauto.
  - rewrite (IH Hrest).
    destruct (is_blob a); simpl; [ | reflexivity ].
    rewrite String.eqb_sym, Hname. reflexivity.
Qed.

Lemma zip_map {A B} (f : A -> B) (l : list A) :
  zip l (map f l) = map (fun x => (x, f x)) l.
Proof. induction l as [|x l IH]; simpl; [ | rewrite IH ]; reflexivity. Qed.

Lemma collect_pure_In {A B} (f : A -> outcome B) (k : A -> B) l :
  (forall x, In x l -> f x = Ret (k x)) -> collect f l = Ret (map k l).
Proof.
  induction l as [|x l IH]; intros Hf; simpl; [ reflexivity | ].
  rewrite (Hf x (or_introl eq_refl)). simpl.
  rewrite IH by (intros y Hy; apply Hf; right; exact Hy). reflexivity.
Qed.

Lemma yield_of_mapping hd (d : row) :
  List.NoDup (names hd) ->
  (forall nm, In nm (names hd) -> is_Some (row_getitem d nm)) ->
  yield_of (names hd)
    (map (fun h => existsb (String.eqb h) (blobs hd)) (names hd)) true d
  = Ret (Mapping (row_items hd d)).
Proof.
  intros Hnodup Hcols. unfold yield_of, row_items.
  rewrite zip_map.
  rewrite collect_pure_In with (k := fun fu : string * bool =>
                                       fetched_field hd d fu.1).
  - simpl. rewrite map_map. reflexivity.
  - intros [nm up] Hin. apply in_map_iff in Hin as (nm' & [= <- <-] & Hnm).
    simpl. unfold fetched_field. rewrite (blob_named_blobs hd nm' Hnodup).
    destruct (Hcols nm' Hnm) as [v ->]. reflexivity.
Qed.

Lemma values_loop_mappings hd (rows : list row) :
  List.NoDup (names hd) ->
  Forall (fun d : row =>
            d <> [] /\
            forall nm, In nm (names hd) -> is_Some (row_getitem d nm)) rows ->
  values_loop (names hd)
    (map (fun h => existsb (String.eqb h) (blobs hd)) (names hd)) true rows
  = (map (fun d => Mapping (row_items hd d)) rows, None).
Proof.
  intros Hnodup Hrows. induction Hrows as [|d rows [Hne Hcols] _ IH].
  - reflexivity.
  - cbn [values_loop]. destruct d as [|kv d]; [ congruence | ]. cbn [truthy].
    rewrite (yield_of_mapping hd (kv :: d) Hnodup Hcols), IH. reflexivity.
Qed.

End FetchAll.

(** X11: [fetch(as_dict=True)] answers one ordered mapping per row of the
    cursor, in the order of the rows: the names of the heading with the
    fields of the row, those of blob attributes after [unpack].  (Every row
    has a column for every name of the heading.) *)
Theorem fetch_as_dict_maps_every_row `{E : Externals}
    (n : nat) (s : state) (self : loc) (offset : Z) (limit : option Z)
    (order_by : option (list string)) (descending : bool)
    (hd : Heading) (rows : list row) (s1 : state) :
  heading n (st_heap s) self = Some (Ret hd) ->
  cursor n self offset limit order_by descending true s = Some (Ret rows, s1) ->
  Forall (fun d : row =>
            forall nm, In nm (names hd) -> is_Some (row_getitem d nm)) rows ->
  fetch_as_dict n self offset limit order_by descending s
  = Some (Ret (VList (map (fun d => VDict (row_items hd d)) rows)), s1).
Proof.
  intros Hhd Hcur Hrows. unfold fetch_as_dict.
  rewrite (bind_ret_run _ _ _ _ _ Hcur).
  assert (Hheap : st_heap s1 = st_heap s)
    by (eapply cursor_same_heap; exact Hcur).
  rewrite <- Hheap in Hhd.
  rewrite (bind_ret_run _ _ _ _ _ (get_heading_run _ _ _ _ Hhd)).
  rewrite (bind_ret_run _ _ s1 (map (fun d => VDict (row_items hd d)) rows) s1).
  - reflexivity.
  - apply for_each_pure_In. intros d Hd.
    apply fetched_mapping_run; [ exact Hhd | ].
    rewrite List.Forall_forall in Hrows. apply Hrows, Hd.
Qed.

Lemma fetch_as_dict_maps_every_row_witness :
  fetch_as_dict (E := Toy.externals) 5 0 0 None None false Toy.start
  = Some (Ret (VList
                 [ VDict [("id", VInt 1); ("value", VInt 10);
                          ("trace", VList [VStr "unpacked"; VStr "blob"])];
                   VDict [("id", VInt 2); ("value", VInt 20);
                          ("trace", VList [VStr "unpacked"; VStr "blob"])];
                   VDict [("id", VInt 3); ("value", VInt 30);
                          ("trace", VList [VStr "unpacked"; VStr "blob"])] ]),
          Toy.start).
Proof.
  assert (Hrows : Forall (fun d : row =>
            forall nm, In nm (names Toy.a_heading) -> is_Some (row_getitem d nm))
            [Toy.a_row 1 10; Toy.a_row 2 20; Toy.a_row 3 30]).
  { repeat constructor; intros nm [<-|[<-|[<-|[]]]]; eexists; reflexivity. }
  exact (fetch_as_dict_maps_every_row (E := Toy.externals) 5 Toy.start 0 0 None
           None false Toy.a_heading
           [Toy.a_row 1 10; Toy.a_row 2 20; Toy.a_row 3 30] Toy.start
           eq_refl eq_refl Hrows).
Defined.

(** X12: what [fetch1] answers is the one element of what
    [fetch(as_dict=True)] answers: whenever [fetch1] returns a mapping, the
    cursor yielding rows with at least one column, [fetch(as_dict=True)]
    returns the list of that mapping alone. *)
Theorem fetch1_is_the_row_of_fetch `{E : Externals}
    (n : nat) (s : state) (self : loc) (rows : list row) (s1 s1' : state)
    (v : value) :
  cursor n self 0 None None false true s = Some (Ret rows, s1) ->
  Forall (fun d : row => d <> []) rows ->
  fetch1 n self s = Some (Ret v, s1') ->
  s1' = s1 /\
  fetch_as_dict n self 0 None None false s = Some (Ret (VList [v]), s1).
Proof.
  intros Hcur Hrows Hfetch1. unfold fetch1 in Hfetch1.
  apply bind_inv in Hfetch1 as [(hd & t & Hhd & Hfetch1)|(e & _ & [=])].
  unfold get_heading in Hhd. apply reading_inv in Hhd as [Hhd ->].
  rewrite (bind_ret_run _ _ _ _ _ Hcur) in Hfetch1.
  assert (Hheap : st_heap s1 = st_heap s)
    by (eapply cursor_same_heap; exact Hcur).
  destruct rows as [|d [|d' rows]].
  - discriminate.
  - destruct d as [|kv d]; [ discriminate | ]. simpl in Hfetch1.
    apply bind_inv in Hfetch1 as [(hd' & t & Hhd' & Hfetch1)|(e & _ & [=])].
    unfold get_heading in Hhd'. apply reading_inv in Hhd' as [Hhd' ->].
    apply bind_inv in Hfetch1 as [(items & t & Hitems & Hfetch1)|(e & _ & [=])].
    injection Hfetch1 as <- <-.
    assert (Ht : t = s1)
      by (eapply (fields_same_state hd (Some (kv :: d))); exact Hitems).
    subst t. split; [ reflexivity | ].
    unfold fetch_as_dict.
    rewrite (bind_ret_run _ _ _ _ _ Hcur).
    rewrite <- Hheap in Hhd.
    rewrite (bind_ret_run _ _ _ _ _ (get_heading_run _ _ _ _ Hhd)).
    simpl for_each. unfold fetched_mapping.
    rewrite (bind_ret_run _ _ s1 [VDict (OrderedDict items)] s1);
      [ reflexivity | ].
    rewrite (bind_ret_run _ _ s1 (VDict (OrderedDict items)) s1);
      [ reflexivity | ].
    rewrite (bind_ret_run _ _ s1 hd' s1)
      by (apply get_heading_run; exact Hhd').
    rewrite (bind_ret_run _ _ _ _ _ Hitems). reflexivity.
  - exfalso. inversion Hrows as [|? ? Hd Hrest]; subst.
    inversion Hrest as [|? ? Hd' _]; subst.
    destruct d as [|kv d]; [ congruence | ].
    destruct d' as [|kv' d']; [ congruence | ].
    discriminate.
Qed.

Lemma fetch1_is_the_row_of_fetch_witness :
  fetch_as_dict (E := Toy.externals) 5 2 0 None None false Toy.projected
  = Some (Ret (VList
                 [ VDict [("id", VInt 1); ("value", VInt 10);
                          ("trace", VList [VStr "unpacked"; VStr "blob"])] ]),
          Toy.projected).
Proof.
  assert (Hone : Forall (fun r : row => r <> []) [Toy.a_row 1 10]).
  { constructor; [ discriminate | constructor ]. }
  exact (proj2 (fetch1_is_the_row_of_fetch (E := Toy.externals) 5 Toy.projected 2
                  [Toy.a_row 1 10] Toy.projected Toy.projected
                  (VDict [("id", VInt 1); ("value", VInt 10);
                          ("trace", VList [VStr "unpacked"; VStr "blob"])])
                  eq_refl Hone eq_refl)).
Defined.

(** X13: iterating over a relation yields, row by row, the mappings that
    [fetch(as_dict=True)] lists, when the names of the heading are distinct
    and every row has at least one column and a column for every name: the
    blob test of [values] ([name in heading.blobs]) and that of [fetch]
    ([heading[name].is_blob]) then agree.  The iteration ends without an
    exception. *)
Theorem iteration_yields_what_fetch_lists `{E : Externals}
    (n : nat) (s : state) (self : loc) (offset : Z) (limit : option Z)
    (order_by : option (list string)) (descending : bool)
    (hd : Heading) (rows : list row) (s1 : state) :
  heading n (st_heap s) self = Some (Ret hd) ->
  List.NoDup (names hd) ->
  cursor n self offset limit order_by descending true s = Some (Ret rows, s1) ->
  Forall (fun d : row =>
            d <> [] /\
            forall nm, In nm (names hd) -> is_Some (row_getitem d nm)) rows ->
  values n self offset limit order_by descending true s
  = Some (Ret (map (fun d => Mapping (row_items hd d)) rows, None), s1) /\
  fetch_as_dict n self offset limit order_by descending s
  = Some (Ret (VList (map (fun d => VDict (row_items hd d)) rows)), s1).
Proof.
  intros Hhd Hnodup Hcur Hrows.
  assert (Hheap : st_heap s1 = st_heap s)
    by (eapply cursor_same_heap; exact Hcur).
  assert (Hhd1 : heading n (st_heap s1) self = Some (Ret hd))
    by (rewrite Hheap; exact Hhd).
  split.
  - unfold values.
    rewrite (bind_ret_run _ _ _ _ _ Hcur).
    rewrite (bind_ret_run _ _ _ _ _ (get_heading_run _ _ _ _ Hhd1)).
    rewrite (values_loop_mappings hd rows Hnodup Hrows). reflexivity.
  - unfold fetch_as_dict.
    rewrite (bind_ret_run _ _ _ _ _ Hcur).
    rewrite (bind_ret_run _ _ _ _ _ (get_heading_run _ _ _ _ Hhd1)).
    rewrite (bind_ret_run _ _ s1 (map (fun d => VDict (row_items hd d)) rows) s1).
    + reflexivity.
    + apply for_each_pure_In. intros d Hd.
      apply fetched_mapping_run; [ exact Hhd1 | ].
      rewrite List.Forall_forall in Hrows. apply Hrows, Hd.
Qed.

Lemma iteration_yields_what_fetch_lists_witness :
  __iter__ (E := Toy.externals) 5 0 Toy.start
  = Some (Ret ([ Mapping [("id", VInt 1); ("value", VInt 10);
                          ("trace", VList [VStr "unpacked"; VStr "blob"])];
                 Mapping [("id", VInt 2); ("value", VInt 20);
                          ("trace", VList [VStr "unpacked"; VStr "blob"])];
                 Mapping [("id", VInt 3); ("value", VInt 30);
                          ("trace", VList [VStr "unpacked"; VStr "blob"])] ],
               None), Toy.start).
Proof.
  assert (Hnodup : List.NoDup (names Toy.a_heading)).
  { repeat constructor; simpl; intuition discriminate. }
  assert (Hrows : Forall (fun d : row =>
            d <> [] /\
            forall nm, In nm (names Toy.a_heading) -> is_Some (row_getitem d nm))
            [Toy.a_row 1 10; Toy.a_row 2 20; Toy.a_row 3 30]).
  { repeat constructor; try discriminate;
      intros nm [<-|[<-|[<-|[]]]]; eexists; reflexivity. }
  exact (proj1 (iteration_yields_what_fetch_lists (E := Toy.externals) 5
                  Toy.start 0 0 None None false Toy.a_heading
                  [Toy.a_row 1 10; Toy.a_row 2 20; Toy.a_row 3 30] Toy.start
                  eq_refl Hnodup eq_refl Hrows)).
Defined.

(** ** The statement of a cursor *)

Lemma string_app_assoc (a b c : string) : (a +:+ b) +:+ c = a +:+ (b +:+ c).
Proof.
  induction a as [|x a IH]; [ reflexivity | ].
  change (String x ((a +:+ b) +:+ c) = String x (a +:+ (b +:+ c))).
  f_equal. exact IH.
Qed.

Lemma string_app_nil_r (a : string) : a +:+ "" = a.
Proof.
  induction a as [|x a IH]; [ reflexivity | ].
  change (String x (a +:+ "") = String x a).
  f_equal. exact IH.
Qed.

(** X14: [cursor] sends to the connection the [SELECT] statement of the
    relation followed by [ ORDER BY <cols>[ DESC]] when [order_by] is given
    and then by [ LIMIT <limit>[ OFFSET <offset>]] when [limit] is given:
    [descending] without [order_by] changes nothing, and an offset goes with
    a limit only.  An offset without a limit raises the [DataJointError]
    before anything is compiled or sent. *)
Theorem cursor_statement `{E : Externals}
    (n : nat) (s : state) (self : loc) (offset : Z) (limit : option Z)
    (order_by : option (list string)) (descending as_dict : bool)
    (sql : string) (s1 : state) (c : conn) :
  make_select n self None s = Some (Ret sql, s1) ->
  connection n (st_heap s) self = Some c ->
  cursor n self offset limit order_by descending as_dict s
  = match limit with
    | None =>
        if Z.eqb offset 0
        then Some (query c (sql +:+ order_text order_by descending) as_dict, s1)
        else Some (Raise (DataJointError "limit is required when offset is set"), s)
    | Some _ =>
        Some (query c (sql +:+ order_text order_by descending
                           +:+ limit_text offset limit) as_dict, s1)
    end.
Proof.
  intros Hsql Hc.
  assert (Hheap : st_heap s1 = st_heap s).
  { eapply (keeps_make_select same_heap); [ | | | exact Hsql ];
      unfold same_heap; first [ reflexivity | congruence ]. }
  assert (Hc1 : get_connection n self s1 = Some (Ret c, s1))
    by (apply get_connection_run; rewrite Hheap; exact Hc).
  unfold cursor.
  destruct limit as [lim|]; [ | destruct (Z.eqb offset 0) eqn:Hoff ];
    cbn [negb andb].
  - rewrite Bool.andb_false_r.
    rewrite (bind_ret_run _ _ _ _ _ Hsql).
    rewrite (bind_ret_run _ _ _ _ _ Hc1).
    unfold lift_outcome, order_text, limit_text.
    destruct order_by; rewrite ?string_app_assoc, ?string_app_nil_r;
      cbn [String.append]; reflexivity.
  - rewrite (bind_ret_run _ _ _ _ _ Hsql).
    rewrite (bind_ret_run _ _ _ _ _ Hc1).
    unfold lift_outcome, order_text.
    destruct order_by; rewrite ?string_app_nil_r; reflexivity.
  - reflexivity.
Qed.

Lemma cursor_statement_witness :
  cursor (E := Toy.externals) 5 0 2 (Some 10%Z) (Some ["id"; "value"]) true true
    Toy.start
  = Some (Toy.database 7
            ("SELECT `id`,`value`,`trace` FROM `lab`.`a`"
               +:+ " ORDER BY id, value DESC" +:+ " LIMIT 10 OFFSET 2") true,
          Toy.start).
Proof.
  exact (cursor_statement (E := Toy.externals) 5 Toy.start 0 2 (Some 10%Z)
           (Some ["id"; "value"]) true true
           "SELECT `id`,`value`,`trace` FROM `lab`.`a`" Toy.start 7
           eq_refl eq_refl).
Defined.

(** ** Relations restricted by themselves *)

Lemma for_each_In_inv {A B} (R : state -> state -> Prop) (f : A -> M B) :
  (forall s, R s s) ->
  (forall s1 s2 s3, R s1 s2 -> R s2 s3 -> R s1 s3) ->
  (forall x, keeps R (f x)) ->
  forall l s ys s', for_each f l s = Some (Ret ys, s') ->
  forall x, In x l -> exists t y t', R s t /\ f x t = Some (Ret y, t').
Proof.
  intros Hrefl Htrans Hf l.
  induction l as [|x0 l IH]; intros s ys s' Hrun x Hin; [ destruct Hin | ].
  simpl in Hrun.
  apply bind_inv in Hrun as [(y & t & Hy & Hrun)|(e & _ & [=])].
  apply bind_inv in Hrun as [(ys' & t' & Hys & Hrun)|(e & _ & [=])].
  destruct Hin as [<-|Hin].
  - exists s, y, t. auto.
  - destruct (IH _ _ _ Hys x Hin) as (u & z & u' & Hu & Hz).
    exists u, z, u'. split; [ | exact Hz ].
    eapply Htrans; [ eapply Hf; exact Hy | exact Hu ].
Qed.

Section Loops.
Context `{E : Externals}.

Lemma condition_same_heap n self r :
  keeps same_heap (condition_with (clause n) n self r).
Proof.
  apply keeps_condition_with; unfold same_heap;
    first [ reflexivity | congruence | idtac ].
  intros k l. apply clause_same_heap.
Qed.

(** A condition for the relation [b] needs the [WHERE] clause of [b]. *)
Lemma semijoin_needs_where n self b negate s c s' :
  semijoin_condition (clause n) n self negate b s = Some (Ret c, s') ->
  exists t w t', st_heap t = st_heap s /\ where_clause n b t = Some (Ret w, t').
Proof.
  unfold semijoin_condition. intros Hrun.
  apply bind_inv in Hrun as [(common & t1 & Hcommon & Hrun)|(e & _ & [=])].
  apply bind_inv in Hrun as [(f & t2 & Hf & Hrun)|(e & _ & [=])].
  apply bind_inv in Hrun as [(w & t3 & Hw & Hrun)|(e & _ & [=])].
  exists t2, w, t3. split; [ | exact Hw ].
  assert (H1 : same_heap s t1).
  { eapply (keeps_common_attributes same_heap); [ | | exact Hcommon ];
      unfold same_heap; first [ reflexivity | congruence ]. }
  assert (H2 : same_heap t1 t2) by (eapply clause_same_heap; exact Hf).
  unfold same_heap in *. congruence.
Qed.

End Loops.

(** X15: a relation that is restricted by itself, as after [a &= a], has no
    [WHERE] clause: whatever the depth allowed, compiling it never returns a
    text, since the condition for the restriction asks for the [WHERE] clause
    of the relation again.  The same holds for every set of relations each
    of which is restricted by one of the set. *)
Theorem restriction_cycle_never_compiles `{E : Externals}
    (h : heap) (cycle : loc -> Prop) :
  (forall a, cycle a -> exists b, cycle b /\ restricted_by h a b) ->
  forall n a s txt s',
    st_heap s = h -> cycle a ->
    where_clause n a s <> Some (Ret txt, s').
Proof.
  intros Hcycle n.
  induction n as [|n IH]; intros a s txt s' Hs Ha Hrun; [ discriminate | ].
  destruct (Hcycle a Ha) as (b & Hb & rs & Hrs & Hin).
  unfold where_clause in Hrun. simpl in Hrun.
  rewrite (bind_ret_run _ _ s rs s) in Hrun
    by (apply get_restrictions_run; rewrite Hs; exact Hrs).
  destruct rs as [|r0 rs]; [ destruct Hin as [[]|[]] | ].
  apply bind_inv in Hrun as [(cs & t0 & Hcs & _)|(e & _ & [=])].
  assert (Hcond : exists negate t c t',
            st_heap t = h /\
            semijoin_condition (clause n) n a negate b t = Some (Ret c, t')).
  { destruct Hin as [Hin|Hin];
      destruct (for_each_In_inv same_heap
                  (condition_with (clause n) n a)
                  (fun s => eq_refl)
                  (fun s1 s2 s3 (H12 : same_heap s1 s2) (H23 : same_heap s2 s3) =>
                     eq_trans H23 H12)
                  (condition_same_heap n a) _ _ _ _ Hcs _ Hin)
        as (t & y & t' & Ht & Hy);
      unfold condition_with in Hy;
      apply bind_inv in Hy as [(c & u & Hc & _)|(e & _ & [=])];
      [ exists false | exists true ]; exists t, c, u;
      (split; [ unfold same_heap in Ht; congruence | exact Hc ]). }
  destruct Hcond as (negate & t & c & t' & Ht & Hsemi).
  destruct (semijoin_needs_where _ _ _ _ _ _ _ Hsemi) as (u & w & u' & Hu & Hw).
  eapply (IH b u w u'); [ congruence | exact Hb | exact Hw ].
Qed.

(** The store [Toy3.looped] is the one [a &= a] builds. *)
Lemma looped_built :
  __iand__ (E := Toy.externals) 2 0 (VRel 0) Toy.start = Some (Ret 0, Toy3.looped).
Proof. vm_compute. reflexivity. Qed.

Lemma restriction_cycle_never_compiles_witness :
  where_clause (E := Toy.externals) 40 0 Toy3.looped
  <> Some (Ret " WHERE ((id,value,trace) in (SELECT id,value,trace FROM `lab`.`a`))",
           Toy3.looped).
Proof.
  apply (restriction_cycle_never_compiles (E := Toy.externals)
           (st_heap Toy3.looped) (fun a => a = 0)).
  - intros a ->. exists 0. split; [ reflexivity | ].
    exists [VRel 0]. split; [ reflexivity | left; left; reflexivity ].
  - reflexivity.
  - reflexivity.
Defined.

(** ** Restricting step by step *)

Section Steps.
Context `{E : Externals}.

Lemma restrict_list_single rs c : single c -> restrict_list rs c = rs ++ [c].
Proof. destruct c; simpl; tauto. Qed.

Lemma and_all_run n : forall cs s self nd rs,
  nodes (st_heap s) !! self = Some nd ->
  restrictions_of (st_heap s) self = Some rs ->
  plain_operand n (st_heap s) self ->
  Forall single cs ->
  exists s1 r1 nd1,
    and_all (S n) self cs s = Some (Ret r1, s1) /\
    nodes (st_heap s1) !! r1 = Some nd1 /\
    shape_of nd1 = shape_of nd /\
    restrictions_of (st_heap s1) r1 = Some (rs ++ cs) /\
    heap_le (st_heap s) (st_heap s1).
Proof.
  induction cs as [|c cs IH]; intros s self nd rs Hnd Hrs Hplain Hcs.
  - exists s, self, nd. simpl. rewrite app_nil_r.
    repeat split; auto; reflexivity.
  - inversion Hcs as [|? ? Hc Hcs']; subst.
    set (h1 := and_heap (st_heap s) nd (rs ++ [c])).
    assert (Hle : heap_le (st_heap s) h1) by apply heap_le_and_heap.
    destruct (IH (with_heap h1 s) (length (nodes (st_heap s)))
                {| shape_of := shape_of nd;
                   _restrictions := Some (length (lists (st_heap s))) |}
                (rs ++ [c])) as (s1 & r1 & nd1 & Hrun & Hnd1 & Hshape & Hrs1 & Hle1).
    + apply lookup_snoc_last.
    + apply restrictions_of_and_heap.
    + cbn [st_heap with_heap].
      eapply plain_operand_alike; [ exact Hle | | exact Hplain ].
      apply alike_and_heap, Hnd.
    + exact Hcs'.
    + exists s1, r1, nd1. cbn [and_all].
      rewrite (bind_ret_run _ _ s (length (nodes (st_heap s))) (with_heap h1 s)).
      2:{ rewrite (and_plain_run n self c s nd rs Hnd Hrs Hplain).
          rewrite (restrict_list_single rs c Hc). reflexivity. }
      split; [ exact Hrun | split; [ exact Hnd1 | split; [ exact Hshape | ] ] ].
      split; [ rewrite Hrs1, <- app_assoc; reflexivity | ].
      eapply heap_le_trans; [ exact Hle | exact Hle1 ].
Qed.

End Steps.

(** X16: on a relation whose [_restrict] is the inherited one (every node
    but a [Projection] with a computed heading), restricting with a list is
    restricting with its elements one after the other.  For restrictions
    none of which is [None] or a list, [self & [c1, ..., ck]] and
    [self & c1 & ... & ck] are nodes of the class and attributes of [self]
    whose restriction lists have the same contents, those of [self] followed
    by [c1, ..., ck]; the list of [self] is as it was. *)
Theorem list_restriction_is_stepwise `{E : Externals}
    (n : nat) (s : state) (self : loc) (nd : node) (rs cs : list value) :
  nodes (st_heap s) !! self = Some nd ->
  restrictions_of (st_heap s) self = Some rs ->
  plain_operand n (st_heap s) self ->
  Forall single cs ->
  exists s1 r1 s2 r2,
    and_all (S n) self cs s = Some (Ret r1, s1) /\
    __and__ (S n) self (VList cs) s = Some (Ret r2, s2) /\
    shape_of <$> nodes (st_heap s1) !! r1 = Some (shape_of nd) /\
    shape_of <$> nodes (st_heap s2) !! r2 = Some (shape_of nd) /\
    restrictions_of (st_heap s1) r1 = Some (rs ++ cs) /\
    restrictions_of (st_heap s2) r2 = Some (rs ++ cs) /\
    restrictions_of (st_heap s1) self = Some rs /\
    restrictions_of (st_heap s2) self = Some rs.
Proof.
  intros Hnd Hrs Hplain Hcs.
  destruct (and_all_run n cs s self nd rs Hnd Hrs Hplain Hcs)
    as (s1 & r1 & nd1 & Hrun & Hnd1 & Hshape & Hrs1 & Hle1).
  exists s1, r1. eexists _, _.
  split; [ exact Hrun | ].
  split; [ apply and_plain_run; eassumption | ].
  cbn [st_heap with_heap restrict_list].
  split; [ rewrite Hnd1; simpl; congruence | ].
  split; [ unfold and_heap; simpl; rewrite lookup_snoc_last; reflexivity | ].
  split; [ exact Hrs1 | ].
  split; [ apply restrictions_of_and_heap | ].
  split; eapply restrictions_of_le; try exact Hrs;
    [ exact Hle1 | apply heap_le_and_heap ].
Qed.

Lemma list_restriction_is_stepwise_witness :
  exists s1 r1 s2 r2,
    and_all (E := Toy.externals) 4 0
      [VDict [("id", VInt 1)]; VNot (VRel 1)] Toy.start = Some (Ret r1, s1) /\
    __and__ (E := Toy.externals) 4 0
      (VList [VDict [("id", VInt 1)]; VNot (VRel 1)]) Toy.start = Some (Ret r2, s2) /\
    restrictions_of (st_heap s1) r1 = Some [VDict [("id", VInt 1)]; VNot (VRel 1)] /\
    restrictions_of (st_heap s2) r2 = Some [VDict [("id", VInt 1)]; VNot (VRel 1)].
Proof.
  assert (Hplain : plain_operand (E := Toy.externals) 3 (st_heap Toy.start) 0).
  { eexists. split; [ reflexivity | exact I ]. }
  assert (Hsingle : Forall single [VDict [("id", VInt 1)]; VNot (VRel 1)]).
  { repeat constructor. }
  destruct (list_restriction_is_stepwise (E := Toy.externals) 3 Toy.start 0
              {| shape_of := Base 7 "`lab`.`a`" Toy.a_heading;
                 _restrictions := None |} []
              [VDict [("id", VInt 1)]; VNot (VRel 1)]
              eq_refl eq_refl Hplain Hsingle)
    as (s1 & r1 & s2 & r2 & H1 & H2 & _ & _ & Hrs1 & Hrs2 & _).
  exists s1, r1, s2, r2. auto.
Defined.

(** ** Projecting a relation with a computed heading *)

(** X17: [project] on a relation whose heading is computed encloses it in a
    new [Subquery] and builds the projection on that.  The projection starts
    without restrictions, its [WHERE] clause is empty, and its [FROM] clause
    is the whole [SELECT] statement of the argument, restrictions included,
    in parentheses under a new alias. *)
Theorem Projection_of_computed_argument `{E : Externals}
    (n : nat) (s : state) (arg : loc)
    (attrs : list string) (renamed_attributes : list (string * string))
    (kept : list string) (renamed : list (string * string)) (ha : Heading) :
  parse_attributes attrs [] renamed_attributes = (kept, renamed) ->
  heading n (st_heap s) arg = Some (Ret ha) ->
  computed ha = true ->
  exists s1 q sub,
    project n arg attrs renamed_attributes s = Some (Ret q, s1) /\
    nodes (st_heap s) !! sub = None /\
    nodes (st_heap s) !! q = None /\
    nodes (st_heap s1) !! sub
    = Some {| shape_of := Subquery arg; _restrictions := None |} /\
    nodes (st_heap s1) !! q
    = Some {| shape_of := Projection sub kept renamed; _restrictions := None |} /\
    heap_le (st_heap s) (st_heap s1) /\
    (forall m t, st_heap t = st_heap s1 ->
       where_clause (S m) q t = Some (Ret "", t)) /\
    (forall m t sel t1, st_heap t = st_heap s1 ->
       make_select m arg None t = Some (Ret sel, t1) ->
       from_clause (S (S m)) q t
       = Some (Ret ("(" +:+ sel +:+ ") as `" +:+ alias_of (counter t1 + 1) +:+ "`"),
               minted_state t1)).
Proof.
  intros Hparse Hha Hcomp.
  set (h := st_heap s) in *.
  set (h1 := {| nodes := (nodes h ++
                   [ {| shape_of := Subquery arg; _restrictions := None |} ]) ++
                   [ {| shape_of := Projection (length (nodes h)) kept renamed;
                        _restrictions := None |} ];
                lists := lists h |}).
  assert (Hsub : nodes h1 !! length (nodes h)
                 = Some {| shape_of := Subquery arg; _restrictions := None |}).
  { unfold h1. simpl. rewrite lookup_app_l
      by (rewrite length_app; simpl; lia).
    apply lookup_snoc_last. }
  assert (Hq : nodes h1 !! S (length (nodes h))
               = Some {| shape_of := Projection (length (nodes h)) kept renamed;
                         _restrictions := None |}).
  { unfold h1. simpl.
    replace (S (length (nodes h)))
      with (length (nodes h ++
              [ {| shape_of := Subquery arg; _restrictions := None |} ]))
      by (rewrite length_app; simpl; lia).
    apply lookup_snoc_last. }
  exists (with_heap h1 s), (S (length (nodes h))), (length (nodes h)).
  split.
  { unfold project, Projection__init__. rewrite Hparse.
    rewrite (bind_ret_run _ _ _ _ _ (get_heading_run _ _ _ _ Hha)).
    rewrite Hcomp. unmonad. unfold bind, Subquery__init__, alloc_node. simpl.
    rewrite length_app. simpl. rewrite Nat.add_1_r. reflexivity. }
  cbn [st_heap with_heap].
  split; [ apply lookup_ge_None_2; lia | ].
  split; [ apply lookup_ge_None_2; lia | ].
  split; [ exact Hsub | split; [ exact Hq | ] ].
  split.
  { split; simpl; [ rewrite <- app_assoc; apply prefix_app_r | ]; reflexivity. }
  split.
  - intros m t Ht. unfold where_clause. simpl.
    rewrite (bind_ret_run _ _ t [] t); [ reflexivity | ].
    apply get_restrictions_run. unfold restrictions_of. rewrite Ht, Hq.
    reflexivity.
  - intros m t sel t1 Ht Hsel. unfold from_clause. cbn [clause].
    rewrite (bind_ret_run _ _ t _ t)
      by (apply read_node_run; rewrite Ht; exact Hq).
    cbn [shape_of].
    rewrite (bind_ret_run _ _ t _ t)
      by (apply read_node_run; rewrite Ht; exact Hsub).
    cbn [shape_of].
    change (select_with (clause m) m arg None) with (make_select m arg None).
    rewrite (bind_ret_run _ _ _ _ _ Hsel). reflexivity.
Qed.

Lemma Projection_of_computed_argument_witness :
  exists s1 q,
    project (E := Toy.externals) 5 3 [] [] Toy.projected = Some (Ret q, s1) /\
    where_clause (E := Toy.externals) 5 q s1 = Some (Ret "", s1) /\
    fst <$> from_clause (E := Toy.externals) 5 q s1
    = Some (Ret "(SELECT `id`,`doubled` FROM `lab`.`a` WHERE (`id`=1)) as `_s1`").
Proof.
  destruct (Projection_of_computed_argument (E := Toy.externals) 5 Toy.projected 3
              [] [] [] [] Toy.p_heading eq_refl eq_refl eq_refl)
    as (s1 & q & sub & Hrun & _ & _ & _ & _ & _ & Hwhere & Hfrom).
  exists s1, q. split; [ exact Hrun | split; [ apply Hwhere; reflexivity | ] ].
  assert (Hs1 : st_heap s1 = st_heap s1) by reflexivity.
  assert (Hcounter : counter s1 = 0%N /\ minted s1 = []).
  { vm_compute in Hrun. injection Hrun as _ <-. split; reflexivity. }
  destruct Hcounter as [Hc Hm].
  rewrite (Hfrom 3 s1 "SELECT `id`,`doubled` FROM `lab`.`a` WHERE (`id`=1)" s1 Hs1).
  - rewrite Hc. reflexivity.
  - vm_compute in Hrun. injection Hrun as <- <-. reflexivity.
Defined.

(** ** The operators build trees *)

Lemma nodes_ok_spec nl l : forall i,
  nodes_ok nl i l = true <->
  forall j nd, l !! j = Some nd -> node_ok nl (i + j) nd = true.
Proof.
  induction l as [|x l IH]; intros i; cbn [nodes_ok].
  - split; [ intros _ j nd Hj; destruct j; discriminate | reflexivity ].
  - rewrite andb_true_iff, IH. split.
    + intros [Hx Hl] [|j] nd Hj; simpl in Hj.
      * injection Hj as <-. rewrite Nat.add_0_r. exact Hx.
      * replace (i + S j) with (S i + j) by lia. apply Hl, Hj.
    + intros H. split.
      * specialize (H 0 x eq_refl). rewrite Nat.add_0_r in H. exact H.
      * intros j nd Hj. replace (S i + j) with (i + S j) by lia.
        apply H. exact Hj.
Qed.

Lemma tree_spec h :
  tree h = true <->
  forall i nd, nodes h !! i = Some nd -> node_ok (length (lists h)) i nd = true.
Proof. unfold tree. rewrite nodes_ok_spec. reflexivity. Qed.

Lemma node_ok_spec nl i nd :
  node_ok nl i nd = true <->
  (forall c, In c (children (shape_of nd)) -> c < i) /\
  (forall p, _restrictions nd = Some p -> p < nl).
Proof.
  unfold node_ok. rewrite andb_true_iff, forallb_forall. split.
  - intros [Hc Hp]. split.
    + intros c Hin. apply Nat.ltb_lt, Hc, Hin.
    + intros p Hnd. rewrite Hnd in Hp. apply Nat.ltb_lt, Hp.
  - intros [Hc Hp]. split.
    + intros c Hin. apply Nat.ltb_lt, Hc, Hin.
    + destruct (_restrictions nd) as [p|]; [ | reflexivity ].
      apply Nat.ltb_lt, Hp. reflexivity.
Qed.

Lemma node_ok_mono nl nl' i i' nd :
  node_ok nl i nd = true -> nl <= nl' -> i <= i' -> node_ok nl' i' nd = true.
Proof.
  rewrite !node_ok_spec. intros [Hc Hp] Hnl Hi. split.
  - intros c Hin. specialize (Hc c Hin). lia.
  - intros p Hnd. specialize (Hp p Hnd). lia.
Qed.

Lemma node_ok_repoint nl i nd p :
  node_ok nl i nd = true -> p < nl ->
  node_ok nl i {| shape_of := shape_of nd; _restrictions := Some p |} = true.
Proof.
  rewrite !node_ok_spec. cbn [shape_of _restrictions]. intros [Hc _] Hp.
  split; [ exact Hc | ]. intros q [= <-]. exact Hp.
Qed.

Lemma tree_alloc_node h nd :
  tree h = true -> node_ok (length (lists h)) (length (nodes h)) nd = true ->
  tree {| nodes := nodes h ++ [nd]; lists := lists h |} = true.
Proof.
  rewrite !tree_spec. cbn [nodes lists]. intros Ht Hnd i x Hi.
  destruct (decide (i < length (nodes h))) as [Hlt|Hge].
  - rewrite lookup_app_l in Hi by assumption. apply Ht, Hi.
  - rewrite lookup_app_r in Hi by lia.
    destruct (i - length (nodes h)) as [|k] eqn:Hd; [ | destruct k; discriminate ].
    injection Hi as <-. replace i with (length (nodes h)) by lia. exact Hnd.
Qed.

Lemma tree_alloc_list h l :
  tree h = true -> tree {| nodes := nodes h; lists := lists h ++ [l] |} = true.
Proof.
  rewrite !tree_spec. cbn [nodes lists]. intros Ht i x Hi.
  apply (node_ok_mono (length (lists h)) _ i i); [ apply Ht, Hi | | lia ].
  rewrite length_app. lia.
Qed.

Lemma tree_write_node h self nd :
  tree h = true -> self < length (nodes h) ->
  node_ok (length (lists h)) self nd = true ->
  tree {| nodes := <[self := nd]> (nodes h); lists := lists h |} = true.
Proof.
  rewrite !tree_spec. cbn [nodes lists]. intros Ht Hself Hnd i x Hi.
  destruct (decide (i = self)) as [->|Hne].
  - rewrite list_lookup_insert_eq in Hi by assumption.
    injection Hi as <-. exact Hnd.
  - rewrite list_lookup_insert_ne in Hi by congruence. apply Ht, Hi.
Qed.

Lemma tree_write_list h p l :
  tree h = true -> tree {| nodes := nodes h; lists := <[p := l]> (lists h) |} = true.
Proof.
  rewrite !tree_spec. cbn [nodes lists]. intros Ht i x Hi.
  rewrite length_insert. apply Ht, Hi.
Qed.

Lemma at_least_refl s : at_least s s.
Proof. split; [ intros i nd Hnd; eauto | reflexivity ]. Qed.

Lemma at_least_trans s1 s2 s3 : at_least s1 s2 -> at_least s2 s3 -> at_least s1 s3.
Proof.
  intros [Ha Hl] [Ha' Hl']. split; [ | lia ].
  intros i nd Hnd. destruct (Ha i nd Hnd) as (nd1 & Hnd1 & Hsh1).
  destruct (Ha' i nd1 Hnd1) as (nd2 & Hnd2 & Hsh2).
  exists nd2. split; [ exact Hnd2 | congruence ].
Qed.

Lemma at_least_nodes s s' :
  at_least s s' -> length (nodes (st_heap s)) <= length (nodes (st_heap s')).
Proof.
  intros [Ha _]. destruct (length (nodes (st_heap s))) as [|k] eqn:Hk; [ lia | ].
  destruct (lookup_lt_is_Some_2 (nodes (st_heap s)) k) as [nd Hnd]; [ lia | ].
  destruct (Ha k nd Hnd) as (nd' & Hnd' & _).
  apply lookup_lt_Some in Hnd'. lia.
Qed.

(** The same operands, with the same restriction pointers or not. *)
Lemma at_least_same_nodes s s' :
  nodes (st_heap s') = nodes (st_heap s) ->
  length (lists (st_heap s)) <= length (lists (st_heap s')) -> at_least s s'.
Proof.
  intros Hsame Hl. split; [ | exact Hl ].
  intros i nd Hnd. exists nd. rewrite Hsame. auto.
Qed.

Section Trees.
Context `{E : Externals}.

Lemma operand_at_least r s s' : operand r s -> at_least s s' -> operand r s'.
Proof. unfold operand. intros Hr Hle. apply at_least_nodes in Hle. lia. Qed.

Lemma ends_in_weaken {A} s (m : M A) (ok ok' : A -> state -> Prop) :
  ends_in s m ok -> (forall a s', ok a s' -> ok' a s') -> ends_in s m ok'.
Proof.
  intros Hm Hok o s' Hrun. destruct (Hm o s' Hrun) as (Ht & Hle & Ha).
  split; [ exact Ht | ]. split; [ exact Hle | ].
  intros a Ho. apply Hok, Ha, Ho.
Qed.

Lemma ends_in_ret {A} s (a : A) (ok : A -> state -> Prop) :
  tree (st_heap s) = true -> ok a s -> ends_in s (mret a) ok.
Proof.
  intros Ht Hok o s' [= <- <-].
  split; [ exact Ht | ]. split; [ apply at_least_refl | ].
  intros a' [= <-]. exact Hok.
Qed.

Lemma ends_in_raise {A} s e (ok : A -> state -> Prop) :
  tree (st_heap s) = true -> ends_in s (raise e) ok.
Proof.
  intros Ht o s' [= <- <-].
  split; [ exact Ht | ]. split; [ apply at_least_refl | ]. intros a' [=].
Qed.

Lemma ends_in_lift_outcome {A} s (o : outcome A) :
  tree (st_heap s) = true -> grows s (lift_outcome o).
Proof.
  intros Ht o' s' [= <- <-].
  split; [ exact Ht | ]. split; [ apply at_least_refl | ]. intros; exact I.
Qed.

Lemma ends_in_reading {A} s (f : heap -> option (outcome A)) :
  tree (st_heap s) = true ->
  ends_in s (reading f) (fun a s' => s' = s /\ f (st_heap s) = Some (Ret a)).
Proof.
  intros Ht o s' Hrun. apply reading_inv in Hrun as [Hf ->].
  split; [ exact Ht | ]. split; [ apply at_least_refl | ].
  intros a ->. split; [ reflexivity | exact Hf ].
Qed.

Lemma ends_in_bind {A B} s (m : M A) (f : A -> M B)
    (okA : A -> state -> Prop) (okB : B -> state -> Prop) :
  ends_in s m okA ->
  (forall a s1, tree (st_heap s1) = true -> at_least s s1 -> okA a s1 ->
     ends_in s1 (f a) okB) ->
  ends_in s (m ≫= f) okB.
Proof.
  intros Hm Hf o s' Hrun.
  destruct (bind_inv _ _ _ _ _ Hrun) as [(a & s1 & Hma & Hfa)|(e & Hme & ->)].
  - destruct (Hm _ _ Hma) as (Ht1 & Hle1 & Ha).
    destruct (Hf a s1 Ht1 Hle1 (Ha a eq_refl) o s' Hfa) as (Ht & Hle & Hb).
    split; [ exact Ht | ]. split; [ eapply at_least_trans; eassumption | exact Hb ].
  - destruct (Hm _ _ Hme) as (Ht1 & Hle1 & _).
    split; [ exact Ht1 | ]. split; [ exact Hle1 | ]. intros b [=].
Qed.

(** *** The primitive operations *)

Lemma ends_in_read_node s self :
  tree (st_heap s) = true ->
  ends_in s (read_node self)
    (fun nd s' => s' = s /\ nodes (st_heap s) !! self = Some nd).
Proof.
  intros Ht. eapply ends_in_weaken; [ apply ends_in_reading, Ht | ].
  intros nd s' [-> Hnd]. split; [ reflexivity | ].
  cbn beta in Hnd. destruct (nodes (st_heap s) !! self); [ | discriminate ].
  injection Hnd as ->. reflexivity.
Qed.

Lemma connection_operand n h self c :
  connection n h self = Some c -> self < length (nodes h).
Proof.
  destruct n as [|n]; [ discriminate | ]. cbn [connection].
  destruct (nodes h !! self) as [nd|] eqn:Hnd; [ | discriminate ].
  intros _. eapply lookup_lt_Some, Hnd.
Qed.

Lemma heading_operand n h self o :
  heading n h self = Some o -> self < length (nodes h).
Proof.
  destruct n as [|n]; [ discriminate | ]. cbn [heading].
  destruct (nodes h !! self) as [nd|] eqn:Hnd; [ | discriminate ].
  intros _. eapply lookup_lt_Some, Hnd.
Qed.

Lemma restrictions_operand h self rs :
  restrictions_of h self = Some rs -> self < length (nodes h).
Proof.
  unfold restrictions_of.
  destruct (nodes h !! self) as [nd|] eqn:Hnd; [ | discriminate ].
  intros _. eapply lookup_lt_Some, Hnd.
Qed.

Lemma ends_in_get_connection s n self :
  tree (st_heap s) = true ->
  ends_in s (get_connection n self) (fun _ s' => s' = s /\ operand self s).
Proof.
  intros Ht. eapply ends_in_weaken; [ apply ends_in_reading, Ht | ].
  intros c s' [-> Hc]. split; [ reflexivity | ]. cbn beta in Hc.
  destruct (connection n (st_heap s) self) as [c'|] eqn:Hc'; [ | discriminate ].
  eapply connection_operand, Hc'.
Qed.

Lemma ends_in_get_heading s n self :
  tree (st_heap s) = true ->
  ends_in s (get_heading n self) (fun _ s' => s' = s /\ operand self s).
Proof.
  intros Ht. eapply ends_in_weaken; [ apply ends_in_reading, Ht | ].
  intros hd s' [-> Hhd]. split; [ reflexivity | ].
  eapply heading_operand, Hhd.
Qed.

Lemma ends_in_get_restrictions s self :
  tree (st_heap s) = true ->
  ends_in s (get_restrictions self) (fun _ s' => s' = s /\ operand self s).
Proof.
  intros Ht. eapply ends_in_weaken; [ apply ends_in_reading, Ht | ].
  intros rs s' [-> Hrs]. split; [ reflexivity | ]. cbn beta in Hrs.
  destruct (restrictions_of (st_heap s) self) as [rs'|] eqn:Hrs'; [ | discriminate ].
  eapply restrictions_operand, Hrs'.
Qed.

Lemma ends_in_alloc_node s nd :
  tree (st_heap s) = true ->
  node_ok (length (lists (st_heap s))) (length (nodes (st_heap s))) nd = true ->
  builds s (alloc_node nd).
Proof.
  intros Ht Hnd o s' [= <- <-]. cbn [st_heap with_heap].
  split; [ apply tree_alloc_node; assumption | ].
  split.
  - split; cbn [st_heap with_heap nodes lists]; [ | lia ].
    intros i x Hx. exists x. split; [ | reflexivity ].
    cbn [nodes]. apply lookup_app_l_Some, Hx.
  - intros r [= <-]. unfold operand. cbn [st_heap with_heap nodes].
    rewrite length_app. simpl. lia.
Qed.

Lemma ends_in_alloc_list s l :
  tree (st_heap s) = true ->
  ends_in s (alloc_list l)
    (fun p s' => p < length (lists (st_heap s')) /\
                 nodes (st_heap s') = nodes (st_heap s)).
Proof.
  intros Ht o s' [= <- <-]. cbn [st_heap with_heap].
  split; [ apply tree_alloc_list; assumption | ].
  split.
  - apply at_least_same_nodes; cbn [st_heap with_heap nodes lists];
      [ reflexivity | rewrite length_app; lia ].
  - intros r [= <-]. cbn [st_heap with_heap lists nodes].
    rewrite length_app. simpl. split; [ lia | reflexivity ].
Qed.

Lemma ends_in_repoint s self nd p :
  tree (st_heap s) = true ->
  nodes (st_heap s) !! self = Some nd ->
  p < length (lists (st_heap s)) ->
  grows s (write_node self {| shape_of := shape_of nd; _restrictions := Some p |}).
Proof.
  intros Ht Hnd Hp o s' Hrun.
  rewrite (write_node_run _ _ _ _ Hnd) in Hrun. injection Hrun as <- <-.
  cbn [st_heap with_heap]. split.
  - apply tree_write_node; [ exact Ht | eapply lookup_lt_Some, Hnd | ].
    apply node_ok_repoint; [ | exact Hp ].
    apply tree_spec with (h := st_heap s); assumption.
  - split; [ | intros; exact I ].
    split; cbn [st_heap with_heap nodes lists]; [ | lia ].
    intros i x Hx. cbn [nodes]. destruct (decide (i = self)) as [->|Hne].
    + eexists. split; [ apply list_lookup_insert_eq; eapply lookup_lt_Some, Hnd | ].
      cbn [shape_of]. congruence.
    + exists x. rewrite list_lookup_insert_ne by congruence. auto.
Qed.

Lemma ends_in_write_list s p l :
  tree (st_heap s) = true -> grows s (write_list p l).
Proof.
  intros Ht o s' Hrun. unfold write_list in Hrun.
  destruct (lists (st_heap s) !! p); [ | discriminate ].
  injection Hrun as <- <-. cbn [st_heap with_heap]. split.
  - apply tree_write_list, Ht.
  - split; [ | intros; exact I ].
    apply at_least_same_nodes; cbn [st_heap with_heap nodes lists];
      [ reflexivity | rewrite length_insert; lia ].
Qed.

End Trees.

(** *** The constructors and the restriction operators *)

Section Builders.
Context `{E : Externals}.

Lemma tree_pointer h self nd p :
  tree h = true -> nodes h !! self = Some nd ->
  _restrictions nd = Some p -> p < length (lists h).
Proof.
  intros Ht Hnd Hp.
  pose proof (proj1 (tree_spec _) Ht self nd Hnd) as Hok.
  apply node_ok_spec in Hok as [_ Hq]. apply Hq, Hp.
Qed.

Lemma tree_child h self nd c :
  tree h = true -> nodes h !! self = Some nd ->
  In c (children (shape_of nd)) -> c < self.
Proof.
  intros Ht Hnd Hc.
  pose proof (proj1 (tree_spec _) Ht self nd Hnd) as Hok.
  apply node_ok_spec in Hok as [Hq _]. apply Hq, Hc.
Qed.

Lemma Subquery__init__builds s arg :
  tree (st_heap s) = true -> operand arg s -> builds s (Subquery__init__ arg).
Proof.
  intros Ht Harg. apply ends_in_alloc_node; [ exact Ht | ].
  apply node_ok_spec. cbn [shape_of _restrictions children]. split.
  - intros c [<-|[]]. exact Harg.
  - intros p [=].
Qed.

Lemma copy_builds s self : tree (st_heap s) = true -> builds s (copy self).
Proof.
  intros Ht. unfold copy.
  eapply ends_in_bind; [ apply ends_in_read_node, Ht | ].
  intros nd s1 _ _ [-> Hnd]. apply ends_in_alloc_node; [ exact Ht | ].
  eapply node_ok_mono; [ apply tree_spec with (h := st_heap s); eassumption | lia | ].
  apply Nat.lt_le_incl. eapply lookup_lt_Some, Hnd.
Qed.

Lemma restrictions_object_builds s self :
  tree (st_heap s) = true ->
  ends_in s (restrictions_object self)
    (fun p s' => p < length (lists (st_heap s'))).
Proof.
  intros Ht. unfold restrictions_object.
  eapply ends_in_bind; [ apply ends_in_read_node, Ht | ].
  intros nd s1 _ _ [-> Hnd].
  destruct (_restrictions nd) as [p|] eqn:Hp.
  - apply ends_in_ret; [ exact Ht | ]. eapply tree_pointer; eassumption.
  - eapply ends_in_weaken; [ apply ends_in_alloc_list, Ht | ].
    intros p s' [Hlt _]. exact Hlt.
Qed.

(** The body of the inherited [_restrict] for a restriction that is not
    [None]; [k] is what the restriction does to the contents of the list. *)
Lemma restrict_body_builds s self (k : list value -> list value) :
  tree (st_heap s) = true ->
  builds s
    (nd ← read_node self;
     p ← match _restrictions nd with
         | Some p => mret p
         | None =>
             p ← alloc_list [];
             write_node self {| shape_of := shape_of nd; _restrictions := Some p |};;
             mret p
         end;
     old ← read_list p;
     write_list p (k old);;
     mret self).
Proof.
  intros Ht.
  eapply ends_in_bind; [ apply ends_in_read_node, Ht | ].
  intros nd s1 _ _ [-> Hnd].
  assert (Hself : operand self s) by (eapply lookup_lt_Some, Hnd).
  eapply ends_in_bind with (okA := fun _ _ => True).
  { destruct (_restrictions nd) as [p|].
    - apply ends_in_ret; [ exact Ht | exact I ].
    - eapply ends_in_bind; [ apply ends_in_alloc_list, Ht | ].
      intros p s1 Ht1 Hle1 [Hp Hsame].
      eapply ends_in_bind.
      + apply ends_in_repoint; [ exact Ht1 | rewrite Hsame; exact Hnd | exact Hp ].
      + intros _ s2 Ht2 _ _. apply ends_in_ret; [ exact Ht2 | exact I ]. }
  intros p s1 Ht1 Hle1 _.
  eapply ends_in_bind; [ apply ends_in_reading, Ht1 | ].
  intros old s2 _ _ [-> _].
  eapply ends_in_bind; [ apply ends_in_write_list, Ht1 | ].
  intros _ s3 Ht3 Hle3 _. apply ends_in_ret; [ exact Ht3 | ].
  eapply operand_at_least; [ exact Hself | ].
  eapply at_least_trans; eassumption.
Qed.

Lemma RelationalOperand_restrict_builds s self restriction :
  tree (st_heap s) = true -> operand self s ->
  builds s (RelationalOperand_restrict self restriction).
Proof.
  intros Ht Hself. unfold RelationalOperand_restrict.
  destruct restriction as [ |z|sql|items|elems|fields|elems|r|l];
    try exact (restrict_body_builds s self (fun old => old ++ [_]) Ht).
  - apply ends_in_ret; assumption.
  - exact (restrict_body_builds s self (fun old => old ++ elems) Ht).
Qed.

Lemma and_with_builds (iand : loc -> value -> M loc) s self restriction :
  (forall r s1, tree (st_heap s1) = true -> operand r s1 ->
     builds s1 (iand r restriction)) ->
  tree (st_heap s) = true -> builds s (and_with iand self restriction).
Proof.
  intros Hiand Ht. unfold and_with.
  eapply ends_in_bind; [ apply copy_builds, Ht | ].
  intros r s1 Ht1 _ Hr.
  eapply ends_in_bind; [ apply ends_in_get_restrictions, Ht1 | ].
  intros rs s2 _ _ [-> _].
  eapply ends_in_bind; [ apply ends_in_alloc_list, Ht1 | ].
  intros p s2 Ht2 Hle2 [Hp Hsame].
  eapply ends_in_bind; [ apply ends_in_read_node, Ht2 | ].
  intros nd s3 _ _ [-> Hnd].
  eapply ends_in_bind; [ apply ends_in_repoint; eassumption | ].
  intros _ s3 Ht3 Hle3 _. apply Hiand; [ exact Ht3 | ].
  eapply operand_at_least; [ exact Hr | ].
  eapply at_least_trans; eassumption.
Qed.

Lemma _restrict_builds n : forall s self restriction,
  tree (st_heap s) = true -> builds s (_restrict n self restriction).
Proof.
  induction n as [|n IH]; intros s self restriction Ht.
  - intros o s' [=].
  - cbn [_restrict].
    eapply ends_in_bind; [ apply ends_in_read_node, Ht | ].
    intros nd s1 _ _ [-> Hnd].
    assert (Hself : operand self s) by (eapply lookup_lt_Some, Hnd).
    destruct (shape_of nd);
      try (apply RelationalOperand_restrict_builds; assumption).
    eapply ends_in_bind; [ apply ends_in_get_heading, Ht | ].
    intros hd s1 _ _ [-> _].
    destruct (computed hd).
    + eapply ends_in_bind; [ apply Subquery__init__builds; assumption | ].
      intros w s1 Ht1 _ _. apply and_with_builds; [ | exact Ht1 ].
      intros r s2 Ht2 _. apply IH, Ht2.
    + apply RelationalOperand_restrict_builds; assumption.
Qed.

Lemma __and__builds n s self restriction :
  tree (st_heap s) = true -> builds s (__and__ n self restriction).
Proof.
  intros Ht. apply and_with_builds; [ | exact Ht ].
  intros r s1 Ht1 _. apply _restrict_builds, Ht1.
Qed.

Lemma wrap_if_builds s (b : bool) arg other :
  tree (st_heap s) = true -> operand arg s -> operand other s ->
  builds s (if b then Subquery__init__ arg else mret other).
Proof.
  intros Ht Harg Hother. destruct b.
  - apply Subquery__init__builds; assumption.
  - apply ends_in_ret; assumption.
Qed.

Lemma Join__init__builds n s arg1 arg2 left_ :
  tree (st_heap s) = true -> builds s (Join__init__ n arg1 arg2 left_).
Proof.
  intros Ht. unfold Join__init__.
  destruct arg2 as [ |z|sql|items|elems|fields|elems|r|arg2];
    try (apply ends_in_raise, Ht).
  eapply ends_in_bind; [ apply ends_in_get_connection, Ht | ].
  intros c1 s1 _ _ [-> H1].
  eapply ends_in_bind; [ apply ends_in_get_connection, Ht | ].
  intros c2 s1 _ _ [-> H2].
  destruct (negb (Nat.eqb c1 c2)); [ apply ends_in_raise, Ht | ].
  eapply ends_in_bind; [ apply ends_in_get_heading, Ht | ].
  intros h1 s1 _ _ [-> _].
  eapply ends_in_bind; [ apply wrap_if_builds; assumption | ].
  intros a1 s1 Ht1 Hle1 Ha1.
  eapply ends_in_bind; [ apply ends_in_get_heading, Ht1 | ].
  intros h2 s2 _ _ [-> _].
  eapply ends_in_bind.
  { apply wrap_if_builds; [ exact Ht1 | | ];
      eapply operand_at_least; eassumption. }
  intros a2 s2 Ht2 Hle2 Ha2.
  eapply ends_in_bind; [ apply ends_in_get_restrictions, Ht2 | ].
  intros r1 s3 _ _ [-> _].
  eapply ends_in_bind; [ apply ends_in_get_restrictions, Ht2 | ].
  intros r2 s3 _ _ [-> _].
  eapply ends_in_bind; [ apply ends_in_alloc_list, Ht2 | ].
  intros p s3 Ht3 Hle3 [Hp Hsame].
  apply ends_in_alloc_node; [ exact Ht3 | ].
  apply node_ok_spec. cbn [shape_of _restrictions children]. split.
  - rewrite Hsame. intros c [<-|[<-|[]]]; [ | exact Ha2 ].
    eapply operand_at_least; eassumption.
  - intros q [= <-]. exact Hp.
Qed.

Lemma Projection__init__builds n s arg attrs renamed_attributes :
  tree (st_heap s) = true ->
  builds s (Projection__init__ n arg attrs renamed_attributes).
Proof.
  intros Ht. unfold Projection__init__.
  destruct (parse_attributes attrs [] renamed_attributes) as [kept renamed].
  eapply ends_in_bind; [ apply ends_in_get_heading, Ht | ].
  intros hd s1 _ _ [-> Harg].
  destruct (computed hd).
  - eapply ends_in_bind; [ apply Subquery__init__builds; assumption | ].
    intros w s1 Ht1 _ Hw. apply ends_in_alloc_node; [ exact Ht1 | ].
    apply node_ok_spec. cbn [shape_of _restrictions children]. split.
    + intros c [<-|[]]. exact Hw.
    + intros q [=].
  - eapply ends_in_bind; [ apply restrictions_object_builds, Ht | ].
    intros p s1 Ht1 Hle1 Hp. apply ends_in_alloc_node; [ exact Ht1 | ].
    apply node_ok_spec. cbn [shape_of _restrictions children]. split.
    + intros c [<-|[]]. eapply operand_at_least; eassumption.
    + intros q [= <-]. exact Hp.
Qed.

Lemma aggregate_grows n s self group attrs renamed_attributes :
  tree (st_heap s) = true ->
  grows s (aggregate n self group attrs renamed_attributes).
Proof.
  intros Ht. unfold aggregate.
  destruct group as [ |z|sql|items|elems|fields|elems|r|g];
    try (apply ends_in_raise, Ht).
  eapply ends_in_bind; [ apply Join__init__builds, Ht | ].
  intros j s1 Ht1 _ _.
  eapply ends_in_bind; [ apply Projection__init__builds, Ht1 | ].
  intros r s2 Ht2 _ _.
  eapply ends_in_bind; [ apply ends_in_get_heading, Ht2 | ].
  intros hd s3 _ _ [-> _].
  eapply ends_in_bind with (okA := fun _ s' => s' = s2).
  { unfold primary_key.
    eapply ends_in_bind; [ apply ends_in_get_heading, Ht2 | ].
    intros hd' s3 _ _ [-> _]. apply ends_in_ret; [ exact Ht2 | reflexivity ]. }
  intros pk s3 _ _ ->.
  eapply ends_in_bind; [ apply ends_in_lift_outcome, Ht2 | ].
  intros _ s3 Ht3 _ _. apply ends_in_ret; [ exact Ht3 | exact I ].
Qed.

End Builders.

Section Keys.
Context `{E : Externals}.

Lemma values_reads_only n self offset limit order_by descending as_dict :
  keeps reads_only (values n self offset limit order_by descending as_dict).
Proof.
  unfold values.
  apply keeps_bind; [ eauto with reads | apply cursor_reads_only | intros cur ].
  apply keeps_bind;
    [ eauto with reads | apply keeps_reading; eauto with reads | intros hd ].
  apply keeps_ret; eauto with reads.
Qed.

Lemma keys_grows n s self offset limit order_by descending as_dict :
  tree (st_heap s) = true ->
  grows s (keys n self offset limit order_by descending as_dict).
Proof.
  intros Ht. unfold keys, project.
  eapply ends_in_bind; [ apply Projection__init__builds, Ht | ].
  intros p s1 Ht1 _ _ o s' Hrun.
  destruct (values_reads_only _ _ _ _ _ _ _ _ _ _ Hrun) as [Hheap _].
  split; [ rewrite Hheap; exact Ht1 | ].
  split; [ | intros; exact I ].
  apply at_least_same_nodes; rewrite Hheap; reflexivity.
Qed.

End Keys.

(** X18: the relational operators build trees and leave the operands they
    are given as they are.  From a store in which every operand refers to
    operands older than itself, a run of [self * other], [self.project(...)],
    [self.aggregate(...)], [self & r], [self &= r], [self - r], [self -= r] or
    [self.keys(...)] that finishes, with a result or with an exception, ends
    in such a store again; every operand that was there is still there with
    its class and its arguments (only restriction lists are written to), no
    restriction list is missing, and the relation an operator answers is an
    operand of the store. *)
Theorem operators_build_trees `{E : Externals}
    (n : nat) (s : state) (self : loc) (other restriction : value)
    (attrs : list string) (renamed_attributes : list (string * string))
    (offset : Z) (limit : option Z) (order_by : option (list string))
    (descending as_dict : bool) :
  tree (st_heap s) = true ->
  builds s (__mul__ n self other) /\
  builds s (project n self attrs renamed_attributes) /\
  grows s (aggregate n self other attrs renamed_attributes) /\
  builds s (__and__ n self restriction) /\
  builds s (__iand__ n self restriction) /\
  builds s (__sub__ n self restriction) /\
  builds s (__isub__ n self restriction) /\
  grows s (keys n self offset limit order_by descending as_dict).
Proof.
  intros Ht.
  split; [ apply Join__init__builds, Ht | ].
  split; [ apply Projection__init__builds, Ht | ].
  split; [ apply aggregate_grows, Ht | ].
  split; [ apply __and__builds, Ht | ].
  split; [ apply _restrict_builds, Ht | ].
  split; [ apply __and__builds, Ht | ].
  split; [ apply _restrict_builds, Ht | ].
  apply keys_grows, Ht.
Qed.

Lemma operators_build_trees_witness :
  tree (st_heap Toy.projected) = true /\
  exists r s',
    __and__ (E := Toy.externals) 5 3 (VDict [("id", VInt 2)]) Toy.projected
    = Some (Ret r, s') /\
    length (nodes (st_heap s')) = 7 /\
    tree (st_heap s') = true /\ operand r s'.
Proof.
  split; [ reflexivity | ].
  destruct (operators_build_trees (E := Toy.externals) 5 Toy.projected 3
              (VRel 1) (VDict [("id", VInt 2)]) [] [] 0 None None false true
              eq_refl)
    as (_ & _ & _ & Hand & _).
  eexists _, _. split; [ vm_compute; reflexivity | ].
  split; [ reflexivity | ].
  destruct (Hand _ _ eq_refl) as (Ht & _ & Hr).
  split; [ exact Ht | apply Hr; reflexivity ].
Defined.

(** ** Headings and connections of a tree *)

(** X19: in a store where every operand refers to older operands only, the
    properties [connection], [heading] and [restrictions] of every operand
    have an answer: the recursion of [Join], [Projection] and [Subquery]
    through their arguments ends, at a depth of the operand's place in the
    store at most, and with the same answer at every greater depth. *)
Theorem operands_of_a_tree_resolve `{E : Externals} (h : heap) (self : loc) :
  tree h = true -> self < length (nodes h) ->
  exists c o rs,
    (forall n, self < n ->
       connection n h self = Some c /\ heading n h self = Some o) /\
    restrictions_of h self = Some rs.
Proof.
  intros Ht. induction self as [self IH] using lt_wf_ind. intros Hlen.
  destruct (lookup_lt_is_Some_2 _ _ Hlen) as [nd Hnd].
  assert (Hrs : exists rs, restrictions_of h self = Some rs).
  { unfold restrictions_of. rewrite Hnd. simpl.
    destruct (_restrictions nd) as [p|] eqn:Hp; [ | eauto ].
    apply lookup_lt_is_Some_2. eapply tree_pointer; eassumption. }
  destruct Hrs as [rs Hrs].
  assert (Hchild : forall a, In a (children (shape_of nd)) ->
            exists c o, forall n, a < n ->
              connection n h a = Some c /\ heading n h a = Some o).
  { intros a Ha. pose proof (tree_child _ _ _ _ Ht Hnd Ha) as Hlt.
    destruct (IH a Hlt ltac:(lia)) as (c & o & _ & H & _). eauto. }
  destruct (shape_of nd) as [c f hd|a1 a2 l|a attrs renamed|a] eqn:Hsh;
    cbn [children] in Hchild.
  - exists c, (Ret hd), rs. split; [ | exact Hrs ].
    intros [|n] Hn; [ lia | ]. cbn [connection heading].
    rewrite Hnd. simpl. rewrite Hsh. auto.
  - destruct (Hchild a1 ltac:(simpl; auto)) as (c1 & o1 & H1).
    destruct (Hchild a2 ltac:(simpl; auto)) as (c2 & o2 & H2).
    assert (Hlt1 : a1 < self) by (eapply tree_child; [ eassumption.. | rewrite Hsh; simpl; auto ]).
    assert (Hlt2 : a2 < self) by (eapply tree_child; [ eassumption.. | rewrite Hsh; simpl; auto ]).
    exists c1,
      (match o1 with
       | Raise e => Raise e
       | Ret h1 => outcome_bind o2 (fun h2 => heading_join h1 h2 l)
       end), rs.
    split; [ | exact Hrs ].
    intros [|n] Hn; [ lia | ].
    destruct (H1 n ltac:(lia)) as [Hc1 Hh1].
    destruct (H2 n ltac:(lia)) as [_ Hh2].
    cbn [connection heading]. rewrite Hnd. simpl. rewrite Hsh, Hc1, Hh1. simpl.
    destruct o1; [ rewrite Hh2 | ]; auto.
  - destruct (Hchild a ltac:(simpl; auto)) as (c1 & o1 & H1).
    assert (Hlt1 : a < self) by (eapply tree_child; [ eassumption.. | rewrite Hsh; simpl; auto ]).
    exists c1, (outcome_bind o1 (fun ha => heading_project ha attrs renamed)), rs.
    split; [ | exact Hrs ].
    intros [|n] Hn; [ lia | ].
    destruct (H1 n ltac:(lia)) as [Hc1 Hh1].
    cbn [connection heading]. rewrite Hnd. simpl. rewrite Hsh, Hc1, Hh1. auto.
  - destruct (Hchild a ltac:(simpl; auto)) as (c1 & o1 & H1).
    assert (Hlt1 : a < self) by (eapply tree_child; [ eassumption.. | rewrite Hsh; simpl; auto ]).
    exists c1, (outcome_bind o1 heading_resolve), rs.
    split; [ | exact Hrs ].
    intros [|n] Hn; [ lia | ].
    destruct (H1 n ltac:(lia)) as [Hc1 Hh1].
    cbn [connection heading]. rewrite Hnd. simpl. rewrite Hsh, Hc1, Hh1. auto.
Qed.

Lemma operands_of_a_tree_resolve_witness :
  exists c o,
    connection 5 (st_heap Toy.nested) 4 = Some c /\
    heading (E := Toy.externals) 5 (st_heap Toy.nested) 4 = Some o.
Proof.
  destruct (operands_of_a_tree_resolve (E := Toy.externals)
              (st_heap Toy.nested) 4 eq_refl ltac:(simpl; lia))
    as (c & o & rs & H & _).
  exists c, o. apply H. lia.
Defined.

(** ** The restrictions of a projection *)

Section Projected.
Context `{E : Externals}.

Lemma where_clause_of_mappings n t self hd ds :
  heading n (st_heap t) self = Some (Ret hd) ->
  restrictions_of (st_heap t) self = Some (map VDict ds) ->
  where_clause (S n) self t
  = Some (Ret (where_text (mapping_conditions hd ds)), t).
Proof.
  intros Hhd Hrs. eapply where_clause_run; [ exact Hrs | ].
  apply for_each_pure_map. intros d. apply condition_dict_run, Hhd.
Qed.

End Projected.

(** X20: a projection compiles the restrictions it took over from its
    argument against its own heading.  For a relation [arg] (heading not
    computed) restricted by the mappings [ds], and a projection of it whose
    heading [hp] is not computed either, the [WHERE] clause of the
    projection has one condition for each mapping, made of the keys that
    [hp] has, whereas the [WHERE] clause of [arg] has the conditions made of
    the keys that the heading of [arg] has: a key of an attribute that was
    projected away is left out of the condition. *)
Theorem Projection_conditions_use_its_heading `{E : Externals}
    (n : nat) (s : state) (arg : loc)
    (attrs : list string) (renamed_attributes : list (string * string))
    (ha hp : Heading) (ds : list (list (string * value)))
    (kept : list string) (renamed : list (string * string)) :
  parse_attributes attrs [] renamed_attributes = (kept, renamed) ->
  heading n (st_heap s) arg = Some (Ret ha) ->
  computed ha = false ->
  heading_project ha kept renamed = Ret hp ->
  restrictions_of (st_heap s) arg = Some (map VDict ds) ->
  exists q s1,
    project n arg attrs renamed_attributes s = Some (Ret q, s1) /\
    (forall t, st_heap t = st_heap s1 ->
       where_clause (S (S n)) q t
       = Some (Ret (where_text (mapping_conditions hp ds)), t)) /\
    (forall t, st_heap t = st_heap s1 ->
       where_clause (S n) arg t
       = Some (Ret (where_text (mapping_conditions ha ds)), t)).
Proof.
  intros Hparse Hha Hcomp Hhp Hrs.
  destruct (lookup_lt_is_Some_2 _ _ (heading_operand _ _ _ _ Hha)) as [nd Hnd].
  set (h := st_heap s) in *.
  assert (Htail : forall h1 o,
    heap_le h h1 ->
    nodes h1 !! length (nodes h)
    = Some {| shape_of := Projection arg kept renamed; _restrictions := o |} ->
    restrictions_of h1 (length (nodes h)) = Some (map VDict ds) ->
    (forall t, st_heap t = h1 ->
       where_clause (S (S n)) (length (nodes h)) t
       = Some (Ret (where_text (mapping_conditions hp ds)), t)) /\
    (forall t, st_heap t = h1 ->
       where_clause (S n) arg t
       = Some (Ret (where_text (mapping_conditions ha ds)), t))).
  { intros h1 o Hle Hq Hrsq. split; intros t Ht.
    - apply where_clause_of_mappings; rewrite Ht; [ | exact Hrsq ].
      rewrite <- Hhp. eapply heading_of_new_projection; eassumption.
    - apply where_clause_of_mappings; rewrite Ht.
      + apply (heading_alike h h1 Hle n arg arg _ (alike_refl h h1 Hle arg) Hha).
      + apply (restrictions_of_le h h1 Hle), Hrs. }
  unfold restrictions_of in Hrs. fold h in Hrs. rewrite Hnd in Hrs. simpl in Hrs.
  destruct (_restrictions nd) as [p|] eqn:Hp.
  - exists (length (nodes h)). eexists. split.
    + unfold project.
      apply (Projection__init__shared_run n s arg attrs renamed_attributes
               kept renamed nd ha p); assumption.
    + cbn [st_heap with_heap]. eapply Htail.
      * split; cbn [nodes lists]; [ apply prefix_app_r | ]; reflexivity.
      * cbn [nodes]. apply lookup_snoc_last.
      * unfold restrictions_of. cbn [nodes lists].
        fold h. rewrite lookup_snoc_last. simpl. exact Hrs.
  - exists (length (nodes h)). eexists. split.
    + unfold project.
      apply (Projection__init__fresh_run n s arg attrs renamed_attributes
               kept renamed nd ha); assumption.
    + cbn [st_heap with_heap]. eapply Htail.
      * split; cbn [nodes lists]; apply prefix_app_r; reflexivity.
      * cbn [nodes]. apply lookup_snoc_last.
      * unfold restrictions_of. cbn [nodes lists].
        fold h. rewrite lookup_snoc_last. simpl.
        rewrite lookup_snoc_last. exact Hrs.
Qed.

Lemma Projection_conditions_use_its_heading_witness :
  exists q s1,
    project (E := Toy.externals) 3 0 [] [] Toy4.filtered = Some (Ret q, s1) /\
    where_clause (E := Toy.externals) 5 q s1
    = Some (Ret " WHERE (`id`=1)", s1) /\
    where_clause (E := Toy.externals) 4 0 s1
    = Some (Ret " WHERE (`id`=1 AND `value`=10)", s1).
Proof.
  destruct (Projection_conditions_use_its_heading (E := Toy.externals)
              3 Toy4.filtered 0 [] [] Toy.a_heading Toy4.key_heading
              [[("id", VInt 1); ("value", VInt 10)]] [] []
              eq_refl eq_refl eq_refl eq_refl eq_refl)
    as (q & s1 & Hrun & Hq & Ha).
  exists q, s1. split; [ exact Hrun | ].
  split; [ exact (Hq s1 eq_refl) | exact (Ha s1 eq_refl) ].
Defined.
